(** * SupportSpotsGenerator: a shallow embedding and its checked properties

    The development follows [src/libslic3r/SupportSpotsGenerator.cpp].
    C++ [float] is IEEE-754 binary32 and [double] is binary64; both are
    modelled with the parametric specification of the Standard Library
    ([SpecFloat], round to nearest even).  Indexing a vector out of range,
    [unordered_map::at] on a missing key and a failed [assert] end a run
    with [Fault]; unbounded [while] loops take fuel and end with
    [Timeout] when it runs out. *)

From Stdlib Require Import ZArith NArith Lia Bool.
From Stdlib Require Import Floats.SpecFloat.
From stdpp Require Import base option list gmap.

#[local] Open Scope Z_scope.

(** ** IEEE-754 scalars *)

Module F32.
Definition prec : Z := 24.
Definition emax : Z := 128.
Definition add := SFadd prec emax.
Definition sub := SFsub prec emax.
Definition mul := SFmul prec emax.
Definition div := SFdiv prec emax.
Definition sqrt := SFsqrt prec emax.
Definition of_Z (z : Z) : spec_float := binary_normalize prec emax z 0 false.
  (** the literal [n/d] with the suffix f, for exactly representable n, d *)
Definition lit (n d : Z) : spec_float := div (of_Z n) (of_Z d).
Definition zero : spec_float := S754_zero false.
Definition one : spec_float := of_Z 1.
Definition infinity : spec_float := S754_infinity false.
End F32.

Module F64.
Definition prec : Z := 53.
Definition emax : Z := 1024.
Definition add := SFadd prec emax.
Definition sub := SFsub prec emax.
Definition mul := SFmul prec emax.
Definition div := SFdiv prec emax.
Definition sqrt := SFsqrt prec emax.
Definition of_Z (z : Z) : spec_float := binary_normalize prec emax z 0 false.
Definition lit (n d : Z) : spec_float := div (of_Z n) (of_Z d).
Definition zero : spec_float := S754_zero false.
End F64.

(** [float] and [double] are both carried by [spec_float]; the two
    abbreviations record which format a value is kept in. *)
Abbreviation float := spec_float (only parsing).
Abbreviation double := spec_float (only parsing).

(** Conversions.  Widening is exact, narrowing rounds. *)
Definition round_to (prec emax : Z) (x : spec_float) : spec_float :=
  match x with
  | S754_finite s m e => binary_normalize prec emax (cond_Zopp s (Zpos m)) e s
  | _ => x
  end.
Definition to_double (x : float) : double := round_to F64.prec F64.emax x.
Definition to_float (x : double) : float := round_to F32.prec F32.emax x.

(** Comparisons of C++: every comparison with a NaN is false. *)
Definition flt (x y : spec_float) : bool := SFltb x y.
Definition fgt (x y : spec_float) : bool := SFltb y x.
Definition feq (x y : spec_float) : bool := SFeqb x y.

Definition fabs (x : spec_float) : spec_float := SFabs x.
Definition fneg (x : spec_float) : spec_float := SFopp x.

(** [std::max(a, b)] is [(a < b) ? b : a] and [std::min(a, b)] is
    [(b < a) ? b : a]. *)
Definition fmax (a b : spec_float) : spec_float := if flt a b then b else a.
Definition fmin (a b : spec_float) : spec_float := if flt b a then b else a.

(** Truncation toward zero of a finite value, as an unbounded integer. *)
Definition trunc (x : spec_float) : Z :=
  match x with
  | S754_finite s m e =>
      cond_Zopp s (match e with
                   | Zneg p => Z.shiftr (Zpos m) (Zpos p)
                   | _ => Z.shiftl (Zpos m) e
                   end)
  | _ => 0
  end.

Definition INT_MIN : Z := - 2 ^ 31.
Definition INT_MAX : Z := 2 ^ 31 - 1.

(** [static_cast<int>] of a floating value.  Outside the range of [int]
    (and for NaN and the infinities) the C++ conversion is undefined; the
    model returns what x86-64 returns there, [INT_MIN]. *)
Definition cast_int (x : spec_float) : Z :=
  match x with
  | S754_zero _ => 0
  | S754_finite _ _ _ =>
      let t := trunc x in
      if (INT_MIN <=? t) && (t <=? INT_MAX) then t else INT_MIN
  | _ => INT_MIN
  end.

(** [std::ceil] in either format: the result is an integer value, exact. *)
Definition ceil_Z (x : spec_float) : Z :=
  match x with
  | S754_finite s m e =>
      match e with
      | Zneg p =>
          let q := Z.shiftr (Zpos m) (Zpos p) in
          let exact := Z.eqb (Z.shiftl q (Zpos p)) (Zpos m) in
          if s then - q else if exact then q else q + 1
      | _ => cond_Zopp s (Z.shiftl (Zpos m) e)
      end
  | _ => 0
  end.

Definition ceil32 (x : float) : float :=
  match x with
  | S754_finite s _ _ =>
      let c := ceil_Z x in
      if Z.eqb c 0 then S754_zero s else F32.of_Z c
  | _ => x
  end.

Definition size_t_max : N := (2 ^ 64 - 1)%N.

(** ** Outcomes of a run *)

Inductive result (A : Type) : Type :=
  | Ok (a : A)
  | Fault
  | Timeout.
Arguments Ok {A} a.
Arguments Fault {A}.
Arguments Timeout {A}.

Definition bind {A B} (r : result A) (f : A -> result B) : result B :=
  match r with
  | Ok a => f a
  | Fault => Fault
  | Timeout => Timeout
  end.

Notation "x <- r ;; k" := (bind r (fun x => k))
  (at level 100, r at next level, right associativity).

(** [v[i]] on a [std::vector]: outside the range the run faults. *)
Definition vec_at {A} (v : list A) (i : nat) : result A :=
  match v !! i with
  | Some a => Ok a
  | None => Fault
  end.

(** the same with a [size_t] index *)
Definition vec_atN {A} (v : list A) (i : N) : result A :=
  if (i <? N.of_nat (length v))%N then vec_at v (N.to_nat i) else Fault.

(** [m.at(k)] on an [unordered_map]: a missing key throws. *)
Definition map_at {A} (m : gmap N A) (k : N) : result A :=
  match m !! k with
  | Some a => Ok a
  | None => Fault
  end.

(** [for (i = 0; i < n; ++i)] threading a state through a body that may fail *)
Fixpoint foldM {A S} (body : S -> A -> result S) (l : list A) (s : S) : result S :=
  match l with
  | [] => Ok s
  | a :: l' =>
      match body s a with
      | Ok s' => foldM body l' s'
      | Fault => Fault
      | Timeout => Timeout
      end
  end.

(** ** Eigen vectors *)

Record Vec2 := mkVec2 { v2x : spec_float; v2y : spec_float }.
Record Vec3 := mkVec3 { v3x : spec_float; v3y : spec_float; v3z : spec_float }.
Record Vec2i := mkVec2i { ix : Z; iy : Z }.
Record Vec3i := mkVec3i { jx : Z; jy : Z; jz : Z }.
Abbreviation Vec2f := Vec2 (only parsing).
Abbreviation Vec3f := Vec3 (only parsing).
Abbreviation Vec3d := Vec3 (only parsing).

Definition map2_2 (f : spec_float -> spec_float -> spec_float) (a b : Vec2) : Vec2 :=
  mkVec2 (f (v2x a) (v2x b)) (f (v2y a) (v2y b)).
Definition map2_3 (f : spec_float -> spec_float -> spec_float) (a b : Vec3) : Vec3 :=
  mkVec3 (f (v3x a) (v3x b)) (f (v3y a) (v3y b)) (f (v3z a) (v3z b)).
Definition map_2 (f : spec_float -> spec_float) (a : Vec2) : Vec2 :=
  mkVec2 (f (v2x a)) (f (v2y a)).
Definition map_3 (f : spec_float -> spec_float) (a : Vec3) : Vec3 :=
  mkVec3 (f (v3x a)) (f (v3y a)) (f (v3z a)).

Module V2f.
Definition Zero : Vec2 := mkVec2 F32.zero F32.zero.
Definition add := map2_2 F32.add.
Definition sub := map2_2 F32.sub.
Definition cwiseProduct := map2_2 F32.mul.
Definition cwiseQuotient := map2_2 F32.div.
Definition cwiseAbs := map_2 fabs.
Definition cwiseSqrt := map_2 F32.sqrt.
Definition scale (a : Vec2) (k : float) : Vec2 := map_2 (fun c => F32.mul c k) a.
Definition scale_l (k : float) (a : Vec2) : Vec2 := map_2 (fun c => F32.mul k c) a.
Definition divs (a : Vec2) (k : float) : Vec2 := map_2 (fun c => F32.div c k) a.
Definition squaredNorm (a : Vec2) : float :=
    F32.add (F32.mul (v2x a) (v2x a)) (F32.mul (v2y a) (v2y a)).
Definition norm (a : Vec2) : float := F32.sqrt (squaredNorm a).
  (** Eigen 3.3: a vector of squared norm not above zero is returned as it is *)
Definition normalized (a : Vec2) : Vec2 :=
    let z := squaredNorm a in
    if fgt z F32.zero then divs a (F32.sqrt z) else a.
Definition minCoeff (a : Vec2) : float := fmin (v2x a) (v2y a).
Definition dot (a b : Vec2) : float :=
    F32.add (F32.mul (v2x a) (v2x b)) (F32.mul (v2y a) (v2y b)).
End V2f.

Module V3f.
Definition Zero : Vec3 := mkVec3 F32.zero F32.zero F32.zero.
Definition add := map2_3 F32.add.
Definition sub := map2_3 F32.sub.
Definition scale (a : Vec3) (k : float) : Vec3 := map_3 (fun c => F32.mul c k) a.
Definition scale_l (k : float) (a : Vec3) : Vec3 := map_3 (fun c => F32.mul k c) a.
Definition divs (a : Vec3) (k : float) : Vec3 := map_3 (fun c => F32.div c k) a.
Definition squaredNorm (a : Vec3) : float :=
    F32.add (F32.mul (v3x a) (v3x a))
            (F32.add (F32.mul (v3y a) (v3y a)) (F32.mul (v3z a) (v3z a))).
Definition norm (a : Vec3) : float := F32.sqrt (squaredNorm a).
Definition normalized (a : Vec3) : Vec3 :=
    let z := squaredNorm a in
    if fgt z F32.zero then divs a (F32.sqrt z) else a.
Definition head2 (a : Vec3) : Vec2 := mkVec2 (v3x a) (v3y a).
Definition cast_double (a : Vec3) : Vec3 := map_3 to_double a.
End V3f.

Module V3d.
Definition add := map2_3 F64.add.
Definition sub := map2_3 F64.sub.
Definition squaredNorm (a : Vec3) : double :=
    F64.add (F64.mul (v3x a) (v3x a))
            (F64.add (F64.mul (v3y a) (v3y a)) (F64.mul (v3z a) (v3z a))).
Definition norm (a : Vec3) : double := F64.sqrt (squaredNorm a).
Definition cross (a b : Vec3) : Vec3 :=
    mkVec3 (F64.sub (F64.mul (v3y a) (v3z b)) (F64.mul (v3z a) (v3y b)))
           (F64.sub (F64.mul (v3z a) (v3x b)) (F64.mul (v3x a) (v3z b)))
           (F64.sub (F64.mul (v3x a) (v3y b)) (F64.mul (v3y a) (v3x b))).
End V3d.

Definition to_3d (v : Vec2) (z : float) : Vec3 := mkVec3 (v2x v) (v2y v) z.

(** ** Collaborator types

    [ExtrusionEntity], [LayerRegion], [Layer], [PrintObject] and [Params]
    are declared outside [SupportSpotsGenerator.cpp]; each is modelled by
    what the analyzer observes through its interface. *)

Inductive ExtrusionRole :=
  | erPerimeter | erExternalPerimeter | erInternalInfill | erSolidInfill
  | erTopSolidInfill | erBridgeInfill | erGapFill | erOther.

Inductive FlowRole :=
  | frExternalPerimeter | frPerimeter | frInfill | frSolidInfill | frTopSolidInfill.

#[global] Instance ExtrusionRole_eq_dec : EqDecision ExtrusionRole.
Proof. solve_decision. Defined.

(** scaled integer coordinates *)
Record Point := mkPoint { px : Z; py : Z }.

(** An entity is known by its address; [role], [is_collection], [is_loop],
    [collect_points] and [min_mm3_per_mm] are what its virtual methods
    answer, [entities] are the members of a collection. *)
#[local] Set Warnings "-register-all".
Inductive ExtrusionEntity : Type :=
  mkEntity (addr : N) (r : ExtrusionRole) (coll loop : bool)
           (pts : list Point) (mm3 : double) (members : list ExtrusionEntity).

Definition entity_addr (e : ExtrusionEntity) : N :=
  match e with mkEntity a _ _ _ _ _ _ => a end.
Definition role (e : ExtrusionEntity) : ExtrusionRole :=
  match e with mkEntity _ r _ _ _ _ _ => r end.
Definition is_collection (e : ExtrusionEntity) : bool :=
  match e with mkEntity _ _ c _ _ _ _ => c end.
Definition is_loop (e : ExtrusionEntity) : bool :=
  match e with mkEntity _ _ _ l _ _ _ => l end.
Definition collect_points (e : ExtrusionEntity) : list Point :=
  match e with mkEntity _ _ _ _ p _ _ => p end.
Definition min_mm3_per_mm (e : ExtrusionEntity) : double :=
  match e with mkEntity _ _ _ _ _ m _ => m end.
Definition entities (e : ExtrusionEntity) : list ExtrusionEntity :=
  match e with mkEntity _ _ _ _ _ _ ms => ms end.

Record LayerRegion := mkLayerRegion {
  perimeters_entities : list ExtrusionEntity;
  fills_entities : list ExtrusionEntity;
  flow_width : FlowRole -> float
}.

Record Layer := mkLayer {
  slice_z : double;
  regions : list LayerRegion
}.

Record Vec3crd := mkVec3crd { cx : Z; cy : Z; cz : Z }.

Record PrintObject := mkPrintObject {
  layers : list Layer;
  po_size : Vec3crd;
  po_height : Z
}.

Definition layer_count (po : PrintObject) : N := N.of_nat (length (layers po)).

Record Params := mkParams {
  bridge_distance : float;
  bridge_distance_decrease_by_curvature_factor : float;
  min_distance_between_support_points : float;
  support_points_interface_radius : float;
  filament_density : float;
  gravity_constant : float;
  max_acceleration : float;
  standard_extruder_conflict_force : float;
  malformations_additive_conflict_extruder_force : float;
  bed_adhesion_yield_strength : float;
  material_yield_strength : float
}.

(** ** ExtrusionLine *)

Record ExtrusionLine := mkExtrusionLine {
  line_a : Vec2f;
  line_b : Vec2f;
  len : float;
  origin_entity : option ExtrusionEntity;   (* [None] is [nullptr] *)
  support_point_generated : bool;
  malformation : float
}.


(** [ExtrusionLine(_a, _b, origin_entity)] *)
Definition ExtrusionLine_new (a b : Vec2f) (e : ExtrusionEntity) : ExtrusionLine :=
  mkExtrusionLine a b (V2f.norm (V2f.sub a b)) (Some e) false F32.zero.

Definition is_external_perimeter (l : ExtrusionLine) : result bool :=
  match origin_entity l with
  | Some e => Ok (bool_decide (role e = erExternalPerimeter))
  | None => Fault
  end.

(** pointer equality of [origin_entity] *)
Definition same_entity (p q : option ExtrusionEntity) : bool :=
  match p, q with
  | None, None => true
  | Some e1, Some e2 => N.eqb (entity_addr e1) (entity_addr e2)
  | _, _ => false
  end.

Record SupportPoint := mkSupportPoint {
  position : Vec3f;
  force : float;
  direction : Vec3f
}.

Record Issues := mkIssues { support_points : list SupportPoint }.

(** ** LinesDistancer *)

(** Modelled from the spec: [AABBTreeLines::squared_distance_to_indexed_lines]
    is not part of the analysed file.  The spec describes it as the query
    for the nearest segment of an indexed line set, reporting no hit (a
    negative value) on an empty set.  The model scans the lines in order
    and keeps the first nearest one. *)
Definition nearest_on_segment (l : ExtrusionLine) (p : Vec2f) : Vec2f :=
  let v := V2f.sub (line_b l) (line_a l) in
  let va := V2f.sub p (line_a l) in
  let l2 := V2f.squaredNorm v in
  if feq l2 F32.zero then line_a l
  else
    let t := F32.div (V2f.dot va v) l2 in
    if flt t F32.zero then line_a l
    else if fgt t F32.one then line_b l
    else V2f.add (line_a l) (V2f.scale_l t v).

Fixpoint nearest_scan (ls : list ExtrusionLine) (p : Vec2f) (i : nat)
    (best : float * nat * Vec2f) : float * nat * Vec2f :=
  match ls with
  | [] => best
  | l :: ls' =>
      let q := nearest_on_segment l p in
      let d := V2f.squaredNorm (V2f.sub p q) in
      let best' := if flt d (fst (fst best)) then (d, i, q) else best in
      nearest_scan ls' p (S i) best'
  end.

Definition squared_distance_to_indexed_lines (lines : list ExtrusionLine) (p : Vec2f)
    : float * nat * Vec2f :=
  match lines with
  | [] => (fneg F32.one, 0%nat, V2f.Zero)
  | l :: ls =>
      let q := nearest_on_segment l p in
      nearest_scan ls p 1%nat (V2f.squaredNorm (V2f.sub p q), 0%nat, q)
  end.

(** The search tree is an index over [lines]; the distancer is its lines. *)
Record LinesDistancer := mkLinesDistancer { get_lines : list ExtrusionLine }.

(** negative sign means inside; the outcome: the distance, with
    [nearest_line_index_out] and [nearest_point_out] *)
Definition signed_distance_from_lines (d : LinesDistancer) (point : Vec2f)
    : result (float * nat * Vec2f) :=
  let '(distance, nearest_line_index_out, nearest_point_out) :=
    squared_distance_to_indexed_lines (get_lines d) point in
  if flt distance F32.zero then Ok (F32.infinity, nearest_line_index_out, nearest_point_out)
  else
    let distance := F32.sqrt distance in
    line <- vec_at (get_lines d) nearest_line_index_out ;;
    let v1 := V2f.sub (line_b line) (line_a line) in
    let v2 := V2f.sub point (line_a line) in
    let distance :=
      if fgt (F32.sub (F32.mul (v2x v1) (v2y v2)) (F32.mul (v2y v1) (v2x v2))) F32.zero
      then F32.mul distance (fneg F32.one) else distance in
    Ok (distance, nearest_line_index_out, nearest_point_out).

Definition get_line (d : LinesDistancer) (line_idx : nat) : result ExtrusionLine :=
  vec_at (get_lines d) line_idx.

Definition NULL_ISLAND : N := size_t_max.

(** ** The analyzer

    What the analysed file takes from [libslic3r.h] and [Geometry.hpp] and
    does not define itself is a parameter of the development: the scaling
    of integer coordinates [unscale], the signed angle of two vectors
    [angle] (already converted to [float]), and the constants [PI] and
    [EPSILON] (both [double]). *)

Section Analyzer.

Variable unscale : Z -> double.
Variable angle : Vec2f -> Vec2f -> float.
Variable PI : double.
Variable EPSILON : double.

Definition unscaled (p : Point) : Vec2f :=
  mkVec2 (to_float (unscale (px p))) (to_float (unscale (py p))).

(** *** PixelGrid *)

Record PixelGrid := mkPixelGrid {
  pixel_size : Vec2f;
  grid_origin : Vec2f;
  grid_size : Vec2f;
  pixel_count : Vec2i;
  pixels : list N
}.

(** [size_t(n)] of an [int] *)
Definition size_t_of_int (n : Z) : N := Z.to_N (n mod 2 ^ 64).

Definition clear (g : PixelGrid) : PixelGrid :=
  mkPixelGrid (pixel_size g) (grid_origin g) (grid_size g) (pixel_count g)
              (replicate (length (pixels g)) NULL_ISLAND).

(** [PixelGrid(po, resolution)]; [resize] to a count that does not fit
    the vector throws *)
Definition PixelGrid_new (po : PrintObject) (resolution : float) : result PixelGrid :=
  let pixel_size := mkVec2 resolution resolution in
  let size_half_x := Z.quot (cx (po_size po)) 2 + 1 in
  let size_half_y := Z.quot (cy (po_size po)) 2 + 1 in
  let min := mkVec2 (to_float (unscale (- size_half_x))) (to_float (unscale (- size_half_y))) in
  let max := mkVec2 (to_float (unscale size_half_x)) (to_float (unscale size_half_y)) in
  let size := V2f.sub max min in
  let q := V2f.cwiseQuotient size pixel_size in
  let pixel_count := mkVec2i (cast_int (v2x q) + 1) (cast_int (v2y q) + 1) in
  let n := iy pixel_count * ix pixel_count in
  if n <? 0 then Fault
  else Ok (mkPixelGrid pixel_size min size pixel_count
                       (replicate (Z.to_nat n) NULL_ISLAND)).

Definition pixel_area (g : PixelGrid) : float :=
  F32.mul (v2x (pixel_size g)) (v2y (pixel_size g)).

Definition get_pixel_count (g : PixelGrid) : Vec2i := pixel_count g.

Definition to_pixel_coords (g : PixelGrid) (position : Vec2f) : Vec2i :=
  let q := V2f.cwiseQuotient (V2f.sub position (grid_origin g)) (pixel_size g) in
  mkVec2i (cast_int (v2x q)) (cast_int (v2y q)).

(** the four assertions, then the row-major index *)
Definition to_pixel_index (g : PixelGrid) (pixel_coords : Vec2i) : result nat :=
  if (0 <=? ix pixel_coords) && (ix pixel_coords <? ix (pixel_count g))
     && (0 <=? iy pixel_coords) && (iy pixel_coords <? iy (pixel_count g))
  then Ok (Z.to_nat (iy pixel_coords * ix (pixel_count g) + ix pixel_coords))
  else Fault.

Definition get_pixel (g : PixelGrid) (coords : Vec2i) : result N :=
  i <- to_pixel_index g coords ;; vec_at (pixels g) i.

Definition get_pixel_center (g : PixelGrid) (coords : Vec2i) : Vec2f :=
  V2f.add
    (V2f.add (grid_origin g)
       (V2f.cwiseProduct (mkVec2 (F32.of_Z (ix coords)) (F32.of_Z (iy coords))) (pixel_size g)))
    (V2f.cwiseQuotient (pixel_size g) (mkVec2 (F32.of_Z 2) (F32.of_Z 2))).

(** [access_pixel(position) = value] *)
Definition set_pixel (g : PixelGrid) (position : Vec2f) (value : N) : result PixelGrid :=
  i <- to_pixel_index g (to_pixel_coords g position) ;;
  if (i <? length (pixels g))%nat
  then Ok (mkPixelGrid (pixel_size g) (grid_origin g) (grid_size g) (pixel_count g)
                       (<[i := value]> (pixels g)))
  else Fault.

(** the [while (distributed_length < length)] loop of [distribute_edge] *)
Fixpoint distribute_loop (fuel : nat) (p1 dir : Vec2f) (length step_size : float)
    (value : N) (distributed_length : float) (g : PixelGrid) : result PixelGrid :=
  if flt distributed_length length then
    match fuel with
    | O => Timeout
    | S fuel' =>
        let next_len := fmin length (F32.add distributed_length step_size) in
        let location := V2f.add p1 (V2f.scale_l (F32.div next_len length) dir) in
        g' <- set_pixel g location value ;;
        distribute_loop fuel' p1 dir length step_size value next_len g'
    end
  else Ok g.

Definition distribute_edge (fuel : nat) (g : PixelGrid) (p1 p2 : Vec2f) (value : N)
    : result PixelGrid :=
  let dir := V2f.sub p2 p1 in
  let length := V2f.norm dir in
  if flt (to_double length) (F64.lit 1 10) then Ok g
  else
    let step_size := to_float (F64.div (to_double (v2x (pixel_size g))) (F64.of_Z 2)) in
    distribute_loop fuel p1 dir length step_size value F32.zero g.

(** *** SupportGridFilter *)

Record SupportGridFilter := mkSupportGridFilter {
  cell_size : Vec3f;
  filter_origin : Vec3f;
  filter_size : Vec3f;
  cell_count : Vec3i;
  taken_cells : gset N
}.

Definition SupportGridFilter_new (po : PrintObject) (voxel_size : float) : SupportGridFilter :=
  let cell_size := mkVec3 voxel_size voxel_size voxel_size in
  let size_half_x := Z.quot (cx (po_size po)) 2 + 1 in
  let size_half_y := Z.quot (cy (po_size po)) 2 + 1 in
  let min := V3f.sub (mkVec3 (to_float (unscale (- size_half_x)))
                             (to_float (unscale (- size_half_y)))
                             (to_float (unscale 0))) cell_size in
  let max := V3f.add (mkVec3 (to_float (unscale size_half_x))
                             (to_float (unscale size_half_y))
                             (to_float (unscale (po_height po)))) cell_size in
  let size := V3f.sub max min in
  let q := map2_3 F32.div size cell_size in
  mkSupportGridFilter cell_size min size
    (mkVec3i (cast_int (v3x q) + 1) (cast_int (v3y q) + 1) (cast_int (v3z q) + 1)) ∅.

Definition to_cell_coords (f : SupportGridFilter) (position : Vec3f) : Vec3i :=
  let q := map2_3 F32.div (V3f.sub position (filter_origin f)) (cell_size f) in
  mkVec3i (cast_int (v3x q)) (cast_int (v3y q)) (cast_int (v3z q)).

Definition to_cell_index (f : SupportGridFilter) (c : Vec3i) : result N :=
  if (0 <=? jx c) && (jx c <? jx (cell_count f))
     && (0 <=? jy c) && (jy c <? jy (cell_count f))
     && (0 <=? jz c) && (jz c <? jz (cell_count f))
  then Ok (size_t_of_int (jz c * jx (cell_count f) * jy (cell_count f)
                          + jy c * jx (cell_count f) + jx c))
  else Fault.

Definition take_position (f : SupportGridFilter) (position : Vec3f) : result SupportGridFilter :=
  i <- to_cell_index f (to_cell_coords f position) ;;
  Ok (mkSupportGridFilter (cell_size f) (filter_origin f) (filter_size f) (cell_count f)
                          ({[ i ]} ∪ taken_cells f)).

Definition position_taken (f : SupportGridFilter) (position : Vec3f) : result bool :=
  i <- to_cell_index f (to_cell_coords f position) ;;
  Ok (bool_decide (i ∈ taken_cells f)).

(** *** Islands *)

Record IslandConnection := mkIslandConnection {
  area : float;
  centroid_accumulator : Vec3f;
  second_moment_of_area_accumulator : Vec2f
}.

(** [IslandConnection { }] *)
Definition IslandConnection_default : IslandConnection :=
  mkIslandConnection F32.zero V3f.Zero V2f.Zero.

Definition IslandConnection_add (this other : IslandConnection) : IslandConnection :=
  mkIslandConnection
    (F32.add (area this) (area other))
    (V3f.add (centroid_accumulator this) (centroid_accumulator other))
    (V2f.add (second_moment_of_area_accumulator this)
             (second_moment_of_area_accumulator other)).

Record Island := mkIsland {
  connected_islands : gmap N IslandConnection;
  volume : float;
  volume_centroid_accumulator : Vec3f;
  sticking_area : float;
  sticking_centroid_accumulator : Vec3f;
  sticking_second_moment_of_area_accumulator : Vec2f;
  external_lines : list ExtrusionLine
}.

Definition Island_default : Island :=
  mkIsland ∅ F32.zero V3f.Zero F32.zero V3f.Zero V2f.Zero [].

Record LayerIslands := mkLayerIslands {
  islands : list Island;
  layer_z : float
}.

Definition get_flow_width (region : LayerRegion) (r : ExtrusionRole) : float :=
  match r with
  | erBridgeInfill => flow_width region frExternalPerimeter
  | erExternalPerimeter => flow_width region frExternalPerimeter
  | erGapFill => flow_width region frInfill
  | erPerimeter => flow_width region frPerimeter
  | erSolidInfill => flow_width region frSolidInfill
  | erInternalInfill => flow_width region frInfill
  | erTopSolidInfill => flow_width region frTopSolidInfill
  | erOther => flow_width region frPerimeter
  end.

(** *** ExtrusionPropertiesAccumulator *)

Record ExtrusionPropertiesAccumulator := mkAccumulator {
  distance : float;
  curvature : float;
  max_curvature : float
}.

Definition Accumulator_default : ExtrusionPropertiesAccumulator :=
  mkAccumulator F32.zero F32.zero F32.zero.

Definition add_distance (acc : ExtrusionPropertiesAccumulator) (dist : float) :=
  mkAccumulator (F32.add (distance acc) dist) (curvature acc) (max_curvature acc).

Definition add_angle (acc : ExtrusionPropertiesAccumulator) (ccw_angle : float) :=
  let curvature' := F32.add (curvature acc) ccw_angle in
  mkAccumulator (distance acc) curvature' (fmax (max_curvature acc) (fabs curvature')).

Definition reset (acc : ExtrusionPropertiesAccumulator) : ExtrusionPropertiesAccumulator :=
  mkAccumulator F32.zero F32.zero F32.zero.

(** *** Local stability: [check_extrusion_entity_stability] *)

(** the sub-segments of one vertex pair: the inner [for (i < lines_count)] *)
Definition split_pair (params : Params) (entity : ExtrusionEntity) (start next : Vec2f)
    : list ExtrusionLine :=
  let v := V2f.sub next start in
  let dist_to_next := V2f.norm v in
  let v := V2f.normalized v in
  let lines_count := cast_int (ceil32 (F32.div dist_to_next (bridge_distance params))) in
  let step_size := F32.div dist_to_next (F32.of_Z lines_count) in
  map (fun i : nat =>
         let a := V2f.add start (V2f.scale v (F32.mul (F32.of_Z (Z.of_nat i)) step_size)) in
         let b := V2f.add start (V2f.scale v (F32.mul (F32.of_Z (Z.of_nat i + 1)) step_size)) in
         ExtrusionLine_new a b entity)
      (seq 0 (Z.to_nat lines_count)).

(** the outer [for (point_idx < int(points.size() - 1))] *)
Fixpoint split_pairs (params : Params) (entity : ExtrusionEntity) (points : list Point)
    : list ExtrusionLine :=
  match points with
  | p :: (q :: _) as rest =>
      split_pair params entity (unscaled p) (unscaled q) ++ split_pairs params entity rest
  | _ => []
  end.

(** the resampled [lines] of a path, with the line at [points[0]] first *)
Definition resample (params : Params) (entity : ExtrusionEntity) : result (list ExtrusionLine) :=
  let points := collect_points entity in
  p0 <- vec_at points 0 ;;
  Ok (ExtrusionLine_new (unscaled p0) (unscaled p0) entity :: split_pairs params entity points).

Record LocalState := mkLocalState {
  st_lines : list ExtrusionLine;
  bridging_acc : ExtrusionPropertiesAccumulator;
  malformation_acc : ExtrusionPropertiesAccumulator;
  st_issues : list SupportPoint
}.

Definition set_support_point_generated (l : ExtrusionLine) : ExtrusionLine :=
  mkExtrusionLine (line_a l) (line_b l) (len l) (origin_entity l) true (malformation l).

Definition set_malformation (l : ExtrusionLine) (m : float) : ExtrusionLine :=
  mkExtrusionLine (line_a l) (line_b l) (len l) (origin_entity l)
                  (support_point_generated l) m.

(** [bridge_distance / (1.0f + (max_curvature * factor / PI))], a [double] *)
Definition bridge_threshold (params : Params) (acc : ExtrusionPropertiesAccumulator) : double :=
  F64.div (to_double (bridge_distance params))
    (F64.add (to_double F32.one)
       (F64.div (to_double (F32.mul (max_curvature acc)
                              (bridge_distance_decrease_by_curvature_factor params)))
                PI)).

(** [curr_angle] of the line at [line_idx] *)
Definition curr_angle_at (lines : list ExtrusionLine) (line_idx : nat) (current_line : ExtrusionLine)
    : float :=
  match lines !! S line_idx with
  | Some next_line =>
      angle (V2f.sub (line_b current_line) (line_a current_line))
            (V2f.sub (line_b next_line) (line_a next_line))
  | None => F32.zero
  end.

(** one turn of the [for (line_idx < lines.size())] loop *)
Definition check_line (params : Params) (layer_z flow_width : float)
    (prev_layer_lines : LinesDistancer) (st : LocalState) (line_idx : nat)
    : result LocalState :=
  current_line <- vec_at (st_lines st) line_idx ;;
  let curr_angle := curr_angle_at (st_lines st) line_idx current_line in
  let bridging := add_angle (bridging_acc st) curr_angle in
  let malform := add_angle (malformation_acc st) (fmax F32.zero curr_angle) in
  nearest <- signed_distance_from_lines prev_layer_lines (line_b current_line) ;;
  let '(dist_from_prev_layer, nearest_line_idx, nearest_point) := nearest in
  (* bridging *)
  let '(bridging, issues, current_line) :=
    if flt (fabs dist_from_prev_layer) flow_width then
      (reset bridging, st_issues st, current_line)
    else
      let bridging := add_distance bridging (len current_line) in
      if fgt (to_double (distance bridging)) (bridge_threshold params bridging) then
        (reset bridging,
         st_issues st ++ [mkSupportPoint (to_3d (line_b current_line) layer_z) F32.zero
                            (mkVec3 F32.zero F32.zero (fneg F32.one))],
         set_support_point_generated current_line)
      else (bridging, st_issues st, current_line) in
  (* malformation *)
  current_line <-
    (if flt (fabs dist_from_prev_layer) (F32.mul flow_width (F32.of_Z 2)) then
       nearest_line <- get_line prev_layer_lines nearest_line_idx ;;
       Ok (set_malformation current_line
             (to_float (F64.add (to_double (malformation current_line))
                          (F64.mul (F64.lit 9 10) (to_double (malformation nearest_line))))))
     else Ok current_line) ;;
  let '(malform, current_line) :=
    if fgt (to_double dist_from_prev_layer) (F64.mul (to_double flow_width) (F64.lit 3 10)) then
      let malform := add_distance malform (len current_line) in
      (malform,
       set_malformation current_line
         (F32.add (malformation current_line)
            (F32.mul (F32.lit 15 100)
               (F32.add (F32.lit 8 10)
                  (F32.div (F32.mul (F32.lit 2 10) (max_curvature malform))
                     (F32.add F32.one (F32.mul (F32.lit 5 10) (distance malform))))))))
    else (reset malform, current_line) in
  Ok (mkLocalState (<[line_idx := current_line]> (st_lines st)) bridging malform issues).

(** the accumulators as the loop starts *)
Definition initial_state (params : Params) (lines : list ExtrusionLine)
    (issues : list SupportPoint) : LocalState :=
  mkLocalState lines
    (add_distance Accumulator_default (F32.add (bridge_distance params) F32.one))
    Accumulator_default issues.

(** the [else] branch: a single extrusion path *)
Definition check_path (entity : ExtrusionEntity) (checked_lines_out : list ExtrusionLine)
    (layer_z : float) (layer_region : LayerRegion) (prev_layer_lines : LinesDistancer)
    (issues : Issues) (params : Params) : result (list ExtrusionLine * Issues) :=
  lines <- resample params entity ;;
  let flow_width := get_flow_width layer_region (role entity) in
  st <- foldM (check_line params layer_z flow_width prev_layer_lines)
             (seq 0 (length lines))
             (initial_state params lines (support_points issues)) ;;
  Ok (checked_lines_out ++ st_lines st, mkIssues (st_issues st)).

Fixpoint check_extrusion_entity_stability (entity : ExtrusionEntity)
    (checked_lines_out : list ExtrusionLine) (layer_z : float)
    (layer_region : LayerRegion) (prev_layer_lines : LinesDistancer)
    (issues : Issues) (params : Params) {struct entity}
    : result (list ExtrusionLine * Issues) :=
  match entity with
  | mkEntity _ _ coll _ _ _ members =>
      if coll then
        (fix each (es : list ExtrusionEntity) (acc : list ExtrusionLine * Issues)
           : result (list ExtrusionLine * Issues) :=
           match es with
           | [] => Ok acc
           | e :: es' =>
               acc' <- check_extrusion_entity_stability e (fst acc) layer_z layer_region
                          prev_layer_lines (snd acc) params ;;
               each es' acc'
           end) members (checked_lines_out, issues)
      else
        check_path entity checked_lines_out layer_z layer_region prev_layer_lines
                   issues params
  end.

(** *** Island reckoner: [reckon_islands] *)

(** [v[i] = f(v[i])] on a [std::vector] *)
Definition vec_update {A} (v : list A) (i : nat) (f : A -> A) : result (list A) :=
  match v !! i with
  | Some a => Ok (<[i := f a]> v)
  | None => Fault
  end.

Definition vec_updateN {A} (v : list A) (i : N) (f : A -> A) : result (list A) :=
  if (i <? N.of_nat (length v))%N then vec_update v (N.to_nat i) f else Fault.

(** the lines with index in [[first, second)] *)
Definition lines_range {A} (v : list A) (range : nat * nat) : list A :=
  take (snd range - fst range)%nat (drop (fst range) v).

(** grouping of the lines into extrusions, [[start, end)] index pairs *)
Definition extrusions_step (st : list (nat * nat) * option ExtrusionEntity)
    (il : nat * ExtrusionLine) : result (list (nat * nat) * option ExtrusionEntity) :=
  let '(extrusions, current_ex) := st in
  let '(lidx, line) := il in
  if same_entity (origin_entity line) current_ex then
    match last extrusions with
    | Some back =>
        Ok (<[(length extrusions - 1)%nat := (fst back, S lidx)]> extrusions, current_ex)
    | None => Fault
    end
  else Ok (extrusions ++ [(lidx, S lidx)], origin_entity line).

Definition extract_extrusions (layer_lines : list ExtrusionLine) : result (list (nat * nat)) :=
  st <- foldM extrusions_step (imap (fun i l => (i, l)) layer_lines) ([], None) ;;
  Ok (fst st).

(** whether the extrusion starts with an external perimeter line *)
Definition extrusion_is_external (layer_lines : list ExtrusionLine) (ex : nat * nat)
    : result bool :=
  l <- vec_at layer_lines (fst ex) ;; is_external_perimeter l.

(** island candidates: one per external perimeter extrusion *)
Definition seed_step (layer_lines : list ExtrusionLine)
    (st : list LinesDistancer * list (list nat)) (ie : nat * (nat * nat))
    : result (list LinesDistancer * list (list nat)) :=
  let '(e, ex) := ie in
  ext <- extrusion_is_external layer_lines ex ;;
  if ext then
    Ok (fst st ++ [mkLinesDistancer (lines_range layer_lines ex)], snd st ++ [[e]])
  else Ok st.

(** the search of an island for a non external extrusion: the index of the
    first island whose signed distance from [p] is negative *)
Fixpoint find_island (isl : list LinesDistancer) (p : Vec2f) (i : nat) : result (option nat) :=
  match isl with
  | [] => Ok None
  | d :: isl' =>
      nearest <- signed_distance_from_lines d p ;;
      let '(dist, _, _) := nearest in
      if flt dist F32.zero then Ok (Some i) else find_island isl' p (S i)
  end.

Definition assign_step (layer_lines : list ExtrusionLine) (isl : list LinesDistancer)
    (island_extrusions : list (list nat)) (ie : nat * (nat * nat))
    : result (list (list nat)) :=
  let '(e, ex) := ie in
  ext <- extrusion_is_external layer_lines ex ;;
  if ext then Ok island_extrusions
  else
    l <- vec_at layer_lines (fst ex) ;;
    found <- find_island isl (line_a l) 0 ;;
    match found with
    | Some i => vec_update island_extrusions i (fun exs => exs ++ [e])
    | None => vec_update island_extrusions 0 (fun exs => exs ++ [e])
    end.

(** merging of islands embedded within each other: the body for a pair *)
Definition merge_pair (isl : list LinesDistancer) (i : nat)
    (island_extrusions : list (list nat)) (j : nat) : result (list (list nat)) :=
  dj <- vec_at isl j ;;
  if bool_decide (get_lines dj = []) || Nat.eqb i j then Ok island_extrusions
  else
    di <- vec_at isl i ;;
    lj <- get_line dj 0 ;;
    nearest <- signed_distance_from_lines di (line_a lj) ;;
      let '(dist, _, _) := nearest in
    if flt dist F32.zero then
      exs_j <- vec_at island_extrusions j ;;
      ie <- vec_update island_extrusions i (fun exs => exs ++ exs_j) ;;
      vec_update ie j (fun _ => [])
    else Ok island_extrusions.

Definition merge_row (isl : list LinesDistancer)
    (island_extrusions : list (list nat)) (i : nat) : result (list (list nat)) :=
  di <- vec_at isl i ;;
  if bool_decide (get_lines di = []) then Ok island_extrusions
  else foldM (merge_pair isl i) (seq 0 (length isl)) island_extrusions.

Definition set_volume (isl : Island) (v : float) (c : Vec3f) : Island :=
  mkIsland (connected_islands isl) v c (sticking_area isl)
           (sticking_centroid_accumulator isl)
           (sticking_second_moment_of_area_accumulator isl) (external_lines isl).

Definition set_sticking (isl : Island) (sa : float) (c : Vec3f) (m : Vec2f) : Island :=
  mkIsland (connected_islands isl) (volume isl) (volume_centroid_accumulator isl)
           sa c m (external_lines isl).

Definition set_connected_islands (isl : Island) (m : gmap N IslandConnection) : Island :=
  mkIsland m (volume isl) (volume_centroid_accumulator isl) (sticking_area isl)
           (sticking_centroid_accumulator isl)
           (sticking_second_moment_of_area_accumulator isl) (external_lines isl).

(** the body of [for (lidx ...)]: one line added to the island under construction *)
Definition island_line_step (layer : Layer) (first_layer : bool) (flow_width : float)
    (layer_lines : list ExtrusionLine) (island_idx : N)
    (st : Island * list N) (lidx : nat) : result (Island * list N) :=
  let '(island, line_to_island_mapping) := st in
  mapping <- vec_update line_to_island_mapping lidx (fun _ => island_idx) ;;
  line <- vec_at layer_lines lidx ;;
  match origin_entity line with
  | None => Fault
  | Some entity =>
      let z := to_float (slice_z layer) in
      let line_volume := to_float (F64.mul (min_mm3_per_mm entity) (to_double (len line))) in
      let middle := V2f.divs (V2f.add (line_a line) (line_b line)) (F32.of_Z 2) in
      let island :=
        set_volume island (F32.add (volume island) line_volume)
          (V3f.add (volume_centroid_accumulator island) (V3f.scale (to_3d middle z) line_volume)) in
      let island :=
        if first_layer then
          let line_area := F32.mul (len line) flow_width in
          set_sticking island (F32.add (sticking_area island) line_area)
            (V3f.add (sticking_centroid_accumulator island)
                     (V3f.scale_l line_area (to_3d middle z)))
            (V2f.add (sticking_second_moment_of_area_accumulator island)
                     (V2f.scale_l line_area (V2f.cwiseProduct middle middle)))
        else if support_point_generated line then
          let line_area := F32.mul (len line) flow_width in
          set_sticking island (F32.add (sticking_area island) line_area)
            (V3f.add (sticking_centroid_accumulator island)
                     (V3f.scale_l line_area (to_3d (line_b line) z)))
            (V2f.add (sticking_second_moment_of_area_accumulator island)
                     (V2f.scale_l line_area (V2f.cwiseProduct (line_b line) (line_b line))))
        else island in
      Ok (island, mapping)
  end.

(** the body of [for (island_ex : island_extrusions)] *)
Definition build_island_step (layer : Layer) (first_layer : bool) (flow_width : float)
    (layer_lines : list ExtrusionLine) (extrusions : list (nat * nat))
    (st : list Island * list N) (island_ex : list nat) : result (list Island * list N) :=
  match island_ex with
  | [] => Ok st
  | ex0 :: _ =>
      range0 <- vec_at extrusions ex0 ;;
      let island :=
        mkIsland ∅ F32.zero V3f.Zero F32.zero V3f.Zero V2f.Zero
                 (lines_range layer_lines range0) in
      let island_idx := N.of_nat (length (fst st)) in
      im <- foldM (fun im extrusion_idx =>
                     range <- vec_at extrusions extrusion_idx ;;
                     foldM (island_line_step layer first_layer flow_width layer_lines island_idx)
                           (seq (fst range) (snd range - fst range)) im)
                  island_ex (island, snd st) ;;
      Ok (fst st ++ [fst im], snd im)
  end.

(** the index image of the current layer; the parallel loop is run in
    index order *)
Definition rasterize_step (fuel : nat) (layer_lines : list ExtrusionLine)
    (line_to_island_mapping : list N) (g : PixelGrid) (i : nat) : result PixelGrid :=
  island <- vec_at line_to_island_mapping i ;;
  line <- vec_at layer_lines i ;;
  distribute_edge fuel g (line_a line) (line_b line) island.

Definition rasterize (fuel : nat) (layer_lines : list ExtrusionLine)
    (line_to_island_mapping : list N) (g : PixelGrid) : result PixelGrid :=
  foldM (rasterize_step fuel layer_lines line_to_island_mapping)
        (seq 0 (length layer_lines)) g.

(** the cells in the order of the two nested loops, [x] outside *)
Definition grid_cells (g : PixelGrid) : list Vec2i :=
  flat_map (fun x : nat =>
              map (fun y : nat => mkVec2i (Z.of_nat x) (Z.of_nat y))
                  (seq 0 (N.to_nat (size_t_of_int (iy (get_pixel_count g))))))
           (seq 0 (N.to_nat (size_t_of_int (ix (get_pixel_count g))))).

(** what one overlapping cell adds to a connection *)
Definition add_pixel (g : PixelGrid) (z : float) (coords : Vec2i)
    (connection : IslandConnection) : IslandConnection :=
  let current_coords := get_pixel_center g coords in
  mkIslandConnection
    (F32.add (area connection) (pixel_area g))
    (V3f.add (centroid_accumulator connection)
             (V3f.scale (to_3d current_coords z) (pixel_area g)))
    (V2f.add (second_moment_of_area_accumulator connection)
             (V2f.scale (V2f.cwiseProduct current_coords current_coords) (pixel_area g))).

(** [m[k]] on an [unordered_map]: a missing key is first inserted with a
    value-initialised connection *)
Definition connection_ref (m : gmap N IslandConnection) (k : N) : IslandConnection :=
  default IslandConnection_default (m !! k).

Definition overlap_cell (current_layer_grid prev_layer_grid : PixelGrid) (z : float)
    (isls : list Island) (coords : Vec2i) : result (list Island) :=
  cur <- get_pixel current_layer_grid coords ;;
  if N.eqb cur NULL_ISLAND then Ok isls
  else
    prev <- get_pixel prev_layer_grid coords ;;
    if N.eqb prev NULL_ISLAND then Ok isls
    else
      vec_updateN isls cur (fun isl =>
        set_connected_islands isl
          (<[prev := add_pixel current_layer_grid z coords
                       (connection_ref (connected_islands isl) prev)]>
             (connected_islands isl))).

(** the first part of [reckon_islands]: the lines are filtered into
    islands, which gives the islands without their connections and the
    [line_to_island_mapping] *)
Definition build_islands (layer : Layer) (first_layer : bool)
    (layer_lines : list ExtrusionLine) : result (list Island * list N) :=
  extrusions <- extract_extrusions layer_lines ;;
  let indexed := imap (fun e ex => (e, ex)) extrusions in
  seeds <- foldM (seed_step layer_lines) indexed ([], []) ;;
  let seeds :=
    match fst seeds, extrusions with
    | [], ex0 :: _ => ([mkLinesDistancer (lines_range layer_lines ex0)], [[0%nat]])
    | _, _ => seeds
    end in
  let isl := fst seeds in
  island_extrusions <- foldM (assign_step layer_lines isl) indexed (snd seeds) ;;
  island_extrusions <- foldM (merge_row isl) (seq 0 (length isl)) island_extrusions ;;
  region0 <- vec_at (regions layer) 0 ;;
  let flow_width := get_flow_width region0 erExternalPerimeter in
  foldM (build_island_step layer first_layer flow_width layer_lines extrusions)
        island_extrusions
        ([], replicate (length layer_lines) NULL_ISLAND).

(** the second part: the connections to the previous layer by rasterization *)
Definition reckon_islands (fuel : nat) (layer : Layer) (first_layer : bool)
    (prev_layer_islands_count : N) (prev_layer_grid : PixelGrid)
    (layer_lines : list ExtrusionLine) (params : Params)
    : result (LayerIslands * PixelGrid) :=
  built <- build_islands layer first_layer layer_lines ;;
  let z := to_float (slice_z layer) in
  let line_to_island_mapping := snd built in
  current_layer_grid <- rasterize fuel layer_lines line_to_island_mapping
                                  (clear prev_layer_grid) ;;
  isls <- foldM (overlap_cell current_layer_grid prev_layer_grid z)
                (grid_cells current_layer_grid) (fst built) ;;
  Ok (mkLayerIslands isls z, current_layer_grid).

(** *** ObjectPart *)

Record ObjectPart := mkObjectPart {
  part_volume : float;
  part_volume_centroid_accumulator : Vec3f;
  part_sticking_area : float;
  part_sticking_centroid_accumulator : Vec3f;
  part_sticking_second_moment_of_area_accumulator : Vec2f
}.

(** [ObjectPart(const Island &island)] *)
Definition ObjectPart_of_island (island : Island) : ObjectPart :=
  mkObjectPart (volume island) (volume_centroid_accumulator island)
               (sticking_area island) (sticking_centroid_accumulator island)
               (sticking_second_moment_of_area_accumulator island).

Definition ObjectPart_add (this other : ObjectPart) : ObjectPart :=
  mkObjectPart
    (F32.add (part_volume this) (part_volume other))
    (V3f.add (part_volume_centroid_accumulator this) (part_volume_centroid_accumulator other))
    (F32.add (part_sticking_area this) (part_sticking_area other))
    (V3f.add (part_sticking_centroid_accumulator this)
             (part_sticking_centroid_accumulator other))
    (V2f.add (part_sticking_second_moment_of_area_accumulator this)
             (part_sticking_second_moment_of_area_accumulator other)).

Definition add_support_point (this : ObjectPart) (position : Vec3f) (sticking_area : float)
    : ObjectPart :=
  mkObjectPart
    (part_volume this) (part_volume_centroid_accumulator this)
    (F32.add (part_sticking_area this) sticking_area)
    (V3f.add (part_sticking_centroid_accumulator this) (V3f.scale_l sticking_area position))
    (V2f.add (part_sticking_second_moment_of_area_accumulator this)
             (V2f.scale_l sticking_area
                (V2f.cwiseProduct (V3f.head2 position) (V3f.head2 position)))).

(** Modelled from the spec: [line_alg::distance_to] is not part of the
    analysed file.  The spec uses it as the distance of a point from the
    line through the end point in the push direction; a line of two equal
    points is that point. *)
Definition distance_to (la lb : Vec3d) (point : Vec3d) : double :=
  let v := V3d.sub lb la in
  let va := V3d.sub point la in
  let l2 := V3d.squaredNorm v in
  if feq l2 F64.zero then V3d.norm va
  else F64.div (V3d.norm (V3d.cross va v)) (F64.sqrt l2).

(** the lambda [compute_elastic_section_modulus], which captures [line_dir] *)
Definition compute_elastic_section_modulus (line_dir : Vec2f)
    (centroid_accumulator : Vec3f) (second_moment_of_area_accumulator : Vec2f)
    (area : float) : float :=
  let centroid := V3f.divs centroid_accumulator area in
  let variance :=
    V2f.sub (V2f.divs second_moment_of_area_accumulator area)
            (V2f.cwiseProduct (V3f.head2 centroid) (V3f.head2 centroid)) in
  let variance := V2f.cwiseProduct variance (V2f.cwiseAbs line_dir) in
  let extreme_fiber_dist := V2f.norm (V2f.cwiseSqrt variance) in
  if flt (to_double extreme_fiber_dist) EPSILON then F32.zero
  else F32.div (F32.mul area (F32.add (v2x variance) (v2y variance))) extreme_fiber_dist.

Section Stability.
Variable this : ObjectPart.
Variable connection : IslandConnection.
Variable extruded_line : ExtrusionLine.
Variable layer_z : float.
Variable params : Params.

Definition line_dir : Vec2f :=
    V2f.normalized (V2f.sub (line_b extruded_line) (line_a extruded_line)).
Definition mass_centroid : Vec3f :=
    V3f.divs (part_volume_centroid_accumulator this) (part_volume this).
Definition mass : float := F32.mul (part_volume this) (filament_density params).
Definition weight : float := F32.mul mass (gravity_constant params).
Definition movement_force : float := F32.mul (max_acceleration params) mass.
Definition extruder_pressure_direction : Vec3f :=
    V3f.normalized
      (mkVec3 (v2x line_dir) (v2y line_dir)
              (F32.mul (fneg (malformation extruded_line)) (F32.lit 5 10))).
Definition endpoint : Vec3d := V3f.cast_double (to_3d (line_b extruded_line) layer_z).
Definition extruder_conflict_force : float :=
    F32.add (standard_extruder_conflict_force params)
            (F32.mul (fmin (malformation extruded_line) F32.one)
                     (malformations_additive_conflict_extruder_force params)).

  (** the arm of the extruder conflict torque about a centroid *)
Definition conflict_torque_arm (centroid : Vec3f) : float :=
    to_float (distance_to endpoint
                (V3d.add endpoint (V3f.cast_double extruder_pressure_direction))
                (V3f.cast_double centroid)).

  (* section for bed calculations *)
Definition bed_centroid : Vec3f :=
    V3f.divs (part_sticking_centroid_accumulator this) (part_sticking_area this).
Definition bed_yield_torque : float :=
    F32.mul (compute_elastic_section_modulus line_dir
               (part_sticking_centroid_accumulator this)
               (part_sticking_second_moment_of_area_accumulator this)
               (part_sticking_area this))
            (bed_adhesion_yield_strength params).
Definition bed_weight_arm : float :=
    V2f.norm (V2f.sub (V3f.head2 bed_centroid) (V3f.head2 mass_centroid)).
Definition bed_weight_torque : float := F32.mul bed_weight_arm weight.
Definition bed_movement_arm : float :=
    fmax F32.zero (F32.sub (v3z mass_centroid) (v3z bed_centroid)).
Definition bed_movement_torque : float := F32.mul movement_force bed_movement_arm.
Definition bed_conflict_torque_arm : float := conflict_torque_arm bed_centroid.
Definition bed_extruder_conflict_torque : float :=
    F32.mul extruder_conflict_force bed_conflict_torque_arm.
Definition bed_total_torque : float :=
    F32.sub (F32.add (F32.add bed_movement_torque bed_extruder_conflict_torque)
                     bed_weight_torque)
            bed_yield_torque.

  (* section for weak connection calculations *)
Definition conn_centroid : Vec3f :=
    V3f.divs (centroid_accumulator connection) (area connection).
Definition conn_yield_torque : float :=
    F32.mul (compute_elastic_section_modulus line_dir
               (centroid_accumulator connection)
               (second_moment_of_area_accumulator connection)
               (area connection))
            (material_yield_strength params).
Definition conn_weight_arm : float :=
    V2f.norm (V2f.sub (V3f.head2 conn_centroid) (V3f.head2 mass_centroid)).
Definition conn_weight_torque : float :=
    F32.mul (F32.mul conn_weight_arm weight) (F32.div (v3z conn_centroid) layer_z).
Definition conn_movement_arm : float :=
    fmax F32.zero (F32.sub (v3z mass_centroid) (v3z conn_centroid)).
Definition conn_movement_torque : float := F32.mul movement_force conn_movement_arm.
Definition conn_conflict_torque_arm : float := conflict_torque_arm conn_centroid.
Definition conn_extruder_conflict_torque : float :=
    F32.mul extruder_conflict_force conn_conflict_torque_arm.
Definition conn_total_torque : float :=
    F32.sub (F32.add (F32.add conn_movement_torque conn_extruder_conflict_torque)
                     conn_weight_torque)
            conn_yield_torque.

Definition is_stable_while_extruding : float :=
    if flt (to_double (part_sticking_area this)) EPSILON then F32.one
    else if fgt bed_total_torque F32.zero then
      F32.div bed_total_torque bed_conflict_torque_arm
    else if flt (to_double (area connection)) EPSILON then F32.one
    else F32.div conn_total_torque conn_conflict_torque_arm.
End Stability.

(** *** ActiveObjectParts *)

Record ActiveObjectParts := mkActiveObjectParts {
  next_part_idx : N;
  active_object_parts : gmap N ObjectPart;
  active_object_parts_id_mapping : gmap N N
}.

(** [ActiveObjectParts { }] *)
Definition ActiveObjectParts_default : ActiveObjectParts :=
  mkActiveObjectParts 0%N ∅ ∅.

(** [m.emplace(k, v)]: nothing happens when the key is present *)
Definition emplace {A} (m : gmap N A) (k : N) (v : A) : gmap N A :=
  match m !! k with
  | Some _ => m
  | None => <[k := v]> m
  end.

(** first loop of [get_flat_id]: [while (index != mapping.at(index))] *)
Fixpoint find_root (fuel : nat) (mapping : gmap N N) (index : N) : result N :=
  parent <- map_at mapping index ;;
  if N.eqb index parent then Ok index
  else
    match fuel with
    | O => Timeout
    | S fuel' => find_root fuel' mapping parent
    end.

(** second loop of [get_flat_id]: the path from [i] is pointed at [index] *)
Fixpoint compress (fuel : nat) (mapping : gmap N N) (index i : N) : result (gmap N N) :=
  parent <- map_at mapping i ;;
  if N.eqb index parent then Ok mapping
  else
    match fuel with
    | O => Timeout
    | S fuel' => compress fuel' (<[i := index]> mapping) index parent
    end.

Definition get_flat_id (fuel : nat) (this : ActiveObjectParts) (id : N)
    : result (N * ActiveObjectParts) :=
  index <- map_at (active_object_parts_id_mapping this) id ;;
  index <- find_root fuel (active_object_parts_id_mapping this) index ;;
  mapping <- compress fuel (active_object_parts_id_mapping this) index id ;;
  Ok (index, mkActiveObjectParts (next_part_idx this) (active_object_parts this) mapping).

Definition access (fuel : nat) (this : ActiveObjectParts) (id : N)
    : result (ObjectPart * ActiveObjectParts) :=
  r <- get_flat_id fuel this id ;;
  part <- map_at (active_object_parts (snd r)) (fst r) ;;
  Ok (part, snd r).

Definition insert_part (this : ActiveObjectParts) (island : Island) : N * ActiveObjectParts :=
  (next_part_idx this,
   mkActiveObjectParts
     (next_part_idx this + 1)%N
     (emplace (active_object_parts this) (next_part_idx this) (ObjectPart_of_island island))
     (emplace (active_object_parts_id_mapping this) (next_part_idx this) (next_part_idx this))).

Definition merge (fuel : nat) (this : ActiveObjectParts) (from to : N)
    : result ActiveObjectParts :=
  r <- get_flat_id fuel this to ;;
  let to_flat := fst r in
  r <- get_flat_id fuel (snd r) from ;;
  let from_flat := fst r in
  let this := snd r in
  part_to <- map_at (active_object_parts this) to_flat ;;
  part_from <- map_at (active_object_parts this) from_flat ;;
  let parts := <[to_flat := ObjectPart_add part_to part_from]> (active_object_parts this) in
  let parts := delete from_flat parts in
  Ok (mkActiveObjectParts (next_part_idx this) parts
        (<[from := to_flat]> (active_object_parts_id_mapping this))).

(** *** Global stability: [check_global_stability] *)

(** the lambda [estimate_strength], which captures [layer_z] *)
Definition estimate_strength (layer_z : float) (conn : IslandConnection) : float :=
  let centroid := V3f.divs (centroid_accumulator conn) (area conn) in
  let min_variance :=
    V2f.minCoeff
      (V2f.sub (V2f.divs (second_moment_of_area_accumulator conn) (area conn))
               (V2f.cwiseProduct (V3f.head2 centroid) (V3f.head2 centroid))) in
  let arm_len_estimate :=
    fmax (F32.lit 11 10)
         (F32.sub layer_z (F32.div (v3z (centroid_accumulator conn)) (area conn))) in
  F32.div min_variance arm_len_estimate.

(** the part tracker with the maps being filled for the layer *)
Record PartsState := mkPartsState {
  ps_parts : ActiveObjectParts;
  next_island_to_object_part_mapping : gmap N N;
  next_island_weakest_connection : gmap N IslandConnection
}.

(** the first loop over [island.connected_islands], in the order in which
    the map is enumerated (unspecified for an [unordered_map]) *)
Definition collect_step (fuel : nat) (prev_island_to_object_part_mapping : gmap N N)
    (prev_island_weakest_connection : gmap N IslandConnection)
    (st : ActiveObjectParts * gset N * IslandConnection * IslandConnection)
    (connection : N * IslandConnection)
    : result (ActiveObjectParts * gset N * IslandConnection * IslandConnection) :=
  let '(parts, parts_ids, transfered_weakest_connection, new_weakest_connection) := st in
  pid <- map_at prev_island_to_object_part_mapping (fst connection) ;;
  r <- get_flat_id fuel parts pid ;;
  prev_weakest <- map_at prev_island_weakest_connection (fst connection) ;;
  Ok (snd r, {[ fst r ]} ∪ parts_ids,
      IslandConnection_add transfered_weakest_connection prev_weakest,
      IslandConnection_add new_weakest_connection (snd connection)).

(** the body of the first [for (island_idx ...)] loop of a layer *)
Definition assign_part (fuel : nat) (layer_z : float)
    (prev_island_to_object_part_mapping : gmap N N)
    (prev_island_weakest_connection : gmap N IslandConnection)
    (st : PartsState) (ii : nat * Island) : result PartsState :=
  let island_idx := N.of_nat (fst ii) in
  let island := snd ii in
  if bool_decide (connected_islands island = ∅) then
    (* new object part emerging *)
    let '(part_id, parts) := insert_part (ps_parts st) island in
    Ok (mkPartsState parts
          (emplace (next_island_to_object_part_mapping st) island_idx part_id)
          (emplace (next_island_weakest_connection st) island_idx
             (mkIslandConnection F32.one V3f.Zero (mkVec2 F32.infinity F32.infinity))))
  else
    c <- foldM (collect_step fuel prev_island_to_object_part_mapping
                             prev_island_weakest_connection)
               (map_to_list (connected_islands island))
               (ps_parts st, ∅, IslandConnection_default, IslandConnection_default) ;;
    let '(parts, parts_ids, transfered_weakest_connection, new_weakest_connection) := c in
    final_part_id <- vec_at (elements parts_ids) 0 ;;
    parts <- foldM (fun parts part_id =>
                      if N.eqb final_part_id part_id then Ok parts
                      else merge fuel parts part_id final_part_id)
                   (elements parts_ids) parts ;;
    let new_weakest_connection :=
      if flt (estimate_strength layer_z transfered_weakest_connection)
             (estimate_strength layer_z new_weakest_connection)
      then transfered_weakest_connection else new_weakest_connection in
    r <- get_flat_id fuel parts final_part_id ;;
    part <- map_at (active_object_parts (snd r)) (fst r) ;;
    let parts := snd r in
    Ok (mkPartsState
          (mkActiveObjectParts (next_part_idx parts)
             (<[fst r := ObjectPart_add part (ObjectPart_of_island island)]>
                (active_object_parts parts))
             (active_object_parts_id_mapping parts))
          (emplace (next_island_to_object_part_mapping st) island_idx final_part_id)
          (emplace (next_island_weakest_connection st) island_idx new_weakest_connection)).

(** what the loop over [island.external_lines] reads and writes;
    [stability_calls] is ghost: the lines handed to
    [is_stable_while_extruding], in the order of the calls *)
Record LineState := mkLineState {
  unchecked_dist : float;
  ls_part : ObjectPart;
  weakest_conn : IslandConnection;
  island_lines_dist : LinesDistancer;
  ls_issues : list SupportPoint;
  supports_presence_grid : SupportGridFilter;
  stability_calls : list ExtrusionLine
}.

(** the branch taken when the stability test asks for a support *)
Definition place_support (island : Island) (layer_z : float) (params : Params)
    (st : LineState) (line : ExtrusionLine) (force : float) : result LineState :=
  let island_lines_dist :=
    if bool_decide (get_lines (island_lines_dist st) = [])
    then mkLinesDistancer (external_lines island) else island_lines_dist st in
  let line_vec := V2f.normalized (V2f.sub (line_b line) (line_a line)) in
  let pivot_site_search_point :=
    to_3d (V2f.add (line_b line) (V2f.scale line_vec (F32.of_Z 300))) layer_z in
  nearest <- signed_distance_from_lines island_lines_dist (V3f.head2 pivot_site_search_point) ;;
  let '(_, _, target_point) := nearest in
  let support_point := to_3d target_point layer_z in
  taken <- position_taken (supports_presence_grid st) support_point ;;
  if taken then
    Ok (mkLineState (unchecked_dist st) (ls_part st) (weakest_conn st) island_lines_dist
                    (ls_issues st) (supports_presence_grid st) (stability_calls st))
  else
    let support_area :=
      F32.mul (F32.mul (support_points_interface_radius params)
                       (support_points_interface_radius params)) (to_float PI) in
    grid <- take_position (supports_presence_grid st) support_point ;;
    Ok (mkLineState (unchecked_dist st)
          (add_support_point (ls_part st) support_point support_area)
          (mkIslandConnection
             (F32.add (area (weakest_conn st)) support_area)
             (V3f.add (centroid_accumulator (weakest_conn st))
                      (V3f.scale support_point support_area))
             (V2f.add (second_moment_of_area_accumulator (weakest_conn st))
                      (V2f.scale_l support_area
                         (V2f.cwiseProduct (V3f.head2 support_point)
                                           (V3f.head2 support_point)))))
          island_lines_dist
          (ls_issues st ++ [mkSupportPoint support_point force (to_3d line_vec F32.zero)])
          grid (stability_calls st)).

(** the body of [for (const ExtrusionLine &line : island.external_lines)] *)
Definition check_external_line (island : Island) (layer_z : float) (params : Params)
    (st : LineState) (line : ExtrusionLine) : result LineState :=
  if (flt (F32.add (unchecked_dist st) (len line))
          (min_distance_between_support_points params)
      && flt (malformation line) (F32.lit 3 10))
     || feq (len line) F32.zero
  then
    Ok (mkLineState (F32.add (unchecked_dist st) (len line)) (ls_part st) (weakest_conn st)
                    (island_lines_dist st) (ls_issues st) (supports_presence_grid st)
                    (stability_calls st))
  else
    let force := is_stable_while_extruding (ls_part st) (weakest_conn st) line layer_z params in
    let st := mkLineState (len line) (ls_part st) (weakest_conn st) (island_lines_dist st)
                          (ls_issues st) (supports_presence_grid st)
                          (stability_calls st ++ [line]) in
    if fgt force F32.zero then place_support island layer_z params st line force
    else Ok st.

(** the state of the second [for (island_idx ...)] loop of a layer *)
Record CheckState := mkCheckState {
  cs_issues : list SupportPoint;
  cs_parts : ActiveObjectParts;
  prev_island_to_object_part_mapping : gmap N N;
  prev_island_weakest_connection : gmap N IslandConnection;
  cs_grid : SupportGridFilter;
  cs_calls : list ExtrusionLine
}.

Definition check_island (fuel : nat) (layer_z : float) (params : Params)
    (st : CheckState) (ii : nat * Island) : result CheckState :=
  let island_idx := N.of_nat (fst ii) in
  let island := snd ii in
  (* [operator[]] on both maps: a missing key is inserted first *)
  let prev_map := emplace (prev_island_to_object_part_mapping st) island_idx 0%N in
  pid <- map_at prev_map island_idx ;;
  r <- get_flat_id fuel (cs_parts st) pid ;;
  part <- map_at (active_object_parts (snd r)) (fst r) ;;
  let parts := snd r in
  let weakest := connection_ref (prev_island_weakest_connection st) island_idx in
  ls <- foldM (check_external_line island layer_z params) (external_lines island)
              (mkLineState
                 (F32.add (min_distance_between_support_points params) F32.one)
                 part weakest (mkLinesDistancer [])
                 (cs_issues st) (cs_grid st) (cs_calls st)) ;;
  Ok (mkCheckState (ls_issues ls)
        (mkActiveObjectParts (next_part_idx parts)
           (<[fst r := ls_part ls]> (active_object_parts parts))
           (active_object_parts_id_mapping parts))
        prev_map
        (<[island_idx := weakest_conn ls]> (prev_island_weakest_connection st))
        (supports_presence_grid ls) (stability_calls ls)).

(** one layer of the graph *)
Definition check_layer (fuel : nat) (params : Params) (st : CheckState)
    (layer : LayerIslands) : result CheckState :=
  let indexed := imap (fun i isl => (i, isl)) (islands layer) in
  ps <- foldM (assign_part fuel (layer_z layer)
                 (prev_island_to_object_part_mapping st)
                 (prev_island_weakest_connection st))
              indexed (mkPartsState (cs_parts st) ∅ ∅) ;;
  foldM (check_island fuel (layer_z layer) params) indexed
        (mkCheckState (cs_issues st) (ps_parts ps)
           (next_island_to_object_part_mapping ps)
           (next_island_weakest_connection ps)
           (cs_grid st) (cs_calls st)).

(** the run of the global pass, with the ghost list of stability calls *)
Definition check_global_stability_run (fuel : nat) (supports_presence_grid : SupportGridFilter)
    (islands_graph : list LayerIslands) (params : Params) : result CheckState :=
  foldM (check_layer fuel params) islands_graph
        (mkCheckState [] ActiveObjectParts_default ∅ ∅ supports_presence_grid []).

Definition check_global_stability (fuel : nat) (supports_presence_grid : SupportGridFilter)
    (islands_graph : list LayerIslands) (params : Params) : result Issues :=
  st <- check_global_stability_run fuel supports_presence_grid islands_graph params ;;
  Ok (mkIssues (cs_issues st)).

(** *** Orchestration: [check_extrusions_and_build_graph], [full_search] *)

(** [for (point_idx < int(points.size() - 1))]: one line per vertex pair *)
Fixpoint raw_lines (entity : ExtrusionEntity) (points : list Point) : list ExtrusionLine :=
  match points with
  | p :: (q :: _) as rest =>
      ExtrusionLine_new (unscaled p) (unscaled q) entity :: raw_lines entity rest
  | _ => []
  end.

(** a perimeter of the base layer: its lines, closed when it is a loop *)
Definition base_perimeter_lines (perimeter : ExtrusionEntity) : result (list ExtrusionLine) :=
  let points := collect_points perimeter in
  if is_loop perimeter then
    start <- vec_atN points ((N.of_nat (length points) + size_t_max) mod 2 ^ 64)%N ;;
    next <- vec_at points 0 ;;
    Ok (raw_lines perimeter points
        ++ [ExtrusionLine_new (unscaled start) (unscaled next) perimeter])
  else Ok (raw_lines perimeter points).

Definition base_region_lines (layer_lines : list ExtrusionLine) (layer_region : LayerRegion)
    : result (list ExtrusionLine) :=
  layer_lines <-
    foldM (fun ll ex_entity =>
             foldM (fun ll perimeter =>
                      ls <- base_perimeter_lines perimeter ;; Ok (ll ++ ls))
                   (entities ex_entity) ll)
          (perimeters_entities layer_region) layer_lines ;;
  foldM (fun ll ex_entity =>
           foldM (fun ll fill => Ok (ll ++ raw_lines fill (collect_points fill)))
                 (entities ex_entity) ll)
        (fills_entities layer_region) layer_lines.

(** the lines of a layer above the base, with the local issues found *)
Definition region_lines (layer : Layer) (prev_layer_lines : LinesDistancer) (params : Params)
    (st : list ExtrusionLine * Issues) (layer_region : LayerRegion)
    : result (list ExtrusionLine * Issues) :=
  st <-
    foldM (fun st ex_entity =>
             foldM (fun st perimeter =>
                      check_extrusion_entity_stability perimeter (fst st)
                        (to_float (slice_z layer)) layer_region prev_layer_lines
                        (snd st) params)
                   (entities ex_entity) st)
          (perimeters_entities layer_region) st ;;
  foldM (fun st ex_entity =>
           foldM (fun st fill =>
                    if bool_decide (role fill = erGapFill)
                       || bool_decide (role fill = erBridgeInfill)
                    then
                      check_extrusion_entity_stability fill (fst st)
                        (to_float (slice_z layer)) layer_region prev_layer_lines
                        (snd st) params
                    else Ok (fst st ++ raw_lines fill (collect_points fill), snd st))
                 (entities ex_entity) st)
        (fills_entities layer_region) st.

(** what the loop over the layers above the base carries *)
Record BuildState := mkBuildState {
  bs_issues : Issues;
  islands_graph : list LayerIslands;
  bs_external_lines : LinesDistancer;
  bs_prev_layer_grid : PixelGrid
}.

Definition build_layer (fuel : nat) (params : Params) (st : BuildState) (layer : Layer)
    : result BuildState :=
  li <- foldM (region_lines layer (bs_external_lines st) params) (regions layer)
              ([], bs_issues st) ;;
  r <- reckon_islands fuel layer false 0 (bs_prev_layer_grid st) (fst li) params ;;
  Ok (mkBuildState (snd li) (islands_graph st ++ [fst r])
                   (mkLinesDistancer (fst li)) (snd r)).

Definition check_extrusions_and_build_graph (fuel : nat) (po : PrintObject) (params : Params)
    : result (Issues * list LayerIslands) :=
  last_layer <- vec_atN (layers po) ((layer_count po + size_t_max) mod 2 ^ 64)%N ;;
  region0 <- vec_at (regions last_layer) 0 ;;
  let flow_width := get_flow_width region0 erExternalPerimeter in
  prev_layer_grid <- PixelGrid_new po flow_width ;;
  (* PREPARE BASE LAYER *)
  layer <- vec_at (layers po) 0 ;;
  layer_lines <- foldM base_region_lines (regions layer) [] ;;
  r <- reckon_islands fuel layer true 0 prev_layer_grid layer_lines params ;;
  st <- foldM (build_layer fuel params) (drop 1 (layers po))
              (mkBuildState (mkIssues []) [fst r] (mkLinesDistancer layer_lines) (snd r)) ;;
  Ok (bs_issues st, islands_graph st).

Definition full_search (fuel : nat) (po : PrintObject) (params : Params) : result Issues :=
  r <- check_extrusions_and_build_graph fuel po params ;;
  let '(local_issues, graph) := r in
  global_issues <-
    check_global_stability fuel
      (SupportGridFilter_new po (min_distance_between_support_points params))
      graph params ;;
  Ok (mkIssues (support_points global_issues ++ support_points local_issues)).

End Analyzer.


(** * Definitions used by the statements *)

(** ** Concrete collaborators, used where a statement is evaluated *)

Module Sample.
  (** [unscale]: the scaling factor of the slicer is 1e-6 *)
Definition unscale (z : Z) : double := F64.mul (F64.of_Z z) (F64.lit 1 1000000).
  (** the angle of two vectors of the same direction, and of a zero vector
      with any vector, is zero; the samples use straight paths only *)
Definition angle (v1 v2 : Vec2f) : float := F32.zero.
  (** the [double] nearest to pi *)
Definition PI : double := S754_finite false 7074237752028440 (-51).
Definition EPSILON : double := F64.lit 1 10000.

Definition params : Params :=
    mkParams (F32.of_Z 2) (F32.of_Z 5) (F32.of_Z 1) (F32.lit 6 10)
             (F32.lit 125 100000) (F32.lit 981 100) (F32.of_Z 1000) (F32.of_Z 10)
             (F32.of_Z 5) (F32.lit 18 1000) (F32.lit 8 1000).
End Sample.

(** the sign bit is clear, or the value is a NaN *)
Definition sign_clear (x : spec_float) : Prop :=
  match x with
  | S754_nan => True
  | S754_zero s | S754_infinity s | S754_finite s _ _ => s = false
  end.

Module StabilitySample.
  (** a plate of 10 mm by 10 mm, one layer high, centred on the origin *)
Definition plate : ObjectPart :=
    mkObjectPart (F32.of_Z 20) (mkVec3 F32.zero F32.zero (F32.of_Z 2))
                 (F32.of_Z 100) (mkVec3 F32.zero F32.zero (F32.of_Z 20))
                 (mkVec2 (F32.of_Z 833) (F32.of_Z 833)).
  (** a connection as wide as the plate, at z = 0.2 *)
Definition wide_connection : IslandConnection :=
    mkIslandConnection (F32.of_Z 100) (mkVec3 F32.zero F32.zero (F32.of_Z 20))
                       (mkVec2 (F32.of_Z 833) (F32.of_Z 833)).
Definition no_connection : IslandConnection := IslandConnection_default.
Definition hanging : ObjectPart :=
    mkObjectPart (F32.of_Z 20) (mkVec3 F32.zero F32.zero (F32.of_Z 2))
                 F32.zero V3f.Zero V2f.Zero.
  (** the line from (-1, 0) to (0, 0), which ends above the centroids *)
Definition line : ExtrusionLine :=
    mkExtrusionLine (mkVec2 (F32.of_Z (-1)) F32.zero) (mkVec2 F32.zero F32.zero)
                    F32.one None false F32.zero.
Definition layer_z : float := F32.lit 4 10.
End StabilitySample.

(** the support point emitted below an unsupported line *)
Definition bridging_support_point (layer_z : float) (l : ExtrusionLine) : SupportPoint :=
  mkSupportPoint (to_3d (line_b l) layer_z) F32.zero
                 (mkVec3 F32.zero F32.zero (fneg F32.one)).



Module LocalSample.
(** a straight path of 5 mm, at z = 0.4, over a layer which holds only the
    line from (0, 0) to (0.5, 0) *)
Definition path : ExtrusionEntity :=
  mkEntity 1 erExternalPerimeter false false [mkPoint 0 0; mkPoint 5000000 0]
           (F64.lit 5 100) [].
Definition below : ExtrusionEntity :=
  mkEntity 2 erExternalPerimeter false false [mkPoint 0 0; mkPoint 500000 0]
           (F64.lit 5 100) [].
Definition region : LayerRegion := mkLayerRegion [] [] (fun _ => F32.lit 4 10).
Definition prev_layer_lines : LinesDistancer :=
  mkLinesDistancer (raw_lines Sample.unscale below (collect_points below)).
Definition layer_z : float := F32.lit 4 10.
End LocalSample.

Module GlobalSample.
(** two layers, each with the external perimeter from (0, 0) to (1, 0) *)
Definition path : ExtrusionEntity :=
  mkEntity 1 erExternalPerimeter false false [mkPoint 0 0; mkPoint 1000000 0]
           (F64.lit 5 100) [].
Definition perimeters : ExtrusionEntity :=
  mkEntity 2 erExternalPerimeter true false [mkPoint 0 0; mkPoint 1000000 0]
           (F64.lit 5 100) [path].
Definition region : LayerRegion := mkLayerRegion [perimeters] [] (fun _ => F32.lit 4 10).
Definition po : PrintObject :=
  mkPrintObject [mkLayer (F64.lit 2 10) [region]; mkLayer (F64.lit 4 10) [region]]
                (mkVec3crd 2000000 2000000 400000) 400000.
Definition graph : list LayerIslands :=
  match check_extrusions_and_build_graph Sample.unscale Sample.angle Sample.PI 100 po
          Sample.params with
  | Ok (_, g) => g
  | _ => []
  end.
Definition filter : SupportGridFilter :=
  SupportGridFilter_new Sample.unscale po (min_distance_between_support_points Sample.params).
End GlobalSample.

(** a finite value, zero included *)
Definition is_finite (x : spec_float) : Prop :=
  match x with
  | S754_zero _ | S754_finite _ _ _ => True
  | _ => False
  end.

(** the length of the line is not equal to zero, as [len == 0] tests it *)
Definition nonzero_length (line : ExtrusionLine) : Prop := feq (len line) F32.zero = false.

(** *** Sequences of operations on the part tracker *)

Inductive tracker_op :=
  | OpInsert (island : Island)
  | OpMerge (from to : N).

Definition run_op (fuel : nat) (this : ActiveObjectParts) (op : tracker_op)
    : result ActiveObjectParts :=
  match op with
  | OpInsert island => Ok (snd (insert_part this island))
  | OpMerge from to => merge fuel this from to
  end.

Definition run_ops (fuel : nat) (ops : list tracker_op) : result ActiveObjectParts :=
  foldM (run_op fuel) ops ActiveObjectParts_default.

(** [find(id)] without the tracker it leaves behind *)
Definition find (fuel : nat) (this : ActiveObjectParts) (id : N) : result N :=
  r <- get_flat_id fuel this id ;; Ok (fst r).

(** *** Degenerate print objects *)


(** no region of any layer has a perimeter or fill entity *)
Definition no_entities (po : PrintObject) : Prop :=
  Forall (fun layer =>
            Forall (fun region => perimeters_entities region = [] /\
                                  fills_entities region = [])
                   (regions layer))
         (layers po).



Module EmptySample.
Definition size : Vec3crd := mkVec3crd 2000000 2000000 400000.
Definition region : LayerRegion := mkLayerRegion [] [] (fun _ => F32.lit 4 10).
(** two layers, each with one region without entities *)
Definition no_entities : PrintObject :=
  mkPrintObject [mkLayer (F64.lit 2 10) [region]; mkLayer (F64.lit 4 10) [region]]
                size 400000.
End EmptySample.

(** *** Overlap of two rasters *)

(** the current grid holds [cur] and the previous grid holds [prev] in the cell *)
Definition cell_matches (current_layer_grid prev_layer_grid : PixelGrid) (cur prev : N)
    (coords : Vec2i) : bool :=
  match get_pixel current_layer_grid coords, get_pixel prev_layer_grid coords with
  | Ok a, Ok b => N.eqb a cur && N.eqb b prev
  | _, _ => false
  end.

(** the number of cells in which the two grids hold [cur] and [prev] *)
Definition overlap_count (current_layer_grid prev_layer_grid : PixelGrid) (cur prev : N) : nat :=
  length (List.filter (cell_matches current_layer_grid prev_layer_grid cur prev)
                      (grid_cells current_layer_grid)).

(** [x] added [n] times to zero, in binary32: [((0 + x) + x) + ...] *)
Definition accumulate (x : float) (n : nat) : float :=
  Nat.iter n (fun a => F32.add a x) F32.zero.

(** the area of the connection of an island to [prev], when there is one *)
Definition connection_area (isl : Island) (prev : N) : option float :=
  area <$> connected_islands isl !! prev.

(** one more pixel on a connection which may not exist yet *)
Definition bump (x : float) (o : option float) : option float :=
  Some (F32.add (default F32.zero o) x).

Module OverlapSample.
(** the external perimeter from (0, 0) to (2, 0), on two layers of an
    object of 4 mm by 4 mm, with the flow width 0.4 *)
Definition path : ExtrusionEntity :=
  mkEntity 1 erExternalPerimeter false false [mkPoint 0 0; mkPoint 2000000 0]
           (F64.lit 5 100) [].
Definition region : LayerRegion := mkLayerRegion [] [] (fun _ => F32.lit 4 10).
Definition layer0 : Layer := mkLayer (F64.lit 2 10) [region].
Definition layer1 : Layer := mkLayer (F64.lit 4 10) [region].
Definition po : PrintObject :=
  mkPrintObject [layer0; layer1] (mkVec3crd 4000000 4000000 400000) 400000.
Definition layer_lines : list ExtrusionLine :=
  raw_lines Sample.unscale path (collect_points path).
Definition empty_grid : PixelGrid :=
  mkPixelGrid V2f.Zero V2f.Zero V2f.Zero (mkVec2i 0 0) [].
(** the grid of the first layer *)
Definition first_grid : PixelGrid :=
  match PixelGrid_new Sample.unscale po (F32.lit 4 10) with
  | Ok g0 =>
      match reckon_islands 100 layer0 true 0 g0 layer_lines Sample.params with
      | Ok (_, g) => g
      | _ => empty_grid
      end
  | _ => empty_grid
  end.
(** the islands and the grid of the second layer *)
Definition second : LayerIslands * PixelGrid :=
  match reckon_islands 100 layer1 false 0 first_grid layer_lines Sample.params with
  | Ok r => r
  | _ => (mkLayerIslands [] F32.zero, empty_grid)
  end.
Definition island0 : Island := default Island_default (islands (fst second) !! 0%nat).
End OverlapSample.

Module RasterSample.
Definition empty_result : LayerIslands * PixelGrid :=
  (mkLayerIslands [] F32.zero, OverlapSample.empty_grid).

(** two external perimeters of two islands, 0.05 mm apart, in one row of
    pixels of the size 0.4: the first from (0, 0) to (0.3, 0), the second
    from (0.5, -0.05) to (0.2, -0.05) *)
Definition first_path : ExtrusionEntity :=
  mkEntity 1 erExternalPerimeter false false [mkPoint 0 0; mkPoint 300000 0]
           (F64.lit 5 100) [].
Definition second_path : ExtrusionEntity :=
  mkEntity 2 erExternalPerimeter false false
           [mkPoint 500000 (-50000); mkPoint 200000 (-50000)] (F64.lit 5 100) [].
Definition layer_lines : list ExtrusionLine :=
  raw_lines Sample.unscale first_path (collect_points first_path)
  ++ raw_lines Sample.unscale second_path (collect_points second_path).
Definition layer : Layer :=
  mkLayer (F64.lit 2 10) [mkLayerRegion [] [] (fun _ => F32.lit 4 10)].
Definition po : PrintObject :=
  mkPrintObject [layer] (mkVec3crd 2000000 2000000 400000) 400000.
Definition grid0 : PixelGrid :=
  match PixelGrid_new Sample.unscale po (F32.lit 4 10) with
  | Ok g => g
  | _ => OverlapSample.empty_grid
  end.
Definition reckoned : LayerIslands * PixelGrid :=
  match reckon_islands 100 layer true 0 grid0 layer_lines Sample.params with
  | Ok r => r
  | _ => empty_result
  end.

(** one external perimeter of 0.08 mm, with pixels of the size 0.1 *)
Definition short_path : ExtrusionEntity :=
  mkEntity 1 erExternalPerimeter false false [mkPoint 0 0; mkPoint 80000 0]
           (F64.lit 5 100) [].
Definition short_lines : list ExtrusionLine :=
  raw_lines Sample.unscale short_path (collect_points short_path).
Definition fine_layer : Layer :=
  mkLayer (F64.lit 2 10) [mkLayerRegion [] [] (fun _ => F32.lit 1 10)].
Definition fine_po : PrintObject :=
  mkPrintObject [fine_layer] (mkVec3crd 1000000 1000000 400000) 400000.
Definition fine_grid0 : PixelGrid :=
  match PixelGrid_new Sample.unscale fine_po (F32.lit 1 10) with
  | Ok g => g
  | _ => OverlapSample.empty_grid
  end.
Definition fine_reckoned : LayerIslands * PixelGrid :=
  match reckon_islands 100 fine_layer true 0 fine_grid0 short_lines Sample.params with
  | Ok r => r
  | _ => empty_result
  end.
End RasterSample.



(** *** Resampling *)

(** the pairs of consecutive elements, in order *)
Fixpoint consecutive_pairs {A} (l : list A) : list (A * A) :=
  match l with
  | p :: (q :: _) as rest => (p, q) :: consecutive_pairs rest
  | _ => []
  end.



Module ResampleSample.
(** a path from (0, -26.165870) to (5.081117, -22.974906), whose length
    in binary32 is 6.0 *)
Definition path : ExtrusionEntity :=
  mkEntity 1 erExternalPerimeter false false
           [mkPoint 0 (-26165870); mkPoint 5081117 (-22974906)] (F64.lit 5 100) [].
End ResampleSample.

(** *** Rasters *)

(** two grids have the same frame and as many pixels *)
Definition same_frame (g g' : PixelGrid) : Prop :=
  pixel_size g' = pixel_size g /\ grid_origin g' = grid_origin g /\
  grid_size g' = grid_size g /\ pixel_count g' = pixel_count g /\
  length (pixels g') = length (pixels g).

(** the pixel is empty or is the index of one of [n] islands *)
Definition valid_pixel (n : nat) (p : N) : Prop :=
  p = NULL_ISLAND \/ (p < N.of_nat n)%N.

(** *** The voxels of the support filter *)

(** the index of the cell of a position *)
Definition cell_index (f : SupportGridFilter) (position : Vec3f) : result N :=
  to_cell_index f (to_cell_coords f position).

(** the cell of a support point *)
Definition cell_of (f : SupportGridFilter) (p : SupportPoint) : result N :=
  cell_index f (position p).

(** two filters have the same frame *)
Definition same_cells (f f' : SupportGridFilter) : Prop :=
  cell_size f' = cell_size f /\ filter_origin f' = filter_origin f /\
  cell_count f' = cell_count f.

(** what the global pass keeps about the supports it has planted: they lie
    in distinct cells, which were free in the filter [g0] of the start and
    are taken in the filter of now *)
Definition planted (g0 : SupportGridFilter) (issues : list SupportPoint)
    (grid : SupportGridFilter) : Prop :=
  same_cells g0 grid /\ taken_cells g0 ⊆ taken_cells grid /\
  NoDup (map (cell_of g0) issues) /\
  Forall (fun p => exists i, cell_of g0 p = Ok i /\ (i ∉ taken_cells g0) /\
                             (i ∈ taken_cells grid)) issues.

(** *** What the local analyzer leaves of a line *)

(** the two lines have the same end points, length and entity *)
Definition same_geometry (l r : ExtrusionLine) : Prop :=
  line_a l = line_a r /\ line_b l = line_b r /\ len l = len r /\
  origin_entity l = origin_entity r.

(** a support point as the local analyzer emits it on the layer [z] *)
Definition local_support_point (z : float) (p : SupportPoint) : Prop :=
  v3z (position p) = z /\ force p = F32.zero /\
  direction p = mkVec3 F32.zero F32.zero (fneg F32.one).

(** the state of the loop of a path after [i] turns *)
Definition path_loop_invariant (lines0 : list ExtrusionLine) (issues0 : list SupportPoint)
    (z : float) (i : nat) (st : LocalState) : Prop :=
  Forall2 same_geometry (st_lines st) lines0 /\
  st_issues st = issues0 ++ map (bridging_support_point z)
                               (List.filter support_point_generated (take i (st_lines st))) /\
  Forall (fun l => support_point_generated l = false) (drop i (st_lines st)).


(** *** The ids of the part tracker *)

(** [leads m k r n]: [n] steps along the id mapping [m] lead from [k] to
    [r], which the mapping sends to itself; it is the walk of the first
    loop of [get_flat_id] *)
Inductive leads (m : gmap N N) : N -> N -> nat -> Prop :=
  | leads_here (r : N) : m !! r = Some r -> leads m r r 0
  | leads_step (k p r : N) (n : nat) :
      m !! k = Some p -> p <> k -> leads m p r n -> leads m k r (S n).

(** [r] is the representative of [id] *)
Definition represents (this : ActiveObjectParts) (id r : N) : Prop :=
  exists n, leads (active_object_parts_id_mapping this) id r n.

(** the ids handed out are those below [next_part_idx]; each of them has a
    representative which holds a part; and the ids which hold a part are
    representatives *)
Record tracker_wf (this : ActiveObjectParts) : Prop := mk_tracker_wf {
  wf_ids : forall k,
    is_Some (active_object_parts_id_mapping this !! k) <-> (k < next_part_idx this)%N;
  wf_leads : forall k,
    (k < next_part_idx this)%N ->
    exists r, represents this k r /\ is_Some (active_object_parts this !! r);
  wf_parts : forall r,
    is_Some (active_object_parts this !! r) ->
    active_object_parts_id_mapping this !! r = Some r
}.

Module TrackerSample.
(** three parts, of which part 1 was merged into part 0, and part 2 into
    part 1 *)
Definition parts3 : ActiveObjectParts :=
  snd (insert_part (snd (insert_part (snd (insert_part ActiveObjectParts_default
    Island_default)) Island_default)) Island_default).
Definition chain : ActiveObjectParts :=
  mkActiveObjectParts 3 (<[0%N := ObjectPart_of_island Island_default]> ∅)
    (<[0%N := 0%N]> (<[1%N := 0%N]> (<[2%N := 1%N]> ∅))).
End TrackerSample.

(** the part ids of the island mapping are ids handed out by the tracker *)
Definition ids_known (this : ActiveObjectParts) (mapping : gmap N N) : Prop :=
  forall i pid, mapping !! i = Some pid -> (pid < next_part_idx this)%N.

(** every island to which [island] is connected has a part id and a
    weakest connection in the maps of the previous layer *)
Definition linked (prev_island_to_object_part_mapping : gmap N N)
    (prev_island_weakest_connection : gmap N IslandConnection) (island : Island) : Prop :=
  forall c, is_Some (connected_islands island !! c) ->
            is_Some (prev_island_to_object_part_mapping !! c) /\
            is_Some (prev_island_weakest_connection !! c).

Module MergeSample.
(** two parts on the previous layer, and a layer with an island over both
    of them and an island over nothing *)
Definition parts : ActiveObjectParts :=
  snd (insert_part (snd (insert_part ActiveObjectParts_default Island_default))
         Island_default).
Definition prev_mapping : gmap N N := <[0%N := 0%N]> (<[1%N := 1%N]> ∅).
Definition prev_weakest : gmap N IslandConnection :=
  <[0%N := IslandConnection_default]> (<[1%N := IslandConnection_default]> ∅).
Definition joint : Island :=
  mkIsland (<[0%N := IslandConnection_default]> (<[1%N := IslandConnection_default]> ∅))
           F32.zero V3f.Zero F32.zero V3f.Zero V2f.Zero [].
Definition islands : list Island := [joint; Island_default].
End MergeSample.

(** *** The extrusions of a layer *)

(** the ranges follow each other from [start] to [stop], and none is empty *)
Fixpoint contiguous (start : nat) (extrusions : list (nat * nat)) (stop : nat) : Prop :=
  match extrusions with
  | [] => start = stop
  | ex :: rest => fst ex = start /\ (fst ex < snd ex)%nat /\ contiguous (snd ex) rest stop
  end.

(** the range lies within the lines, and its lines have one origin entity *)
Definition one_entity (layer_lines : list ExtrusionLine) (ex : nat * nat) : Prop :=
  (snd ex <= length layer_lines)%nat /\
  forall i j l l',
    (fst ex <= i < snd ex)%nat -> (fst ex <= j < snd ex)%nat ->
    layer_lines !! i = Some l -> layer_lines !! j = Some l' ->
    same_entity (origin_entity l) (origin_entity l') = true.

(** the range starts the lines, or the line before it has another origin
    entity than its first line *)
Definition separated (layer_lines : list ExtrusionLine) (ex : nat * nat) : Prop :=
  fst ex = 0%nat \/
  exists l l',
    layer_lines !! (fst ex - 1)%nat = Some l /\ layer_lines !! fst ex = Some l' /\
    same_entity (origin_entity l) (origin_entity l') = false.

(** what the loop of [extract_extrusions] keeps, after the lines [layer_lines] *)
Definition extrusions_invariant (layer_lines : list ExtrusionLine)
    (st : list (nat * nat) * option ExtrusionEntity) : Prop :=
  (layer_lines = [] /\ fst st = [] /\ snd st = None) \/
  exists init a,
    fst st = init ++ [(a, length layer_lines)] /\
    contiguous 0 init a /\ (a < length layer_lines)%nat /\
    Forall (one_entity layer_lines) init /\
    Forall (separated layer_lines) (fst st) /\
    forall i l, (a <= i)%nat -> layer_lines !! i = Some l ->
                same_entity (origin_entity l) (snd st) = true.

(** *** The extrusions of the islands *)

(** the part of [reckon_islands] which sorts the extrusions into islands:
    the seeds, the backup island, the assignment of the other extrusions
    and the merging of the islands embedded within each other *)
Definition assign_extrusions (layer_lines : list ExtrusionLine)
    (extrusions : list (nat * nat)) : result (list (list nat)) :=
  let indexed := imap (fun e ex => (e, ex)) extrusions in
  seeds <- foldM (seed_step layer_lines) indexed ([], []) ;;
  let seeds :=
    match fst seeds, extrusions with
    | [], ex0 :: _ => ([mkLinesDistancer (lines_range layer_lines ex0)], [[0%nat]])
    | _, _ => seeds
    end in
  let isl := fst seeds in
  island_extrusions <- foldM (assign_step layer_lines isl) indexed (snd seeds) ;;
  foldM (merge_row isl) (seq 0 (length isl)) island_extrusions.

(** the extrusion starts with an external perimeter line, and so starts an
    island *)
Definition is_seed (layer_lines : list ExtrusionLine) (ex : nat * nat) : bool :=
  match extrusion_is_external layer_lines ex with
  | Ok b => b
  | _ => false
  end.

Module IslandSample.
(** a layer of two paths, none of them an external perimeter *)
Definition first_path : ExtrusionEntity :=
  mkEntity 1 erPerimeter false false [mkPoint 0 0; mkPoint 300000 0]
           (F64.lit 5 100) [].
Definition second_path : ExtrusionEntity :=
  mkEntity 2 erPerimeter false false
           [mkPoint 500000 (-50000); mkPoint 200000 (-50000)] (F64.lit 5 100) [].
Definition layer_lines : list ExtrusionLine :=
  raw_lines Sample.unscale first_path (collect_points first_path)
  ++ raw_lines Sample.unscale second_path (collect_points second_path).
Definition extrusions : list (nat * nat) := [(0, 1); (1, 2)]%nat.
End IslandSample.

(** the line has been given an island in the mapping *)
Definition has_island (line_to_island_mapping : list N) (lidx : nat) : Prop :=
  exists p, line_to_island_mapping !! lidx = Some p /\ p <> NULL_ISLAND.

(** *** The links of the graph *)

(** every connection of the island leads to one of the [n] islands of the
    layer below *)
Definition connections_below (n : nat) (island : Island) : Prop :=
  forall k, is_Some (connected_islands island !! k) -> (k < N.of_nat n)%N.

(** the same for every island of every layer, over [n] islands below the
    first of the layers *)
Fixpoint linked_layers (n : nat) (graph : list LayerIslands) : Prop :=
  match graph with
  | [] => True
  | li :: rest =>
      Forall (connections_below n) (islands li) /\
      linked_layers (length (islands li)) rest
  end.

(** *** The global pass between two layers *)

(** the number of islands of the last of the layers [done], or [n] when
    there is none *)
Definition islands_below (n : nat) (done : list LayerIslands) : nat :=
  match last done with
  | Some li => length (islands li)
  | None => n
  end.

(** the number of islands of the graph *)
Definition total_islands (graph : list LayerIslands) : nat :=
  sum_list (map (fun li => length (islands li)) graph).

(** what the global pass keeps between two layers: the tracker is well
    formed and has handed out at most [used] ids, the part ids of the
    islands of the last layer are ids of the tracker, and each of the [n]
    islands of the last layer has a part id and a weakest connection *)
Definition pass_invariant (n used : nat) (st : CheckState) : Prop :=
  tracker_wf (cs_parts st) /\
  ids_known (cs_parts st) (prev_island_to_object_part_mapping st) /\
  (N.to_nat (next_part_idx (cs_parts st)) <= used)%nat /\
  forall j, (j < N.of_nat n)%N ->
            is_Some (prev_island_to_object_part_mapping st !! j) /\
            is_Some (prev_island_weakest_connection st !! j).

(** *** The direction of an extruded line *)

(** a zero of either sign *)
Definition is_zero (x : spec_float) : Prop :=
  match x with
  | S754_zero _ => True
  | _ => False
  end.

(** both coordinates are zero: the vector which a normalization cannot
    scale to the length one *)
Definition zero_vector (v : Vec2f) : Prop := is_zero (v2x v) /\ is_zero (v2y v).

(** the length kept in the line is the length of [a - b], as the
    constructor of the line computes it *)
Definition measured (line : ExtrusionLine) : Prop :=
  len line = V2f.norm (V2f.sub (line_a line) (line_b line)).

(** the external lines of the islands keep the length of their constructor *)
Definition islands_measured (isls : list Island) : Prop :=
  Forall (fun isl => Forall measured (external_lines isl)) isls.

(** *** Merges as the global pass calls them *)

(** in the run of [ops] from [this], every [merge(from, to)] is called as
    [check_global_stability] calls it: for an id [from] which is its own
    representative and an id [to] of another part *)
Fixpoint merges_representatives (fuel : nat) (this : ActiveObjectParts)
    (ops : list tracker_op) : Prop :=
  match ops with
  | [] => True
  | OpInsert island :: rest =>
      merges_representatives fuel (snd (insert_part this island)) rest
  | OpMerge from to :: rest =>
      find fuel this from = Ok from /\
      (exists r, find fuel this to = Ok r /\ r <> from) /\
      forall this', merge fuel this from to = Ok this' ->
                    merges_representatives fuel this' rest
  end.

(** the number of [insert] operations among [ops] *)
Definition inserts (ops : list tracker_op) : nat :=
  length (List.filter (fun op => match op with OpInsert _ => true | _ => false end) ops).

(** *** The index image under any order of the parallel loop *)

(** the [tbb::parallel_for] which builds the index image, with its
    iterations taken one after the other in the order [order]: the source
    fixes no order, and [rasterize] is this loop in the order of the
    indices *)
Definition rasterize_in (order : list nat) (fuel : nat) (layer_lines : list ExtrusionLine)
    (line_to_island_mapping : list N) (g : PixelGrid) : result PixelGrid :=
  foldM (rasterize_step fuel layer_lines line_to_island_mapping) order g.

(** [reckon_islands] with the iterations of its parallel loop in the order
    [order] *)
Definition reckon_islands_in (order : list nat) (fuel : nat) (layer : Layer)
    (first_layer : bool) (prev_layer_islands_count : N) (prev_layer_grid : PixelGrid)
    (layer_lines : list ExtrusionLine) (params : Params)
    : result (LayerIslands * PixelGrid) :=
  built <- build_islands layer first_layer layer_lines ;;
  let z := to_float (slice_z layer) in
  let line_to_island_mapping := snd built in
  current_layer_grid <- rasterize_in order fuel layer_lines line_to_island_mapping
                                     (clear prev_layer_grid) ;;
  isls <- foldM (overlap_cell current_layer_grid prev_layer_grid z)
                (grid_cells current_layer_grid) (fst built) ;;
  Ok (mkLayerIslands isls z, current_layer_grid).

Module ScheduleSample.
(** the two islands of [RasterSample], 0.05 mm apart in one row of pixels
    of the size 0.4, with the two segments taken in the order [order] *)
Definition reckoned (order : list nat) : LayerIslands * PixelGrid :=
  match reckon_islands_in order 100 RasterSample.layer true 0 RasterSample.grid0
          RasterSample.layer_lines Sample.params with
  | Ok r => r
  | _ => RasterSample.empty_result
  end.
(** a segment 0.08 long, alone in its layer, with pixels of the size 0.1 *)
Definition fine_reckoned (order : list nat) : LayerIslands * PixelGrid :=
  match reckon_islands_in order 100 RasterSample.fine_layer true 0 RasterSample.fine_grid0
          RasterSample.short_lines Sample.params with
  | Ok r => r
  | _ => RasterSample.empty_result
  end.
End ScheduleSample.
(** * Properties *)


(** ** Generic facts about the loops *)

Lemma bind_Ok {A B} (r : result A) (f : A -> result B) (b : B) :
  bind r f = Ok b -> exists a, r = Ok a /\ f a = Ok b.
Proof. destruct r; simpl; intros H; try discriminate. eauto. Qed.

Lemma foldM_app {A S} (body : S -> A -> result S) (l1 l2 : list A) (s : S) :
  foldM body (l1 ++ l2) s = bind (foldM body l1 s) (foldM body l2).
Proof.
  revert s. induction l1 as [|a l1 IH]; intros s; simpl; [reflexivity|].
  destruct (body s a); simpl; auto.
Qed.

Lemma foldM_invariant {A S} (P : S -> Prop) (body : S -> A -> result S) (l : list A) :
  (forall s a s', P s -> body s a = Ok s' -> P s') ->
  forall s s', P s -> foldM body l s = Ok s' -> P s'.
Proof.
  intros Hstep. induction l as [|a l IH]; intros s s' Hs H; simpl in H.
  - inversion H; subst; exact Hs.
  - destruct (body s a) as [s1| |] eqn:E; try discriminate.
    apply (IH s1 s'); [exact (Hstep s a s1 Hs E) | exact H].
Qed.

(** ** Orchestration *)

(** C7: the issues of [full_search] are the support points of the global
    pass followed by those of the local pass, each list whole and in its
    own order; [full_search] succeeds exactly when both passes do. *)
Theorem full_search_globals_then_locals (unscale : Z -> double)
    (angle : Vec2f -> Vec2f -> float) (PI EPSILON : double)
    (fuel : nat) (po : PrintObject) (params : Params) (issues : Issues) :
  full_search unscale angle PI EPSILON fuel po params = Ok issues <->
  exists local_issues graph global_issues,
    check_extrusions_and_build_graph unscale angle PI fuel po params
      = Ok (local_issues, graph) /\
    check_global_stability PI EPSILON fuel
      (SupportGridFilter_new unscale po (min_distance_between_support_points params))
      graph params = Ok global_issues /\
    issues = mkIssues (support_points global_issues ++ support_points local_issues).
Proof.
  unfold full_search. split.
  - intros H. apply bind_Ok in H as [[loc graph] [H1 H2]].
    apply bind_Ok in H2 as [glob [H2 H3]].
    exists loc, graph, glob. inversion H3; subst. auto.
  - intros (loc & graph & glob & H1 & H2 & ->).
    rewrite H1. simpl. rewrite H2. reflexivity.
Qed.

(** ** Signs of IEEE results *)


Lemma sign_clear_not_negative (x : spec_float) : sign_clear x -> flt x F32.zero = false.
Proof. destruct x as [s|s| |s m e]; simpl; intros H; subst; reflexivity. Qed.

Lemma binary_round_aux_sign (prec emax : Z) (s : bool) (m e : Z) (l : location) :
  match binary_round_aux prec emax s m e l with
  | S754_nan => True
  | S754_zero s' | S754_infinity s' | S754_finite s' _ _ => s' = s
  end.
Proof.
  unfold binary_round_aux.
  destruct (shr_fexp prec emax m e l) as [mrs' e'].
  destruct (shr_fexp prec emax _ e' loc_Exact) as [mrs'' e''].
  destruct (shr_m mrs''); auto.
  destruct (Z.leb e'' (emax - prec)); reflexivity.
Qed.

Lemma binary_round_aux_sign_clear (prec emax : Z) (m e : Z) (l : location) :
  sign_clear (binary_round_aux prec emax false m e l).
Proof.
  pose proof (binary_round_aux_sign prec emax false m e l) as H.
  destruct (binary_round_aux prec emax false m e l); exact H.
Qed.

Lemma SFmul_square_sign_clear (prec emax : Z) (x : spec_float) :
  sign_clear (SFmul prec emax x x).
Proof.
  destruct x as [s|s| |s m e]; simpl; try (destruct s; reflexivity); auto.
  replace (xorb s s) with false by (destruct s; reflexivity).
  apply binary_round_aux_sign_clear.
Qed.

Lemma SFadd_sign_clear (prec emax : Z) (x y : spec_float) :
  sign_clear x -> sign_clear y -> sign_clear (SFadd prec emax x y).
Proof.
  destruct x as [sx|sx| |sx mx ex], y as [sy|sy| |sy my ey]; simpl;
    intros Hx Hy; subst; simpl; auto.
  unfold binary_normalize, binary_round.
  destruct (shl_align _ _ _) as [mz ez].
  apply binary_round_aux_sign_clear.
Qed.

Lemma SFdiv_sign_clear (prec emax : Z) (x y : spec_float) :
  sign_clear x -> sign_clear y -> sign_clear (SFdiv prec emax x y).
Proof.
  destruct x as [sx|sx| |sx mx ex], y as [sy|sy| |sy my ey]; simpl;
    intros Hx Hy; subst; simpl; auto.
  destruct (SFdiv_core_binary _ _ _ _ _ _) as [[mz ez] lz].
  apply binary_round_aux_sign_clear.
Qed.

Lemma SFsqrt_sign_clear (prec emax : Z) (x : spec_float) :
  sign_clear x -> sign_clear (SFsqrt prec emax x).
Proof.
  destruct x as [s|s| |s m e]; simpl; intros H; subst; simpl; auto.
  destruct (SFsqrt_core_binary _ _ _ _) as [[mz ez] lz].
  apply binary_round_aux_sign_clear.
Qed.

Lemma round_to_sign_clear (prec emax : Z) (x : spec_float) :
  sign_clear x -> sign_clear (round_to prec emax x).
Proof.
  destruct x as [s|s| |s m e]; simpl; intros H; subst; simpl; auto.
  unfold binary_round. destruct (shl_align _ _ _) as [mz ez].
  apply binary_round_aux_sign_clear.
Qed.

Lemma V3d_squaredNorm_sign_clear (v : Vec3d) : sign_clear (V3d.squaredNorm v).
Proof.
  unfold V3d.squaredNorm, F64.add, F64.mul.
  repeat apply SFadd_sign_clear; apply SFmul_square_sign_clear.
Qed.

Lemma distance_to_sign_clear (la lb point : Vec3d) : sign_clear (distance_to la lb point).
Proof.
  unfold distance_to.
  destruct (feq _ _).
  - apply SFsqrt_sign_clear, V3d_squaredNorm_sign_clear.
  - apply SFdiv_sign_clear; apply SFsqrt_sign_clear, V3d_squaredNorm_sign_clear.
Qed.

Lemma conflict_torque_arm_sign_clear (line : ExtrusionLine) (z : float) (c : Vec3f) :
  sign_clear (conflict_torque_arm line z c).
Proof. apply round_to_sign_clear, distance_to_sign_clear. Qed.

Lemma positive_sign_clear (x : spec_float) : fgt x F32.zero = true -> sign_clear x.
Proof. destruct x as [s|s| |s m e]; simpl; try discriminate; destruct s; auto; discriminate. Qed.

(** ** Stability test: [ObjectPart::is_stable_while_extruding] *)


(** C3: a part whose [sticking_area] is below epsilon is answered with
    exactly 1.0, whatever its bed accumulators hold; and when the bed case
    falls through, a connection whose area is below epsilon is answered
    with exactly 1.0, whatever the connection accumulators hold. *)
Theorem degenerate_anchor_areas_answer_one (EPSILON : double) (this : ObjectPart)
    (connection : IslandConnection) (extruded_line : ExtrusionLine) (layer_z : float)
    (params : Params) :
  (flt (to_double (part_sticking_area this)) EPSILON = true ->
   forall (c : Vec3f) (m2 : Vec2f),
     is_stable_while_extruding EPSILON
       (mkObjectPart (part_volume this) (part_volume_centroid_accumulator this)
                     (part_sticking_area this) c m2)
       connection extruded_line layer_z params = F32.one) /\
  (flt (to_double (part_sticking_area this)) EPSILON = false ->
   fgt (bed_total_torque EPSILON this extruded_line layer_z params) F32.zero = false ->
   flt (to_double (area connection)) EPSILON = true ->
   forall (c : Vec3f) (m2 : Vec2f),
     is_stable_while_extruding EPSILON this
       (mkIslandConnection (area connection) c m2) extruded_line layer_z params
     = F32.one).
Proof.
  split.
  - intros Hs c m2. unfold is_stable_while_extruding. simpl. rewrite Hs. reflexivity.
  - intros Hs Hb Hc c m2. unfold is_stable_while_extruding. simpl.
    rewrite Hs, Hb, Hc. reflexivity.
Qed.

Lemma degenerate_anchor_areas_answer_one_witness :
  is_stable_while_extruding Sample.EPSILON StabilitySample.hanging
    StabilitySample.wide_connection StabilitySample.line StabilitySample.layer_z
    Sample.params = F32.one /\
  is_stable_while_extruding Sample.EPSILON StabilitySample.plate
    StabilitySample.no_connection StabilitySample.line StabilitySample.layer_z
    Sample.params = F32.one.
Proof.
  split.
  - apply (proj1 (degenerate_anchor_areas_answer_one Sample.EPSILON
                    StabilitySample.hanging StabilitySample.wide_connection
                    StabilitySample.line StabilitySample.layer_z Sample.params)).
    vm_compute; reflexivity.
  - apply (proj2 (degenerate_anchor_areas_answer_one Sample.EPSILON
                    StabilitySample.plate StabilitySample.no_connection
                    StabilitySample.line StabilitySample.layer_z Sample.params));
      vm_compute; reflexivity.
Defined.

(** The value is negative for a plate held by a wide connection: the
    connection yields at a torque above the torque of the extruder. *)
Lemma is_stable_while_extruding_negative :
  line_a StabilitySample.line <> line_b StabilitySample.line /\
  flt (is_stable_while_extruding Sample.EPSILON StabilitySample.plate
         StabilitySample.wide_connection StabilitySample.line StabilitySample.layer_z
         Sample.params) F32.zero = true.
Proof. split; [vm_compute; discriminate | vm_compute; reflexivity]. Qed.

(** C2, as the code has it: the value is exactly 1.0 at the two guards; in
    the bed case it is the quotient of a positive torque by the arm and is
    not negative; in the remaining case it is the signed ratio
    [conn_total_torque / conn_conflict_torque_arm]. *)
Theorem is_stable_while_extruding_signed (EPSILON : double) (this : ObjectPart)
    (connection : IslandConnection) (extruded_line : ExtrusionLine) (layer_z : float)
    (params : Params) :
  let r := is_stable_while_extruding EPSILON this connection extruded_line layer_z params in
  let bed := bed_total_torque EPSILON this extruded_line layer_z params in
  (r = F32.one /\ flt (to_double (part_sticking_area this)) EPSILON = true) \/
  (r = F32.div bed (bed_conflict_torque_arm this extruded_line layer_z) /\
   fgt bed F32.zero = true /\ flt r F32.zero = false) \/
  (r = F32.one /\ fgt bed F32.zero = false /\
   flt (to_double (area connection)) EPSILON = true) \/
  (r = F32.div (conn_total_torque EPSILON this connection extruded_line layer_z params)
               (conn_conflict_torque_arm connection extruded_line layer_z) /\
   fgt bed F32.zero = false /\ flt (to_double (area connection)) EPSILON = false).
Proof.
  intros r bed. subst r bed. unfold is_stable_while_extruding.
  destruct (flt (to_double (part_sticking_area this)) EPSILON) eqn:Hs; [left; auto|].
  destruct (fgt (bed_total_torque EPSILON this extruded_line layer_z params) F32.zero) eqn:Hb.
  - right; left. repeat split; auto.
    apply sign_clear_not_negative, SFdiv_sign_clear.
    + apply positive_sign_clear, Hb.
    + apply conflict_torque_arm_sign_clear.
  - destruct (flt (to_double (area connection)) EPSILON) eqn:Hc.
    + right; right; left. auto.
    + right; right; right. auto.
Qed.

(** ** Local stability *)


Lemma vec_at_Ok {A} (v : list A) (i : nat) (a : A) : vec_at v i = Ok a -> v !! i = Some a.
Proof. unfold vec_at. destruct (v !! i); congruence. Qed.


(** ** Global stability: the lines handed to the stability test *)

Lemma place_support_calls (PI : double) (island : Island) (layer_z : float)
    (params : Params) (st st' : LineState) (line : ExtrusionLine) (force : float) :
  place_support PI island layer_z params st line force = Ok st' ->
  stability_calls st' = stability_calls st.
Proof.
  unfold place_support. intros H.
  apply bind_Ok in H as [[[d i] p] [_ H]].
  apply bind_Ok in H as [taken [_ H]].
  destruct taken.
  - inversion H; reflexivity.
  - apply bind_Ok in H as [g [_ H]]. inversion H; reflexivity.
Qed.

(** a line of length zero only adds (nothing) to the unchecked distance *)
Lemma zero_length_line_is_skipped (PI EPSILON : double) (island : Island)
    (layer_z : float) (params : Params) (st : LineState) (line : ExtrusionLine) :
  feq (len line) F32.zero = true ->
  check_external_line PI EPSILON island layer_z params st line
  = Ok (mkLineState (F32.add (unchecked_dist st) (len line)) (ls_part st) (weakest_conn st)
                    (island_lines_dist st) (ls_issues st) (supports_presence_grid st)
                    (stability_calls st)).
Proof.
  intros H. unfold check_external_line. rewrite H, orb_true_r. reflexivity.
Qed.

Lemma check_external_line_calls (PI EPSILON : double) (island : Island)
    (layer_z : float) (params : Params) (st st' : LineState) (line : ExtrusionLine) :
  Forall nonzero_length (stability_calls st) ->
  check_external_line PI EPSILON island layer_z params st line = Ok st' ->
  Forall nonzero_length (stability_calls st').
Proof.
  unfold check_external_line. intros Hall H.
  destruct (_ || feq (len line) F32.zero) eqn:Hc.
  - inversion H; subst; exact Hall.
  - apply orb_false_elim in Hc as [_ Hz].
    assert (Hall' : Forall nonzero_length (stability_calls st ++ [line])).
    { apply Forall_app. split; [exact Hall|]. constructor; [exact Hz | constructor]. }
    destruct (fgt _ F32.zero).
    + apply place_support_calls in H. rewrite H. exact Hall'.
    + inversion H; subst; exact Hall'.
Qed.

Lemma check_island_calls (PI EPSILON : double) (fuel : nat) (layer_z : float)
    (params : Params) (st st' : CheckState) (ii : nat * Island) :
  Forall nonzero_length (cs_calls st) ->
  check_island PI EPSILON fuel layer_z params st ii = Ok st' ->
  Forall nonzero_length (cs_calls st').
Proof.
  unfold check_island. intros Hall H.
  apply bind_Ok in H as [pid [_ H]].
  apply bind_Ok in H as [r [_ H]].
  apply bind_Ok in H as [part [_ H]].
  apply bind_Ok in H as [ls [Hls H]].
  inversion H; subst; simpl.
  revert Hls. apply (foldM_invariant (fun s => Forall nonzero_length (stability_calls s))).
  - intros s a s'. apply check_external_line_calls.
  - exact Hall.
Qed.

Lemma check_layer_calls (PI EPSILON : double) (fuel : nat) (params : Params)
    (st st' : CheckState) (layer : LayerIslands) :
  Forall nonzero_length (cs_calls st) ->
  check_layer PI EPSILON fuel params st layer = Ok st' ->
  Forall nonzero_length (cs_calls st').
Proof.
  unfold check_layer. intros Hall H.
  apply bind_Ok in H as [ps [_ H]].
  revert H. apply (foldM_invariant (fun s => Forall nonzero_length (cs_calls s))).
  - intros s a s'. apply check_island_calls.
  - exact Hall.
Qed.

(** the line which the local analyzer puts before the lines of a path has
    its two end points equal, and length zero when they are finite *)
Lemma F32_sub_diag (x : float) : is_finite x -> F32.sub x x = F32.zero.
Proof.
  destruct x as [s|s| |s m e]; simpl; try contradiction; intros _.
  - destruct s; reflexivity.
  - unfold F32.sub, SFsub. rewrite Z.sub_diag. reflexivity.
Qed.

Lemma resample_first_line (unscale : Z -> double) (params : Params)
    (entity : ExtrusionEntity) (lines : list ExtrusionLine) :
  resample unscale params entity = Ok lines ->
  exists l0 rest,
    lines = l0 :: rest /\ line_a l0 = line_b l0 /\
    (is_finite (v2x (line_a l0)) -> is_finite (v2y (line_a l0)) ->
     len l0 = F32.zero /\ feq (len l0) F32.zero = true).
Proof.
  unfold resample. intros H. apply bind_Ok in H as [p0 [_ H]]. inversion H; subst.
  eexists _, _. split; [reflexivity|]. split; [reflexivity|].
  simpl. intros Hx Hy. unfold V2f.norm, V2f.squaredNorm, V2f.sub, map2_2. simpl.
  rewrite (F32_sub_diag _ Hx), (F32_sub_diag _ Hy). split; reflexivity.
Qed.

(** ** Part tracker *)

(** C9 fails for a [merge] of an id which is not its own representative:
    three parts are inserted (ids 0, 1, 2), then 0 is merged into 1 and 0
    is merged into 2.  The second merge erases the part of the
    representative 1 of the id 0 but re-points the id 0 only: afterwards
    [find(1)] is still 1, which is no key of the live parts, and
    [access(1)] throws.  [find] stays idempotent. *)
Lemma merge_of_a_merged_id_orphans_its_representative :
  exists st,
    run_ops 8 [OpInsert Island_default; OpInsert Island_default; OpInsert Island_default;
               OpMerge 0 1; OpMerge 0 2] = Ok st /\
    find 8 st 1 = Ok 1%N /\
    active_object_parts st !! 1%N = None /\
    access 8 st 1 = Fault /\
    (r <- get_flat_id 8 st 1 ;; find 8 (snd r) (fst r)) = Ok 1%N.
Proof.
  eexists. split; [vm_compute; reflexivity|].
  repeat split; vm_compute; reflexivity.
Qed.

(** the same happens when the two ids of a merge already share their
    representative: the part of the representative is erased *)
Lemma merge_within_a_part_erases_it :
  exists st,
    run_ops 8 [OpInsert Island_default; OpInsert Island_default;
               OpMerge 0 1; OpMerge 0 1] = Ok st /\
    find 8 st 0 = Ok 1%N /\ find 8 st 1 = Ok 1%N /\
    active_object_parts st !! 1%N = None.
Proof.
  eexists. split; [vm_compute; reflexivity|].
  repeat split; vm_compute; reflexivity.
Qed.

(** ** Degenerate print objects *)

















(** ** Island reckoner: the overlap areas *)

Lemma iter_bump_None (x : float) (n : nat) :
  Nat.iter (S n) (bump x) None = Some (accumulate x (S n)).
Proof.
  induction n as [|n IH]; [reflexivity|].
  change (Nat.iter (S (S n)) (bump x) None) with (bump x (Nat.iter (S n) (bump x) None)).
  rewrite IH. reflexivity.
Qed.

Lemma vec_updateN_Ok {A} (v v' : list A) (i : N) (f : A -> A) :
  vec_updateN v i f = Ok v' ->
  exists a, v !! N.to_nat i = Some a /\ v' = <[N.to_nat i := f a]> v.
Proof.
  unfold vec_updateN, vec_update. destruct (_ <? _)%N; [|discriminate].
  destruct (v !! N.to_nat i) as [a|]; [|discriminate].
  intros H. inversion H. eauto.
Qed.

Lemma overlap_cell_spec (g p : PixelGrid) (z : float) (isls isls' : list Island)
    (c : Vec2i) :
  overlap_cell g p z isls c = Ok isls' ->
  length isls' = length isls /\
  forall cur prev isl,
    cur <> NULL_ISLAND -> prev <> NULL_ISLAND ->
    isls !! N.to_nat cur = Some isl ->
    exists isl',
      isls' !! N.to_nat cur = Some isl' /\
      connection_area isl' prev =
        (if cell_matches g p cur prev c then bump (pixel_area g) (connection_area isl prev)
         else connection_area isl prev).
Proof.
  unfold overlap_cell, cell_matches. intros H.
  apply bind_Ok in H as [a [Ha H]]. rewrite Ha.
  destruct (N.eqb a NULL_ISLAND) eqn:Ea.
  { inversion H; subst. split; [reflexivity|]. intros cur prev isl Hc Hp Hl.
    exists isl. split; [exact Hl|].
    apply N.eqb_eq in Ea. subst a.
    replace (N.eqb NULL_ISLAND cur) with false
      by (symmetry; apply N.eqb_neq; congruence).
    simpl. destruct (get_pixel p c); reflexivity. }
  apply bind_Ok in H as [b [Hb H]]. rewrite Hb.
  destruct (N.eqb b NULL_ISLAND) eqn:Eb.
  { inversion H; subst. split; [reflexivity|]. intros cur prev isl Hc Hp Hl.
    exists isl. split; [exact Hl|].
    apply N.eqb_eq in Eb. subst b.
    replace (N.eqb NULL_ISLAND prev) with false
      by (symmetry; apply N.eqb_neq; congruence).
    rewrite andb_false_r. reflexivity. }
  apply vec_updateN_Ok in H as (ia & Hia & ->).
  split; [apply length_insert|].
  intros cur prev isl Hc Hp Hl.
  destruct (N.eqb a cur) eqn:Eac.
  - apply N.eqb_eq in Eac. subst cur.
    rewrite Hia in Hl. inversion Hl; subst ia.
    eexists. split.
    { apply list_lookup_insert_eq. eapply lookup_lt_Some; eauto. }
    unfold connection_area. simpl.
    destruct (N.eqb b prev) eqn:Ebp.
    + apply N.eqb_eq in Ebp. subst prev.
      rewrite lookup_insert_eq. simpl. unfold bump, connection_ref.
      destruct (connected_islands isl !! b); reflexivity.
    + apply N.eqb_neq in Ebp. rewrite lookup_insert_ne by exact Ebp. reflexivity.
  - apply N.eqb_neq in Eac. simpl.
    exists isl. split; [|reflexivity].
    rewrite list_lookup_insert_ne; [exact Hl|].
    intros E. apply Eac. apply N2Nat.inj. exact E.
Qed.

Lemma filter_length_cons {A} (f : A -> bool) (a : A) (l : list A) :
  length (List.filter f (a :: l)) = ((if f a then 1 else 0) + length (List.filter f l))%nat.
Proof. simpl. destruct (f a); reflexivity. Qed.

Lemma overlap_fold_spec (g p : PixelGrid) (z : float) (cells : list Vec2i) :
  forall isls isls',
    foldM (overlap_cell g p z) cells isls = Ok isls' ->
    forall cur prev isl,
      cur <> NULL_ISLAND -> prev <> NULL_ISLAND ->
      isls !! N.to_nat cur = Some isl ->
      exists isl',
        isls' !! N.to_nat cur = Some isl' /\
        connection_area isl' prev =
          Nat.iter (length (List.filter (cell_matches g p cur prev) cells))
                   (bump (pixel_area g)) (connection_area isl prev).
Proof.
  induction cells as [|c cells IH]; intros isls isls' H cur prev isl Hc Hp Hl.
  - inversion H; subst. exists isl. split; [exact Hl | reflexivity].
  - simpl in H. destruct (overlap_cell g p z isls c) as [isls1| |] eqn:E; try discriminate.
    destruct (overlap_cell_spec _ _ _ _ _ _ E) as [_ Hstep].
    destruct (Hstep cur prev isl Hc Hp Hl) as (isl1 & Hl1 & Ha1).
    destruct (IH _ _ H cur prev isl1 Hc Hp Hl1) as (isl' & Hl' & Ha').
    exists isl'. split; [exact Hl'|].
    rewrite Ha', Ha1, filter_length_cons.
    destruct (cell_matches g p cur prev c); simpl; [|reflexivity].
    symmetry.
    exact (Nat.iter_succ_r (length (List.filter (cell_matches g p cur prev) cells))
             (bump (pixel_area g)) (connection_area isl prev)).
Qed.

Lemma overlap_fold_length (g p : PixelGrid) (z : float) (cells : list Vec2i)
    (isls isls' : list Island) :
  foldM (overlap_cell g p z) cells isls = Ok isls' -> length isls' = length isls.
Proof.
  apply (foldM_invariant (fun s => length s = length isls)); [|reflexivity].
  intros s c s' Hs H. apply overlap_cell_spec in H as [H _]. congruence.
Qed.

Lemma island_line_step_connections (layer : Layer) (first_layer : bool) (fw : float)
    (layer_lines : list ExtrusionLine) (island_idx : N) (st st' : Island * list N)
    (lidx : nat) :
  island_line_step layer first_layer fw layer_lines island_idx st lidx = Ok st' ->
  connected_islands (fst st') = connected_islands (fst st).
Proof.
  unfold island_line_step. destruct st as [island mapping].
  intros H. apply bind_Ok in H as [m [_ H]]. apply bind_Ok in H as [line [_ H]].
  destruct (origin_entity line); [|discriminate].
  inversion H; subst; clear H. simpl.
  destruct first_layer; [reflexivity|].
  destruct (support_point_generated line); reflexivity.
Qed.

Lemma build_island_step_connections (layer : Layer) (first_layer : bool) (fw : float)
    (layer_lines : list ExtrusionLine) (extrusions : list (nat * nat))
    (st st' : list Island * list N) (island_ex : list nat) :
  Forall (fun isl => connected_islands isl = ∅) (fst st) ->
  build_island_step layer first_layer fw layer_lines extrusions st island_ex = Ok st' ->
  Forall (fun isl => connected_islands isl = ∅) (fst st').
Proof.
  unfold build_island_step. intros Hall H.
  destruct island_ex as [|ex0 rest]; [inversion H; subst; exact Hall|].
  apply bind_Ok in H as [range0 [_ H]].
  apply bind_Ok in H as [im [Him H]].
  inversion H; subst; clear H. simpl.
  apply Forall_app. split; [exact Hall|]. constructor; [|constructor].
  revert Him.
  apply (foldM_invariant (fun s : Island * list N => connected_islands (fst s) = ∅));
    [|reflexivity].
  intros s e s' Hs H. apply bind_Ok in H as [range [_ H]].
  revert H.
  apply (foldM_invariant (fun s : Island * list N => connected_islands (fst s) = ∅));
    [|exact Hs].
  intros s1 l s1' Hs1 H1. apply island_line_step_connections in H1. congruence.
Qed.

(** C6, as the code has it: in the islands returned by [reckon_islands],
    the area of the connection of the island [cur] to the island [prev] of
    the previous layer is [pixel_area] added to zero, in binary32, once for
    every cell in which the current grid holds [cur] and the previous grid
    holds [prev]; when there is no such cell there is no connection. *)
Theorem connection_area_accumulates_pixel_area (fuel : nat) (layer : Layer)
    (first_layer : bool) (prev_layer_islands_count : N) (prev_layer_grid : PixelGrid)
    (layer_lines : list ExtrusionLine) (params : Params)
    (result_islands : LayerIslands) (current_layer_grid : PixelGrid) :
  reckon_islands fuel layer first_layer prev_layer_islands_count prev_layer_grid
                 layer_lines params = Ok (result_islands, current_layer_grid) ->
  forall (cur prev : N) (isl : Island),
    cur <> NULL_ISLAND -> prev <> NULL_ISLAND ->
    islands result_islands !! N.to_nat cur = Some isl ->
    connection_area isl prev =
      match overlap_count current_layer_grid prev_layer_grid cur prev with
      | O => None
      | S k => Some (accumulate (pixel_area current_layer_grid) (S k))
      end.
Proof.
  unfold reckon_islands. intros H cur prev isl Hc Hp Hl.
  apply bind_Ok in H as [built [Hbuilt H]]. cbv zeta in H.
  unfold build_islands in Hbuilt.
  apply bind_Ok in Hbuilt as [extrusions [_ Hbuilt]].
  apply bind_Ok in Hbuilt as [seeds [_ Hbuilt]]. cbv zeta in Hbuilt.
  apply bind_Ok in Hbuilt as [ie1 [_ Hbuilt]].
  apply bind_Ok in Hbuilt as [ie2 [_ Hbuilt]].
  apply bind_Ok in Hbuilt as [region0 [_ Hbuilt]].
  apply bind_Ok in H as [g [_ H]].
  apply bind_Ok in H as [isls [Hfold H]].
  inversion H; subst; clear H. simpl in Hl.
  assert (Hnone : Forall (fun isl => connected_islands isl = ∅) (fst built)).
  { revert Hbuilt.
    apply (foldM_invariant
             (fun s : list Island * list N =>
                Forall (fun isl => connected_islands isl = ∅) (fst s))).
    - intros s e s'. apply build_island_step_connections.
    - constructor. }
  pose proof (overlap_fold_length _ _ _ _ _ _ Hfold) as Hlen.
  destruct (fst built !! N.to_nat cur) as [isl0|] eqn:E0.
  2:{ apply lookup_ge_None in E0. apply lookup_lt_Some in Hl. lia. }
  destruct (overlap_fold_spec _ _ _ _ _ _ Hfold cur prev isl0 Hc Hp E0)
    as (isl' & Hl' & Ha).
  rewrite Hl in Hl'. inversion Hl'; subst isl'.
  rewrite Ha. unfold overlap_count.
  assert (Hstart : connection_area isl0 prev = None).
  { rewrite Forall_forall in Hnone.
    unfold connection_area. rewrite (Hnone isl0); [reflexivity|].
    eapply list_elem_of_lookup_2; eauto. }
  rewrite Hstart.
  destruct (length (List.filter _ _)) as [|k]; [reflexivity | apply iter_bump_None].
Qed.

Lemma connection_area_accumulates_pixel_area_witness :
  reckon_islands 100 OverlapSample.layer1 false 0 OverlapSample.first_grid
                 OverlapSample.layer_lines Sample.params
    = Ok (fst OverlapSample.second, snd OverlapSample.second) /\
  connection_area OverlapSample.island0 0 =
    match overlap_count (snd OverlapSample.second) OverlapSample.first_grid 0 0 with
    | O => None
    | S k => Some (accumulate (pixel_area (snd OverlapSample.second)) (S k))
    end.
Proof.
  assert (H : reckon_islands 100 OverlapSample.layer1 false 0 OverlapSample.first_grid
                OverlapSample.layer_lines Sample.params
              = Ok (fst OverlapSample.second, snd OverlapSample.second))
    by (vm_compute; reflexivity).
  split; [exact H|].
  apply (connection_area_accumulates_pixel_area _ _ _ _ _ _ _ _ _ H 0%N 0%N).
  - discriminate.
  - discriminate.
  - vm_compute. reflexivity.
Defined.

(** C6 fails in binary32: over six common cells the accumulated area is
    not the product of [pixel_area] and six. *)
Lemma connection_area_is_not_the_product :
  reckon_islands 100 OverlapSample.layer1 false 0 OverlapSample.first_grid
                 OverlapSample.layer_lines Sample.params
    = Ok (fst OverlapSample.second, snd OverlapSample.second) /\
  islands (fst OverlapSample.second) !! 0%nat = Some OverlapSample.island0 /\
  overlap_count (snd OverlapSample.second) OverlapSample.first_grid 0 0 = 6%nat /\
  exists a,
    connection_area OverlapSample.island0 0 = Some a /\
    feq a (F32.mul (pixel_area (snd OverlapSample.second)) (F32.of_Z 6)) = false.
Proof.
  split; [vm_compute; reflexivity|].
  split; [vm_compute; reflexivity|].
  split; [vm_compute; reflexivity|].
  exists (accumulate (pixel_area (snd OverlapSample.second)) 6).
  split; [vm_compute; reflexivity|].
  vm_compute. reflexivity.
Qed.

(** ** Island reckoner: the index image *)

Lemma SFcompare_antisym (x y : spec_float) :
  SFcompare y x = option_map CompOpp (SFcompare x y).
Proof.
  destruct x as [sx|sx| |sx mx ex], y as [sy|sy| |sy my ey]; simpl;
    try reflexivity; try (destruct sx; reflexivity); try (destruct sy; reflexivity);
    try (destruct sx, sy; reflexivity).
  f_equal.
  pose proof (Pos.compare_cont_antisym mx my Eq) as H. simpl in H.
  destruct sx, sy; try reflexivity.
  - rewrite (Z.compare_antisym ex ey).
    destruct (ex ?= ey)%Z eqn:E; simpl; try reflexivity.
    rewrite <- H. destruct (Pos.compare_cont Eq mx my); reflexivity.
  - rewrite (Z.compare_antisym ex ey).
    destruct (ex ?= ey)%Z eqn:E; simpl; try reflexivity.
    symmetry. exact H.
Qed.







(** ** Local stability: the resampling of a path *)

Lemma split_pairs_concat (unscale : Z -> double) (params : Params)
    (entity : ExtrusionEntity) (points : list Point) :
  split_pairs unscale params entity points =
  concat (map (fun pq => split_pair params entity (unscaled unscale (fst pq))
                                    (unscaled unscale (snd pq)))
              (consecutive_pairs points)).
Proof.
  induction points as [|p [|q rest] IH]; try reflexivity.
  change (split_pairs unscale params entity (p :: q :: rest))
    with (split_pair params entity (unscaled unscale p) (unscaled unscale q)
          ++ split_pairs unscale params entity (q :: rest)).
  rewrite IH. reflexivity.
Qed.






(** * Further properties of the code *)

(** ** Accumulators of moments *)

Lemma SFadd_comm (prec emax : Z) (x y : spec_float) :
  SFadd prec emax x y = SFadd prec emax y x.
Proof.
  destruct x as [sx|sx| |sx mx ex], y as [sy|sy| |sy my ey]; simpl;
    try reflexivity; try (destruct sx, sy; reflexivity).
  rewrite (Z.min_comm ey ex), Z.add_comm. reflexivity.
Qed.

Lemma V2f_add_comm (a b : Vec2f) : V2f.add a b = V2f.add b a.
Proof.
  unfold V2f.add, map2_2, F32.add.
  rewrite (SFadd_comm _ _ (v2x a)), (SFadd_comm _ _ (v2y a)). reflexivity.
Qed.

Lemma V3f_add_comm (a b : Vec3f) : V3f.add a b = V3f.add b a.
Proof.
  unfold V3f.add, map2_3, F32.add.
  rewrite (SFadd_comm _ _ (v3x a)), (SFadd_comm _ _ (v3y a)), (SFadd_comm _ _ (v3z a)).
  reflexivity.
Qed.

(** X1: [IslandConnection::add] gives the same connection, bit for bit,
    whichever of the two connections is added to the other. *)
Theorem IslandConnection_add_comm (c1 c2 : IslandConnection) :
  IslandConnection_add c1 c2 = IslandConnection_add c2 c1.
Proof.
  unfold IslandConnection_add, F32.add.
  rewrite (SFadd_comm _ _ (area c1)), (V3f_add_comm (centroid_accumulator c1)),
    (V2f_add_comm (second_moment_of_area_accumulator c1)).
  reflexivity.
Qed.

(** X2: [ObjectPart::add] gives the same part whichever of the two parts is
    added to the other: the moments of a merged part do not depend on
    which part survives the merge. *)
Theorem ObjectPart_add_comm (p1 p2 : ObjectPart) :
  ObjectPart_add p1 p2 = ObjectPart_add p2 p1.
Proof.
  unfold ObjectPart_add, F32.add.
  rewrite (SFadd_comm _ _ (part_volume p1)), (SFadd_comm _ _ (part_sticking_area p1)),
    (V3f_add_comm (part_volume_centroid_accumulator p1)),
    (V3f_add_comm (part_sticking_centroid_accumulator p1)),
    (V2f_add_comm (part_sticking_second_moment_of_area_accumulator p1)).
  reflexivity.
Qed.

(** ** ExtrusionPropertiesAccumulator *)

Lemma SFltb_irrefl (x : spec_float) : SFltb x x = false.
Proof.
  unfold SFltb. destruct x as [s|s| |s m e]; simpl; try reflexivity.
  - destruct s; reflexivity.
  - rewrite Z.compare_refl, Pos.compare_cont_refl. destruct s; reflexivity.
Qed.

Lemma SFltb_asym (x y : spec_float) : SFltb x y = true -> SFltb y x = false.
Proof.
  unfold SFltb. rewrite (SFcompare_antisym x y).
  destruct (SFcompare x y) as [[| |]|]; simpl; congruence.
Qed.

(** X3: [add_angle] never lowers [max_curvature], and leaves the accumulated
    distance alone; [add_distance] leaves the curvatures alone. *)
Theorem add_angle_keeps_the_maximum (acc : ExtrusionPropertiesAccumulator)
    (ccw_angle dist : float) :
  flt (max_curvature (add_angle acc ccw_angle)) (max_curvature acc) = false /\
  distance (add_angle acc ccw_angle) = distance acc /\
  curvature (add_distance acc dist) = curvature acc /\
  max_curvature (add_distance acc dist) = max_curvature acc.
Proof.
  split; [|repeat split].
  unfold add_angle, fmax, flt. simpl.
  destruct (SFltb (max_curvature acc) _) eqn:E.
  - apply SFltb_asym. exact E.
  - apply SFltb_irrefl.
Qed.

(** ** Island reckoner: the raster it returns *)

Lemma set_pixel_frame (g g' : PixelGrid) (position : Vec2f) (value : N) :
  set_pixel g position value = Ok g' -> same_frame g g'.
Proof.
  unfold set_pixel. intros H. apply bind_Ok in H as [i [_ H]].
  destruct (i <? length (pixels g))%nat; [|discriminate].
  inversion H; subst. unfold same_frame. simpl. rewrite length_insert. auto.
Qed.

Lemma same_frame_refl (g : PixelGrid) : same_frame g g.
Proof. unfold same_frame. auto. Qed.

Lemma same_frame_trans (g1 g2 g3 : PixelGrid) :
  same_frame g1 g2 -> same_frame g2 g3 -> same_frame g1 g3.
Proof. unfold same_frame. intros (?&?&?&?&?) (?&?&?&?&?). repeat split; congruence. Qed.

Lemma set_pixel_pixels (P : N -> Prop) (g g' : PixelGrid) (position : Vec2f) (value : N) :
  set_pixel g position value = Ok g' ->
  Forall P (pixels g) -> P value -> Forall P (pixels g').
Proof.
  unfold set_pixel. intros H Hall Hv. apply bind_Ok in H as [i [_ H]].
  destruct (i <? length (pixels g))%nat; [|discriminate].
  inversion H; subst. simpl. apply Forall_insert; assumption.
Qed.

Lemma distribute_loop_inv (P : N -> Prop) (fuel : nat) (p1 dir : Vec2f)
    (length step_size : float) (value : N) :
  forall (distributed_length : float) (g g' : PixelGrid),
    distribute_loop fuel p1 dir length step_size value distributed_length g = Ok g' ->
    same_frame g g' /\ (Forall P (pixels g) -> P value -> Forall P (pixels g')).
Proof.
  induction fuel as [|fuel IH]; intros dl g g' H; simpl in H.
  - destruct (flt dl length); [discriminate|]. inversion H; subst.
    split; [apply same_frame_refl | auto].
  - destruct (flt dl length).
    + apply bind_Ok in H as [g1 [H1 H]].
      destruct (IH _ _ _ H) as [Hf Hp]. split.
      * eapply same_frame_trans; [eapply set_pixel_frame; eauto | exact Hf].
      * intros Hall Hv. apply Hp; [|exact Hv]. eapply set_pixel_pixels; eauto.
    + inversion H; subst. split; [apply same_frame_refl | auto].
Qed.

Lemma distribute_edge_inv (P : N -> Prop) (fuel : nat) (g g' : PixelGrid)
    (p1 p2 : Vec2f) (value : N) :
  distribute_edge fuel g p1 p2 value = Ok g' ->
  same_frame g g' /\ (Forall P (pixels g) -> P value -> Forall P (pixels g')).
Proof.
  unfold distribute_edge. destruct (flt _ _).
  - intros H. inversion H; subst. split; [apply same_frame_refl | auto].
  - apply distribute_loop_inv.
Qed.

Lemma rasterize_inv (P : N -> Prop) (fuel : nat) (layer_lines : list ExtrusionLine)
    (mapping : list N) (g g' : PixelGrid) :
  rasterize fuel layer_lines mapping g = Ok g' ->
  Forall P mapping -> Forall P (pixels g) ->
  same_frame g g' /\ Forall P (pixels g').
Proof.
  unfold rasterize. intros H Hm Hg.
  revert H. apply (foldM_invariant (fun s => same_frame g s /\ Forall P (pixels s))).
  - intros s i s' [Hf Hp] H. unfold rasterize_step in H.
    apply bind_Ok in H as [island [Hi H]]. apply bind_Ok in H as [line [_ H]].
    apply vec_at_Ok in Hi.
    destruct (distribute_edge_inv P _ _ _ _ _ _ H) as [Hf' Hp'].
    split; [eapply same_frame_trans; eauto|].
    apply Hp'; [exact Hp|]. rewrite Forall_forall in Hm. apply Hm.
    eapply list_elem_of_lookup_2; eauto.
  - split; [apply same_frame_refl | exact Hg].
Qed.

Lemma clear_frame (g : PixelGrid) : same_frame g (clear g).
Proof. unfold same_frame, clear. simpl. rewrite length_replicate. auto. Qed.

Lemma valid_pixel_mono (n m : nat) (p : N) : (n <= m)%nat -> valid_pixel n p -> valid_pixel m p.
Proof. unfold valid_pixel. intros Hle [H|H]; [left; exact H | right; lia]. Qed.

Lemma island_line_step_mapping (layer : Layer) (first_layer : bool) (fw : float)
    (layer_lines : list ExtrusionLine) (island_idx : N) (n : nat)
    (st st' : Island * list N) (lidx : nat) :
  valid_pixel n island_idx ->
  Forall (valid_pixel n) (snd st) ->
  island_line_step layer first_layer fw layer_lines island_idx st lidx = Ok st' ->
  Forall (valid_pixel n) (snd st').
Proof.
  unfold island_line_step. destruct st as [island mapping]. simpl.
  intros Hidx Hall H. apply bind_Ok in H as [m [Hm H]].
  apply bind_Ok in H as [line [_ H]].
  destruct (origin_entity line); [|discriminate].
  inversion H; subst; clear H. simpl.
  unfold vec_update in Hm. destruct (mapping !! lidx); [|discriminate].
  inversion Hm; subst. apply Forall_insert; assumption.
Qed.

Lemma build_island_step_mapping (layer : Layer) (first_layer : bool) (fw : float)
    (layer_lines : list ExtrusionLine) (extrusions : list (nat * nat))
    (st st' : list Island * list N) (island_ex : list nat) :
  Forall (valid_pixel (length (fst st))) (snd st) ->
  build_island_step layer first_layer fw layer_lines extrusions st island_ex = Ok st' ->
  Forall (valid_pixel (length (fst st'))) (snd st').
Proof.
  unfold build_island_step. intros Hall H.
  destruct island_ex as [|ex0 rest]; [inversion H; subst; exact Hall|].
  apply bind_Ok in H as [range0 [_ H]].
  apply bind_Ok in H as [im [Him H]].
  inversion H; subst; clear H. simpl. rewrite length_app. simpl.
  assert (Hidx : valid_pixel (length (fst st) + 1) (N.of_nat (length (fst st))))
    by (right; lia).
  revert Him.
  apply (foldM_invariant
           (fun s : Island * list N => Forall (valid_pixel (length (fst st) + 1)) (snd s))).
  - intros s e s' Hs H. apply bind_Ok in H as [range [_ H]].
    revert H.
    apply (foldM_invariant
             (fun s : Island * list N => Forall (valid_pixel (length (fst st) + 1)) (snd s)));
      [|exact Hs].
    intros s1 l s1' Hs1 H1. eapply island_line_step_mapping; eauto.
  - simpl. eapply Forall_impl; [exact Hall|].
    intros p. apply valid_pixel_mono. lia.
Qed.

Lemma build_islands_mapping (layer : Layer) (first_layer : bool)
    (layer_lines : list ExtrusionLine) (built : list Island) (mapping : list N) :
  build_islands layer first_layer layer_lines = Ok (built, mapping) ->
  Forall (valid_pixel (length built)) mapping /\
  Forall (fun isl => connected_islands isl = ∅) built.
Proof.
  unfold build_islands. intros H.
  apply bind_Ok in H as [extrusions [_ H]].
  apply bind_Ok in H as [seeds [_ H]]. cbv zeta in H.
  apply bind_Ok in H as [ie1 [_ H]].
  apply bind_Ok in H as [ie2 [_ H]].
  apply bind_Ok in H as [region0 [_ H]].
  split.
  - change mapping with (snd (built, mapping)).
    change built with (fst (built, mapping)) at 1.
    revert H.
    apply (foldM_invariant
             (fun s : list Island * list N => Forall (valid_pixel (length (fst s))) (snd s))).
    + intros s e s'. apply build_island_step_mapping.
    + simpl. apply Forall_replicate. left. reflexivity.
  - change built with (fst (built, mapping)).
    revert H.
    apply (foldM_invariant
             (fun s : list Island * list N =>
                Forall (fun isl => connected_islands isl = ∅) (fst s))).
    + intros s e s'. apply build_island_step_connections.
    + constructor.
Qed.

Lemma reckon_islands_raster (fuel : nat) (layer : Layer) (first_layer : bool)
    (prev_layer_islands_count : N) (prev_layer_grid : PixelGrid)
    (layer_lines : list ExtrusionLine) (params : Params)
    (result_islands : LayerIslands) (current_layer_grid : PixelGrid) :
  reckon_islands fuel layer first_layer prev_layer_islands_count prev_layer_grid
                 layer_lines params = Ok (result_islands, current_layer_grid) ->
  same_frame prev_layer_grid current_layer_grid /\
  Forall (valid_pixel (length (islands result_islands))) (pixels current_layer_grid).
Proof.
  unfold reckon_islands. intros H.
  apply bind_Ok in H as [[built mapping] [Hbuilt H]]. cbv zeta in H. simpl in H.
  apply bind_Ok in H as [grid [Hr H]].
  apply bind_Ok in H as [isls [Hfold H]]. inversion H; subst; clear H. simpl.
  destruct (build_islands_mapping _ _ _ _ _ Hbuilt) as [Hm _].
  rewrite (overlap_fold_length _ _ _ _ _ _ Hfold).
  destruct (rasterize_inv (valid_pixel (length built)) _ _ _ _ _ Hr Hm) as [Hf Hp].
  { simpl. apply Forall_replicate. left. reflexivity. }
  split; [|exact Hp].
  eapply same_frame_trans; [apply clear_frame | exact Hf].
Qed.

(** X4: The grid which [reckon_islands] returns has the frame of the grid of
    the previous layer and as many pixels, and each of its pixels is empty
    or is the index of an island of the islands returned. *)
Theorem reckon_islands_raster_is_valid (fuel : nat) (layer : Layer) (first_layer : bool)
    (prev_layer_islands_count : N) (prev_layer_grid : PixelGrid)
    (layer_lines : list ExtrusionLine) (params : Params)
    (result_islands : LayerIslands) (current_layer_grid : PixelGrid) :
  reckon_islands fuel layer first_layer prev_layer_islands_count prev_layer_grid
                 layer_lines params = Ok (result_islands, current_layer_grid) ->
  same_frame prev_layer_grid current_layer_grid /\
  Forall (valid_pixel (length (islands result_islands))) (pixels current_layer_grid).
Proof. apply reckon_islands_raster. Qed.

Lemma reckon_islands_raster_is_valid_witness :
  same_frame OverlapSample.first_grid (snd OverlapSample.second) /\
  Forall (valid_pixel (length (islands (fst OverlapSample.second))))
         (pixels (snd OverlapSample.second)).
Proof.
  apply (reckon_islands_raster_is_valid 100 OverlapSample.layer1 false 0
           OverlapSample.first_grid OverlapSample.layer_lines Sample.params).
  vm_compute. reflexivity.
Defined.

Lemma get_pixel_elem (g : PixelGrid) (c : Vec2i) (p : N) :
  get_pixel g c = Ok p -> p ∈ pixels g.
Proof.
  unfold get_pixel. intros H. apply bind_Ok in H as [i [_ H]].
  apply vec_at_Ok in H. eapply list_elem_of_lookup_2; eauto.
Qed.

Lemma reckon_islands_no_overlap (fuel : nat) (layer : Layer)
    (first_layer : bool) (prev_layer_islands_count : N) (prev_layer_grid : PixelGrid)
    (layer_lines : list ExtrusionLine) (params : Params)
    (result_islands : LayerIslands) (current_layer_grid : PixelGrid) :
  Forall (fun p => p = NULL_ISLAND) (pixels prev_layer_grid) ->
  reckon_islands fuel layer first_layer prev_layer_islands_count prev_layer_grid
                 layer_lines params = Ok (result_islands, current_layer_grid) ->
  Forall (fun isl => connected_islands isl = ∅) (islands result_islands).
Proof.
  unfold reckon_islands. intros Hnull H.
  apply bind_Ok in H as [[built mapping] [Hbuilt H]]. cbv zeta in H. simpl in H.
  apply bind_Ok in H as [grid [Hr H]].
  apply bind_Ok in H as [isls [Hfold H]]. inversion H; subst; clear H. simpl.
  destruct (build_islands_mapping _ _ _ _ _ Hbuilt) as [_ Hnone].
  revert Hfold.
  apply (foldM_invariant (fun s => Forall (fun isl => connected_islands isl = ∅) s));
    [|exact Hnone].
  intros s c s' Hs H. unfold overlap_cell in H.
  apply bind_Ok in H as [a [_ H]].
  destruct (N.eqb a NULL_ISLAND); [inversion H; subst; exact Hs|].
  apply bind_Ok in H as [b [Hb H]].
  apply get_pixel_elem in Hb. rewrite Forall_forall in Hnull.
  rewrite (Hnull b Hb) in H. rewrite N.eqb_refl in H. inversion H; subst; exact Hs.
Qed.

(** X5: Over a previous grid without any island, [reckon_islands] returns
    islands without connections: every island of such a layer starts a new
    object part. *)
Theorem reckon_islands_over_an_empty_raster (fuel : nat) (layer : Layer)
    (first_layer : bool) (prev_layer_islands_count : N) (prev_layer_grid : PixelGrid)
    (layer_lines : list ExtrusionLine) (params : Params)
    (result_islands : LayerIslands) (current_layer_grid : PixelGrid) :
  Forall (fun p => p = NULL_ISLAND) (pixels prev_layer_grid) ->
  reckon_islands fuel layer first_layer prev_layer_islands_count prev_layer_grid
                 layer_lines params = Ok (result_islands, current_layer_grid) ->
  Forall (fun isl => connected_islands isl = ∅) (islands result_islands).
Proof. apply reckon_islands_no_overlap. Qed.

Lemma reckon_islands_over_an_empty_raster_witness :
  Forall (fun isl => connected_islands isl = ∅) (islands (fst RasterSample.reckoned)) /\
  length (islands (fst RasterSample.reckoned)) = 2%nat.
Proof.
  split; [|vm_compute; reflexivity].
  apply (reckon_islands_over_an_empty_raster 100 RasterSample.layer true 0
           RasterSample.grid0 RasterSample.layer_lines Sample.params
           (fst RasterSample.reckoned) (snd RasterSample.reckoned)).
  - vm_compute. repeat constructor.
  - vm_compute. reflexivity.
Defined.

(** ** The graph of the layers *)

Lemma reckon_islands_layer_z (fuel : nat) (layer : Layer) (first_layer : bool) (n : N)
    (prev : PixelGrid) (layer_lines : list ExtrusionLine) (params : Params)
    (res : LayerIslands) (grid : PixelGrid) :
  reckon_islands fuel layer first_layer n prev layer_lines params = Ok (res, grid) ->
  layer_z res = to_float (slice_z layer).
Proof.
  unfold reckon_islands. intros H.
  apply bind_Ok in H as [built [_ H]]. cbv zeta in H.
  apply bind_Ok in H as [g [_ H]].
  apply bind_Ok in H as [isls [_ H]]. inversion H; subst. reflexivity.
Qed.

Lemma build_layers_graph (unscale : Z -> double) (angle : Vec2f -> Vec2f -> float)
    (PI : double) (fuel : nat) (params : Params) (ls : list Layer) :
  forall st st',
    foldM (build_layer unscale angle PI fuel params) ls st = Ok st' ->
    exists gs,
      islands_graph st' = islands_graph st ++ gs /\
      Forall2 (fun layer li => layer_z li = to_float (slice_z layer)) ls gs.
Proof.
  induction ls as [|layer ls IH]; intros st st' H; simpl in H.
  - inversion H; subst. exists []. rewrite app_nil_r. split; [reflexivity | constructor].
  - destruct (build_layer unscale angle PI fuel params st layer) as [st1| |] eqn:E;
      try discriminate.
    destruct (IH _ _ H) as (gs & Hg & Hall).
    unfold build_layer in E. apply bind_Ok in E as [li [_ E]].
    apply bind_Ok in E as [r [Hr E]]. inversion E; subst; clear E. simpl in Hg.
    exists (fst r :: gs). split.
    + rewrite Hg, <- app_assoc. reflexivity.
    + constructor; [|exact Hall]. destruct r as [res g]. simpl.
      eapply reckon_islands_layer_z; eauto.
Qed.

(** X6: When [check_extrusions_and_build_graph] succeeds, its graph has one
    entry for every layer of the object, in the order of the layers, with
    the height of the layer converted to [float]; and the islands of the
    base layer have no connections. *)
Theorem graph_follows_the_layers (unscale : Z -> double)
    (angle : Vec2f -> Vec2f -> float) (PI : double) (fuel : nat)
    (po : PrintObject) (params : Params) (issues : Issues) (graph : list LayerIslands) :
  check_extrusions_and_build_graph unscale angle PI fuel po params = Ok (issues, graph) ->
  Forall2 (fun layer li => layer_z li = to_float (slice_z layer)) (layers po) graph /\
  exists base rest,
    graph = base :: rest /\
    Forall (fun isl => connected_islands isl = ∅) (islands base).
Proof.
  unfold check_extrusions_and_build_graph. intros H.
  apply bind_Ok in H as [last_layer [_ H]].
  apply bind_Ok in H as [region0 [_ H]].
  apply bind_Ok in H as [g0 [Hg0 H]].
  apply bind_Ok in H as [layer [Hl H]].
  apply bind_Ok in H as [layer_lines [_ H]].
  apply bind_Ok in H as [[res g] [Hr H]].
  apply bind_Ok in H as [st [Hst H]]. inversion H; subst; clear H.
  destruct (build_layers_graph _ _ _ _ _ _ _ _ Hst) as (gs & Hg & Hall).
  simpl in Hg. rewrite Hg.
  apply vec_at_Ok in Hl.
  destruct (layers po) as [|l0 ls] eqn:El; [discriminate|].
  simpl in Hl. inversion Hl; subst l0. simpl in Hall.
  split.
  - constructor; [eapply reckon_islands_layer_z; eauto | exact Hall].
  - exists res, gs. split; [reflexivity|].
    eapply reckon_islands_no_overlap; [|exact Hr].
    unfold PixelGrid_new in Hg0. cbv zeta in Hg0.
    destruct (_ <? 0); [discriminate|]. inversion Hg0; subst. simpl.
    apply Forall_replicate. reflexivity.
Qed.

Lemma graph_follows_the_layers_witness :
  Forall2 (fun layer li => layer_z li = to_float (slice_z layer))
          (layers GlobalSample.po) GlobalSample.graph.
Proof.
  apply (graph_follows_the_layers Sample.unscale Sample.angle Sample.PI 100
           GlobalSample.po Sample.params (mkIssues []) GlobalSample.graph).
  vm_compute. reflexivity.
Defined.

(** ** SupportGridFilter *)

Lemma cell_index_same_cells (f f' : SupportGridFilter) (position : Vec3f) :
  same_cells f f' -> cell_index f' position = cell_index f position.
Proof.
  intros (H1 & H2 & H3). unfold cell_index, to_cell_index, to_cell_coords.
  rewrite H1, H2, H3. reflexivity.
Qed.

Lemma take_position_Ok (f f' : SupportGridFilter) (position : Vec3f) :
  take_position f position = Ok f' ->
  exists i, cell_index f position = Ok i /\ same_cells f f' /\
            taken_cells f' = {[ i ]} ∪ taken_cells f.
Proof.
  unfold take_position. intros H. apply bind_Ok in H as [i [Hi H]].
  inversion H; subst. exists i. split; [exact Hi|].
  split; [unfold same_cells; auto | reflexivity].
Qed.

(** X7: After [take_position] the position is taken; a position which was
    taken stays taken; a position in another cell is answered as before. *)
Theorem take_position_then_position_taken (f f' : SupportGridFilter) (position : Vec3f) :
  take_position f position = Ok f' ->
  position_taken f' position = Ok true /\
  forall q : Vec3f,
    (position_taken f q = Ok true -> position_taken f' q = Ok true) /\
    (cell_index f q <> cell_index f position -> position_taken f' q = position_taken f q).
Proof.
  intros H. destruct (take_position_Ok _ _ _ H) as (i & Hi & Hsame & Ht).
  assert (Hpt : forall g q, position_taken g q
                = (j <- cell_index g q ;; Ok (bool_decide (j ∈ taken_cells g))))
    by reflexivity.
  split.
  - rewrite Hpt, (cell_index_same_cells _ _ _ Hsame), Hi. simpl.
    rewrite Ht. rewrite bool_decide_eq_true_2 by set_solver. reflexivity.
  - intros q. rewrite !Hpt, (cell_index_same_cells _ _ _ Hsame).
    destruct (cell_index f q) as [j| |] eqn:Hj; simpl; try (split; congruence).
    rewrite Ht. split.
    + intros Hq. injection Hq as Hq'. apply bool_decide_eq_true in Hq'.
      f_equal. apply bool_decide_eq_true. set_solver.
    + intros Hne. f_equal. apply bool_decide_ext.
      assert (j <> i) by (intros ->; apply Hne; symmetry; exact Hi).
      set_solver.
Qed.

Lemma take_position_then_position_taken_witness :
  exists f', take_position GlobalSample.filter (mkVec3 F32.zero F32.zero F32.zero) = Ok f' /\
             position_taken f' (mkVec3 F32.zero F32.zero F32.zero) = Ok true.
Proof.
  destruct (take_position GlobalSample.filter (mkVec3 F32.zero F32.zero F32.zero))
    as [f'| |] eqn:E.
  - exists f'. split; [reflexivity|].
    exact (proj1 (take_position_then_position_taken _ _ _ E)).
  - vm_compute in E. discriminate E.
  - vm_compute in E. discriminate E.
Defined.

(** X8: In the filter made for a print object no position is taken. *)
Theorem new_filter_has_no_taken_position (unscale : Z -> double) (po : PrintObject)
    (voxel_size : float) (position : Vec3f) :
  position_taken (SupportGridFilter_new unscale po voxel_size) position <> Ok true.
Proof.
  unfold position_taken. destruct (to_cell_index _ _) as [i| |]; simpl; discriminate.
Qed.

(** ** Global stability: the supports it plants *)

Lemma same_cells_trans (f1 f2 f3 : SupportGridFilter) :
  same_cells f1 f2 -> same_cells f2 f3 -> same_cells f1 f3.
Proof. unfold same_cells. intros (?&?&?) (?&?&?). repeat split; congruence. Qed.

Lemma place_support_planted (PI : double) (g0 : SupportGridFilter) (island : Island)
    (layer_z : float) (params : Params) (st st' : LineState) (line : ExtrusionLine)
    (force : float) :
  planted g0 (ls_issues st) (supports_presence_grid st) ->
  place_support PI island layer_z params st line force = Ok st' ->
  planted g0 (ls_issues st') (supports_presence_grid st').
Proof.
  unfold place_support. intros Hp H.
  apply bind_Ok in H as [[[d i0] target] [_ H]].
  apply bind_Ok in H as [taken [Htaken H]].
  destruct taken; [inversion H; subst; exact Hp|].
  apply bind_Ok in H as [grid [Hgrid H]]. inversion H; subst; clear H. simpl.
  destruct Hp as (Hsame & Hsub & Hnd & Hall).
  destruct (take_position_Ok _ _ _ Hgrid) as (i & Hi & Hsame' & Ht).
  unfold position_taken in Htaken. fold (cell_index (supports_presence_grid st)
                                          (to_3d target layer_z)) in Htaken.
  rewrite Hi in Htaken. simpl in Htaken. injection Htaken as Hfree.
  apply bool_decide_eq_false in Hfree.
  assert (Hcell : cell_index g0 (to_3d target layer_z) = Ok i).
  { rewrite <- (cell_index_same_cells _ _ _ Hsame). exact Hi. }
  split; [eapply same_cells_trans; eauto|].
  split; [rewrite Ht; set_solver|].
  split.
  - rewrite map_app. simpl. apply NoDup_app. split; [exact Hnd|]. split.
    + intros r Hr Hr'. apply list_elem_of_singleton in Hr'. subst r.
      apply list_elem_of_fmap in Hr as (p & Hp & Hin).
      rewrite Forall_forall in Hall. destruct (Hall p Hin) as (j & Hj & _ & Hjt).
      unfold cell_of in Hp at 1. simpl in Hp. rewrite Hcell, Hj in Hp.
      injection Hp as ->. contradiction.
    + apply NoDup_singleton.
  - apply Forall_app. split.
    + eapply Forall_impl; [exact Hall|]. intros p (j & Hj & Hj0 & Hjt).
      exists j. repeat split; auto. rewrite Ht. set_solver.
    + constructor; [|constructor]. exists i. unfold cell_of. simpl.
      split; [exact Hcell|]. split; [set_solver | rewrite Ht; set_solver].
Qed.

Lemma check_external_line_planted (PI EPSILON : double) (g0 : SupportGridFilter)
    (island : Island) (layer_z : float) (params : Params) (st st' : LineState)
    (line : ExtrusionLine) :
  planted g0 (ls_issues st) (supports_presence_grid st) ->
  check_external_line PI EPSILON island layer_z params st line = Ok st' ->
  planted g0 (ls_issues st') (supports_presence_grid st').
Proof.
  unfold check_external_line. intros Hp H.
  destruct (_ || _); [inversion H; subst; exact Hp|].
  destruct (fgt _ F32.zero).
  - eapply place_support_planted; [|exact H]. exact Hp.
  - inversion H; subst; exact Hp.
Qed.

Lemma check_island_planted (PI EPSILON : double) (g0 : SupportGridFilter) (fuel : nat)
    (layer_z : float) (params : Params) (st st' : CheckState) (ii : nat * Island) :
  planted g0 (cs_issues st) (cs_grid st) ->
  check_island PI EPSILON fuel layer_z params st ii = Ok st' ->
  planted g0 (cs_issues st') (cs_grid st').
Proof.
  unfold check_island. intros Hp H.
  apply bind_Ok in H as [pid [_ H]].
  apply bind_Ok in H as [r [_ H]].
  apply bind_Ok in H as [part [_ H]].
  apply bind_Ok in H as [ls [Hls H]].
  inversion H; subst; simpl.
  revert Hls.
  apply (foldM_invariant (fun s => planted g0 (ls_issues s) (supports_presence_grid s))).
  - intros s a s'. apply check_external_line_planted.
  - exact Hp.
Qed.

Lemma check_layer_planted (PI EPSILON : double) (g0 : SupportGridFilter) (fuel : nat)
    (params : Params) (st st' : CheckState) (layer : LayerIslands) :
  planted g0 (cs_issues st) (cs_grid st) ->
  check_layer PI EPSILON fuel params st layer = Ok st' ->
  planted g0 (cs_issues st') (cs_grid st').
Proof.
  unfold check_layer. intros Hp H.
  apply bind_Ok in H as [ps [_ H]].
  revert H. apply (foldM_invariant (fun s => planted g0 (cs_issues s) (cs_grid s))).
  - intros s a s'. apply check_island_planted.
  - exact Hp.
Qed.

(** X9: The supports which the global pass plants lie in distinct cells of the
    filter, and none lies in a cell which was taken when the pass began. *)
Theorem global_supports_lie_in_distinct_cells (PI EPSILON : double) (fuel : nat)
    (supports_presence_grid : SupportGridFilter) (islands_graph : list LayerIslands)
    (params : Params) (issues : Issues) :
  check_global_stability PI EPSILON fuel supports_presence_grid islands_graph params
    = Ok issues ->
  NoDup (map (cell_of supports_presence_grid) (support_points issues)) /\
  Forall (fun p => exists i, cell_of supports_presence_grid p = Ok i /\
                             (i ∉ taken_cells supports_presence_grid))
         (support_points issues).
Proof.
  unfold check_global_stability. intros H.
  apply bind_Ok in H as [st [Hst H]]. inversion H; subst; clear H. simpl.
  assert (Hp : planted supports_presence_grid (cs_issues st) (cs_grid st)).
  { revert Hst. unfold check_global_stability_run.
    apply (foldM_invariant
             (fun s => planted supports_presence_grid (cs_issues s) (cs_grid s))).
    - intros s a s'. apply check_layer_planted.
    - split; [unfold same_cells; auto|]. split; [set_solver|].
      split; constructor. }
  destruct Hp as (_ & _ & Hnd & Hall). split; [exact Hnd|].
  eapply Forall_impl; [exact Hall|]. intros p (i & Hi & H0 & _). eauto.
Qed.

Lemma global_supports_lie_in_distinct_cells_witness :
  exists issues,
    check_global_stability Sample.PI Sample.EPSILON 100 GlobalSample.filter
      GlobalSample.graph Sample.params = Ok issues /\
    length (support_points issues) = 1%nat /\
    NoDup (map (cell_of GlobalSample.filter) (support_points issues)).
Proof.
  destruct (check_global_stability Sample.PI Sample.EPSILON 100 GlobalSample.filter
              GlobalSample.graph Sample.params) as [issues| |] eqn:E.
  - exists issues. split; [reflexivity|]. split.
    + revert E. vm_compute. intros E. injection E as <-. reflexivity.
    + exact (proj1 (global_supports_lie_in_distinct_cells _ _ _ _ _ _ _ E)).
  - vm_compute in E. discriminate E.
  - vm_compute in E. discriminate E.
Defined.

(** ** Local stability: lines and issues of a run *)

Lemma foldM_seq_invariant {St} (J : nat -> St -> Prop) (body : St -> nat -> result St)
    (n : nat) :
  (forall i s s', (i < n)%nat -> J i s -> body s i = Ok s' -> J (S i) s') ->
  forall s0 s', J 0%nat s0 -> foldM body (seq 0 n) s0 = Ok s' -> J n s'.
Proof.
  intros Hstep.
  assert (G : forall k a s0 s', (a + k = n)%nat -> J a s0 ->
                foldM body (seq a k) s0 = Ok s' -> J n s').
  { induction k as [|k IH]; intros a s0 s' Hak Ha H; simpl in H.
    - inversion H; subst. replace (a + 0)%nat with a by lia. exact Ha.
    - destruct (body s0 a) as [s1| |] eqn:E; try discriminate.
      apply (IH (S a) s1 s'); [lia | | exact H].
      apply (Hstep a s0 s1); [lia | exact Ha | exact E]. }
  intros s0 s' H0 H. apply (G n 0%nat s0 s'); auto.
Qed.

Lemma same_geometry_refl (l : ExtrusionLine) : same_geometry l l.
Proof. unfold same_geometry. auto. Qed.

Lemma same_geometry_trans (l1 l2 l3 : ExtrusionLine) :
  same_geometry l1 l2 -> same_geometry l2 l3 -> same_geometry l1 l3.
Proof. unfold same_geometry. intros (?&?&?&?) (?&?&?&?). repeat split; congruence. Qed.

(** one turn of the loop rewrites the line of its index only, keeps its
    geometry, and either leaves flag and issues or sets the flag and adds
    the support point of the line *)
Lemma check_line_shape (angle : Vec2f -> Vec2f -> float) (PI : double)
    (params : Params) (layer_z flow_width : float) (prev : LinesDistancer)
    (st st' : LocalState) (idx : nat) :
  check_line angle PI params layer_z flow_width prev st idx = Ok st' ->
  exists line cl,
    st_lines st !! idx = Some line /\
    st_lines st' = <[idx := cl]> (st_lines st) /\
    same_geometry cl line /\
    ((support_point_generated cl = support_point_generated line /\
      st_issues st' = st_issues st) \/
     (support_point_generated cl = true /\
      st_issues st' = st_issues st ++ [bridging_support_point layer_z line])).
Proof.
  unfold check_line. intros H.
  apply bind_Ok in H as [line [Hl H]]. apply vec_at_Ok in Hl.
  apply bind_Ok in H as [[[dist nidx] npt] [_ H]].
  exists line.
  set (br := if flt (fabs dist) flow_width then _ else _) in H.
  assert (Hbr : exists b iss l1, br = (b, iss, l1) /\ same_geometry l1 line /\
            ((support_point_generated l1 = support_point_generated line /\
              iss = st_issues st) \/
             (support_point_generated l1 = true /\
              iss = st_issues st ++ [bridging_support_point layer_z line]))).
  { subst br. destruct (flt (fabs dist) flow_width).
    - eexists _, _, _. split; [reflexivity|]. split; [apply same_geometry_refl|].
      left. auto.
    - destruct (fgt _ _).
      + eexists _, _, _. split; [reflexivity|].
        split; [unfold same_geometry; simpl; auto|]. right. auto.
      + eexists _, _, _. split; [reflexivity|]. split; [apply same_geometry_refl|].
        left. auto. }
  destruct Hbr as (b & iss & l1 & -> & Hg1 & Hcase).
  apply bind_Ok in H as [l2 [Hl2 H]].
  assert (H2 : same_geometry l2 l1 /\ support_point_generated l2 = support_point_generated l1).
  { destruct (flt (fabs dist) _).
    - apply bind_Ok in Hl2 as [nl [_ Hl2]]. inversion Hl2; subst.
      split; [unfold same_geometry; simpl; auto | reflexivity].
    - inversion Hl2; subst. split; [apply same_geometry_refl | reflexivity]. }
  destruct H2 as [Hg2 Hf2].
  destruct (fgt (to_double dist) _); inversion H; subst; clear H; simpl;
    eexists; (split; [exact Hl|]); (split; [reflexivity|]);
    (split; [unfold same_geometry in *; simpl; intuition congruence|]);
    simpl; rewrite Hf2; exact Hcase.
Qed.

Lemma split_pairs_unflagged (unscale : Z -> double) (params : Params)
    (entity : ExtrusionEntity) (points : list Point) :
  Forall (fun l => support_point_generated l = false)
         (split_pairs unscale params entity points).
Proof.
  rewrite split_pairs_concat. apply Forall_concat, Forall_map, Forall_forall.
  intros pq _. unfold split_pair. apply Forall_map, Forall_forall. reflexivity.
Qed.

Lemma resample_unflagged (unscale : Z -> double) (params : Params)
    (entity : ExtrusionEntity) (lines : list ExtrusionLine) :
  resample unscale params entity = Ok lines ->
  Forall (fun l => support_point_generated l = false) lines.
Proof.
  unfold resample. intros H. apply bind_Ok in H as [p0 [_ H]]. inversion H; subst.
  constructor; [reflexivity | apply split_pairs_unflagged].
Qed.

Lemma check_line_invariant (angle : Vec2f -> Vec2f -> float) (PI : double)
    (params : Params) (z flow_width : float) (prev : LinesDistancer)
    (lines0 : list ExtrusionLine) (issues0 : list SupportPoint)
    (i : nat) (st st' : LocalState) :
  path_loop_invariant lines0 issues0 z i st ->
  check_line angle PI params z flow_width prev st i = Ok st' ->
  path_loop_invariant lines0 issues0 z (S i) st'.
Proof.
  intros (Hgeo & Hiss & Hdrop) H.
  destruct (check_line_shape _ _ _ _ _ _ _ _ _ H) as (line & cl & Hl & HL & Hg & Hcase).
  assert (Hi : (i < length (st_lines st))%nat) by (eapply lookup_lt_Some; eauto).
  assert (Hflag : support_point_generated line = false).
  { rewrite Forall_forall in Hdrop. apply Hdrop.
    apply list_elem_of_lookup. exists 0%nat. rewrite lookup_drop.
    replace (i + 0)%nat with i by lia. exact Hl. }
  assert (Hsp : bridging_support_point z cl = bridging_support_point z line).
  { unfold bridging_support_point. destruct Hg as (_ & -> & _). reflexivity. }
  unfold path_loop_invariant. rewrite HL. split; [|split].
  - destruct (Forall2_lookup_l _ _ _ _ _ Hgeo Hl) as (r & Hr & Hgr).
    rewrite <- (list_insert_id lines0 i r Hr).
    apply Forall2_insert; [exact Hgeo|]. eapply same_geometry_trans; eauto.
  - rewrite (take_S_r _ _ cl) by (apply list_lookup_insert_eq; exact Hi).
    rewrite take_insert_ge by lia.
    rewrite List.filter_app, map_app, app_assoc, <- Hiss. simpl.
    destruct Hcase as [[Hf Hi'] | [Hf Hi']]; rewrite Hi'.
    + rewrite Hf, Hflag. simpl. rewrite app_nil_r. reflexivity.
    + rewrite Hf. simpl. rewrite Hsp. reflexivity.
  - rewrite drop_insert_lt by lia.
    rewrite (drop_S _ _ _ Hl) in Hdrop. inversion Hdrop; assumption.
Qed.

Lemma check_path_shape (unscale : Z -> double)
    (angle : Vec2f -> Vec2f -> float) (PI : double) (entity : ExtrusionEntity)
    (checked_lines_out : list ExtrusionLine) (layer_z : float)
    (layer_region : LayerRegion) (prev_layer_lines : LinesDistancer)
    (issues : Issues) (params : Params)
    (lines_out : list ExtrusionLine) (issues_out : Issues) :
  check_path unscale angle PI entity checked_lines_out layer_z layer_region
             prev_layer_lines issues params = Ok (lines_out, issues_out) ->
  exists resampled checked,
    resample unscale params entity = Ok resampled /\
    lines_out = checked_lines_out ++ checked /\
    Forall2 same_geometry checked resampled /\
    support_points issues_out =
      support_points issues
      ++ map (bridging_support_point layer_z)
             (List.filter support_point_generated checked).
Proof.
  unfold check_path. intros H.
  apply bind_Ok in H as [lines [Hr H]].
  apply bind_Ok in H as [st [Hst H]]. inversion H; subst; clear H. simpl.
  exists lines, (st_lines st). split; [exact Hr|]. split; [reflexivity|].
  assert (HJ : path_loop_invariant lines (support_points issues) layer_z
                 (length lines) st).
  { revert Hst.
    apply (foldM_seq_invariant
             (path_loop_invariant lines (support_points issues) layer_z)).
    - intros i s s' _. apply check_line_invariant.
    - unfold path_loop_invariant, initial_state. simpl. split; [|split].
      + apply Forall2_same_length_lookup. split; [reflexivity|].
        intros i x y Hx Hy. rewrite Hx in Hy. inversion Hy; subst.
        apply same_geometry_refl.
      + rewrite app_nil_r. reflexivity.
      + eapply resample_unflagged; eauto. }
  destruct HJ as (Hgeo & Hiss & _). split; [exact Hgeo|].
  rewrite Hiss. rewrite take_ge; [reflexivity|].
  apply Forall2_length in Hgeo. lia.
Qed.



(** X10: In a run of the local analyzer over a path, the lines added to
    [checked_lines_out] are the resampled lines of the path, one for one
    and in their order, with their geometry unchanged: the analysis only
    sets the flags and measures of a line. *)
Theorem check_path_keeps_resampled_geometry (unscale : Z -> double)
    (angle : Vec2f -> Vec2f -> float) (PI : double) (entity : ExtrusionEntity)
    (checked_lines_out : list ExtrusionLine) (layer_z : float)
    (layer_region : LayerRegion) (prev_layer_lines : LinesDistancer)
    (issues : Issues) (params : Params)
    (lines_out : list ExtrusionLine) (issues_out : Issues) :
  check_path unscale angle PI entity checked_lines_out layer_z layer_region
             prev_layer_lines issues params = Ok (lines_out, issues_out) ->
  exists resampled checked,
    resample unscale params entity = Ok resampled /\
    lines_out = checked_lines_out ++ checked /\
    Forall2 same_geometry checked resampled.
Proof.
  intros H.
  destruct (check_path_shape _ _ _ _ _ _ _ _ _ _ _ _ H)
    as (resampled & checked & Hr & Hl & Hg & _).
  exists resampled, checked. auto.
Qed.

Lemma check_path_keeps_resampled_geometry_witness :
  exists lines_out issues_out resampled,
    check_path Sample.unscale Sample.angle Sample.PI LocalSample.path []
               LocalSample.layer_z LocalSample.region LocalSample.prev_layer_lines
               (mkIssues []) Sample.params = Ok (lines_out, issues_out) /\
    resample Sample.unscale Sample.params LocalSample.path = Ok resampled /\
    Forall2 same_geometry lines_out resampled.
Proof.
  destruct (check_path Sample.unscale Sample.angle Sample.PI LocalSample.path []
              LocalSample.layer_z LocalSample.region LocalSample.prev_layer_lines
              (mkIssues []) Sample.params) as [[lines_out issues_out]| |] eqn:E.
  - destruct (check_path_keeps_resampled_geometry _ _ _ _ _ _ _ _ _ _ _ _ E)
      as (resampled & checked & Hr & -> & Hg).
    exists checked, issues_out, resampled. auto.
  - vm_compute in E. discriminate E.
  - vm_compute in E. discriminate E.
Defined.

Lemma ExtrusionEntity_nested_ind (P : ExtrusionEntity -> Prop) :
  (forall addr r coll loop pts mm3 members,
     Forall P members -> P (mkEntity addr r coll loop pts mm3 members)) ->
  forall e, P e.
Proof.
  intros H. fix IH 1. intros [a r c l p m ms]. apply H.
  induction ms as [|x xs IHxs]; constructor; [apply IH | exact IHxs].
Qed.

(** X11: A run of [check_extrusion_entity_stability] over an entity, nested
    collections included, only appends: the lines and the issues it was
    given come first and unchanged; the support points it adds are those of
    the added lines flagged [support_point_generated], in the order of the
    lines, each on the layer, with force 0 and direction (0, 0, -1). *)
Theorem local_analysis_only_appends (unscale : Z -> double)
    (angle : Vec2f -> Vec2f -> float) (PI : double) (layer_z : float)
    (layer_region : LayerRegion) (prev_layer_lines : LinesDistancer) (params : Params)
    (entity : ExtrusionEntity) :
  forall (checked_lines_out : list ExtrusionLine) (issues : Issues)
         (lines_out : list ExtrusionLine) (issues_out : Issues),
    check_extrusion_entity_stability unscale angle PI entity checked_lines_out layer_z
      layer_region prev_layer_lines issues params = Ok (lines_out, issues_out) ->
    exists checked,
      lines_out = checked_lines_out ++ checked /\
      support_points issues_out =
        support_points issues
        ++ map (bridging_support_point layer_z)
               (List.filter support_point_generated checked) /\
      Forall (local_support_point layer_z)
             (map (bridging_support_point layer_z)
                  (List.filter support_point_generated checked)).
Proof.
  assert (Hlocal : forall ls, Forall (local_support_point layer_z)
                                (map (bridging_support_point layer_z) ls)).
  { intros ls. apply Forall_map, Forall_forall. intros l _.
    unfold local_support_point, bridging_support_point. simpl. auto. }
  induction entity as [a r coll lp pts mm3 members IH] using ExtrusionEntity_nested_ind.
  intros out issues out' issues'. simpl. destruct coll.
  - intros H.
    match type of H with
    | ?each members (out, issues) = _ =>
        assert (G : forall acc res, each members acc = Ok res ->
                  exists checked,
                    fst res = fst acc ++ checked /\
                    support_points (snd res) =
                      support_points (snd acc)
                      ++ map (bridging_support_point layer_z)
                             (List.filter support_point_generated checked))
    end.
    { clear H. induction IH as [|e es He _ IHes]; intros acc res H.
      - inversion H; subst. exists []. simpl. rewrite !app_nil_r. auto.
      - destruct acc as [o0 i0].
        apply bind_Ok in H as [[o1 i1] [H1 H]].
        destruct (He _ _ _ _ H1) as (c1 & -> & Hi1 & _).
        destruct (IHes _ _ H) as (c2 & E1 & E2).
        exists (c1 ++ c2). simpl in *. rewrite E1, E2, Hi1.
        rewrite List.filter_app, map_app, !app_assoc. auto. }
    destruct (G _ _ H) as (checked & E1 & E2). simpl in E1, E2.
    exists checked. split; [exact E1|]. split; [exact E2 | apply Hlocal].
  - intros H.
    destruct (check_path_shape _ _ _ _ _ _ _ _ _ _ _ _ H)
      as (resampled & checked & _ & -> & _ & Hi).
    exists checked. split; [reflexivity|]. split; [exact Hi | apply Hlocal].
Qed.

Lemma local_analysis_only_appends_witness :
  exists lines_out issues_out,
    check_extrusion_entity_stability Sample.unscale Sample.angle Sample.PI
      (mkEntity 3 erExternalPerimeter true false [] (F64.lit 5 100)
                [LocalSample.path; GlobalSample.path])
      [] LocalSample.layer_z LocalSample.region LocalSample.prev_layer_lines
      (mkIssues []) Sample.params = Ok (lines_out, issues_out) /\
    support_points issues_out =
      map (bridging_support_point LocalSample.layer_z)
          (List.filter support_point_generated lines_out).
Proof.
  destruct (check_extrusion_entity_stability Sample.unscale Sample.angle Sample.PI
              (mkEntity 3 erExternalPerimeter true false [] (F64.lit 5 100)
                        [LocalSample.path; GlobalSample.path])
              [] LocalSample.layer_z LocalSample.region LocalSample.prev_layer_lines
              (mkIssues []) Sample.params) as [[lines_out issues_out]| |] eqn:E.
  - exists lines_out, issues_out. split; [reflexivity|].
    destruct (local_analysis_only_appends _ _ _ _ _ _ _ _ _ _ _ _ E)
      as (checked & -> & -> & _). reflexivity.
  - vm_compute in E. discriminate E.
  - vm_compute in E. discriminate E.
Defined.

(** ** The part tracker *)

Lemma leads_root (m : gmap N N) (k r : N) (n : nat) :
  leads m k r n -> m !! r = Some r.
Proof. induction 1; auto. Qed.

Lemma leads_is_Some (m : gmap N N) (k r : N) (n : nat) :
  leads m k r n -> is_Some (m !! k).
Proof. destruct 1; eauto. Qed.

Lemma leads_det (m : gmap N N) (k r : N) (n : nat) :
  leads m k r n -> forall r' n', leads m k r' n' -> r = r' /\ n = n'.
Proof.
  induction 1 as [r Hr | k p r n Hk Hne _ IH]; intros r' n' H'.
  - inversion H'; subst; [auto | congruence].
  - inversion H' as [? Hr' | ? p' ? n0 Hk' Hne' Hp']; subst; [congruence|].
    assert (p' = p) by congruence. subst p'.
    destruct (IH _ _ Hp'); subst; auto.
Qed.

Lemma find_root_leads (m : gmap N N) (k r : N) (n : nat) :
  leads m k r n -> forall fuel, (n <= fuel)%nat -> find_root fuel m k = Ok r.
Proof.
  induction 1 as [r Hr | k p r n Hk Hne _ IH]; intros fuel Hf.
  - destruct fuel; simpl; unfold map_at; rewrite Hr; simpl;
      rewrite N.eqb_refl; reflexivity.
  - destruct fuel as [|fuel]; [lia|]. simpl. unfold map_at. rewrite Hk. simpl.
    destruct (N.eqb_spec k p); [congruence|]. apply IH. lia.
Qed.

Lemma leads_path (m : gmap N N) (k r : N) (n : nat) :
  leads m k r n ->
  exists l, length l = S n /\ NoDup l /\
            Forall (fun x => exists j, (j <= n)%nat /\ leads m x r j) l.
Proof.
  induction 1 as [r Hr | k p r n Hk Hne Hp (l & Hlen & Hnd & Hall)].
  - exists [r]. split; [reflexivity|]. split; [apply NoDup_singleton|].
    constructor; [|constructor]. exists 0%nat. split; [lia|]. constructor; auto.
  - exists (k :: l). split; [simpl; lia|]. split.
    + constructor; [|exact Hnd]. intros Hin. rewrite Forall_forall in Hall.
      destruct (Hall _ Hin) as (j & Hj & Hl).
      destruct (leads_det _ _ _ _ Hl _ _ (leads_step _ _ _ _ _ Hk Hne Hp)) as [_ ->].
      lia.
    + constructor.
      * exists (S n). split; [lia|]. econstructor; eauto.
      * eapply Forall_impl; [exact Hall|]. intros x (j & Hj & Hl).
        exists j. split; [lia | auto].
Qed.

Lemma leads_bound (m : gmap N N) (k r : N) (n : nat) (next : N) :
  (forall k, is_Some (m !! k) -> (k < next)%N) ->
  leads m k r n -> (n < N.to_nat next)%nat.
Proof.
  intros Hids Hl. destruct (leads_path _ _ _ _ Hl) as (l & Hlen & Hnd & Hall).
  assert (Hle : (length l <= length (N.of_nat <$> seq 0 (N.to_nat next)))%nat).
  { apply submseteq_length, NoDup_submseteq; [exact Hnd|]. intros x Hx.
    rewrite Forall_forall in Hall. destruct (Hall _ Hx) as (j & _ & Hj).
    apply leads_is_Some in Hj. apply Hids in Hj.
    apply list_elem_of_fmap. exists (N.to_nat x). split; [lia|].
    apply elem_of_seq. lia. }
  rewrite length_fmap, length_seq in Hle. lia.
Qed.

Lemma leads_compress_step (m : gmap N N) (i r0 : N) (ni : nat) :
  leads m i r0 ni ->
  forall k r n, leads m k r n ->
  exists n', (n' <= n)%nat /\ leads (<[i := r0]> m) k r n'.
Proof.
  intros Hi. induction 1 as [r Hr | k p r n Hk Hne Hp IH].
  - exists 0%nat. split; [lia|]. apply leads_here.
    destruct (decide (r = i)) as [->|Hn].
    + destruct (leads_det _ _ _ _ Hi _ _ (leads_here _ _ Hr)) as [-> _].
      apply lookup_insert_eq.
    + rewrite lookup_insert_ne; auto.
  - destruct IH as (n' & Hle & IH).
    destruct (decide (k = i)) as [->|Hn].
    + destruct (leads_det _ _ _ _ Hi _ _ (leads_step _ _ _ _ _ Hk Hne Hp)) as [-> _].
      pose proof (leads_root _ _ _ _ Hp) as Hr.
      assert (r <> i) by congruence.
      exists 1%nat. split; [lia|].
      eapply leads_step; [apply lookup_insert_eq | auto |].
      apply leads_here. rewrite lookup_insert_ne; auto.
    + exists (S n'). split; [lia|].
      eapply leads_step; [rewrite lookup_insert_ne; eauto | auto | exact IH].
Qed.

Lemma compress_leads (index : N) :
  forall fuel m i n,
    leads m i index n -> (n <= fuel)%nat ->
    exists m',
      compress fuel m index i = Ok m' /\
      m' !! i = Some index /\
      (forall k, is_Some (m' !! k) <-> is_Some (m !! k)) /\
      (forall k r j, leads m k r j -> exists j', (j' <= j)%nat /\ leads m' k r j').
Proof.
  assert (Hstop : forall fuel m i,
            m !! i = Some index ->
            exists m',
              compress fuel m index i = Ok m' /\
              m' !! i = Some index /\
              (forall k, is_Some (m' !! k) <-> is_Some (m !! k)) /\
              (forall k r j, leads m k r j ->
                             exists j', (j' <= j)%nat /\ leads m' k r j')).
  { intros fuel m i Hi. exists m.
    split; [destruct fuel; simpl; unfold map_at; rewrite Hi; simpl;
            rewrite N.eqb_refl; reflexivity|].
    split; [exact Hi|]. split; [tauto|]. intros k r j H. exists j. auto. }
  induction fuel as [|fuel IH]; intros m i n Hl Hn.
  - inversion Hl; subst; [|lia]. apply Hstop. assumption.
  - inversion Hl as [? Hr | ? p ? n0 Hk Hne Hp]; subst; [apply Hstop; assumption|].
    destruct (N.eqb_spec index p) as [->|Hip]; [apply Hstop; assumption|].
    simpl. unfold map_at. rewrite Hk. simpl.
    destruct (N.eqb_spec index p) as [|_]; [contradiction|].
    destruct (leads_compress_step _ _ _ _ Hl _ _ _ Hp) as (n1 & Hle & Hp1).
    destruct (IH _ _ _ Hp1 ltac:(lia)) as (m' & Hc & _ & Hdom & Hpres).
    pose proof (leads_root _ _ _ _ Hp) as Hroot.
    assert (Hii : index <> i) by congruence.
    exists m'. split; [exact Hc|]. split; [|split].
    + assert (H1 : leads (<[i := index]> m) i index 1).
      { eapply leads_step; [apply lookup_insert_eq | exact Hii |].
        apply leads_here. rewrite lookup_insert_ne; auto. }
      destruct (Hpres _ _ _ H1) as (j' & Hj' & Hl').
      inversion Hl' as [? Hr | ? q ? j0 Hq Hqi Hq']; subst; [contradiction|].
      inversion Hq'; subst; [assumption | lia].
    + intros k. rewrite Hdom, lookup_insert_is_Some.
      split; [intros [<-|[_ H]]; eauto | intros H].
      destruct (decide (i = k)); auto.
    + intros k r j H.
      destruct (leads_compress_step _ _ _ _ Hl _ _ _ H) as (j1 & Hj1 & H1).
      destruct (Hpres _ _ _ H1) as (j2 & Hj2 & H2). exists j2. split; [lia | auto].
Qed.

Lemma get_flat_id_spec (fuel : nat) (this : ActiveObjectParts) (id r : N) :
  tracker_wf this -> represents this id r ->
  (N.to_nat (next_part_idx this) <= fuel)%nat ->
  exists this',
    get_flat_id fuel this id = Ok (r, this') /\
    tracker_wf this' /\
    active_object_parts this' = active_object_parts this /\
    next_part_idx this' = next_part_idx this /\
    active_object_parts_id_mapping this' !! id = Some r /\
    (forall k r', represents this k r' -> represents this' k r').
Proof.
  intros Hwf [n Hl] Hfuel.
  pose proof (leads_bound _ _ _ _ (next_part_idx this)
                (fun k => proj1 (wf_ids this Hwf k)) Hl) as Hn.
  destruct (compress_leads r fuel _ _ _ Hl ltac:(lia)) as (m' & Hc & Hid & Hdom & Hpres).
  exists (mkActiveObjectParts (next_part_idx this) (active_object_parts this) m').
  assert (Hrep : forall k r',
            represents this k r' ->
            represents (mkActiveObjectParts (next_part_idx this)
                          (active_object_parts this) m') k r').
  { intros k r' [j Hj]. destruct (Hpres _ _ _ Hj) as (j' & _ & Hj'). exists j'. exact Hj'. }
  split; [|split; [|repeat split; auto]].
  - unfold get_flat_id.
    assert (Hfind : bind (map_at (active_object_parts_id_mapping this) id)
                      (find_root fuel (active_object_parts_id_mapping this)) = Ok r).
    { inversion Hl as [? Hr | ? p ? n0 Hk Hne Hp]; subst; unfold map_at.
      - rewrite Hr. simpl. eapply find_root_leads; [exact Hl | lia].
      - rewrite Hk. simpl. eapply find_root_leads; [exact Hp | lia]. }
    destruct (map_at (active_object_parts_id_mapping this) id) as [p| |];
      try discriminate. simpl in Hfind |- *. rewrite Hfind. simpl.
    rewrite Hc. reflexivity.
  - constructor; simpl.
    + intros k. rewrite Hdom. apply (wf_ids this Hwf).
    + intros k Hk. destruct (wf_leads this Hwf k Hk) as (r' & Hr' & Hp).
      exists r'. split; [apply Hrep; exact Hr' | exact Hp].
    + intros r' Hp. pose proof (wf_parts this Hwf r' Hp) as Hr'.
      destruct (Hpres _ _ _ (leads_here _ _ Hr')) as (j' & Hj' & Hl').
      inversion Hl'; subst; [assumption | lia].
Qed.

Lemma represents_det (this : ActiveObjectParts) (id r r' : N) :
  represents this id r -> represents this id r' -> r = r'.
Proof. intros [n H] [n' H']. exact (proj1 (leads_det _ _ _ _ H _ _ H')). Qed.

Lemma chain_wf : tracker_wf TrackerSample.chain.
Proof.
  constructor.
  - intros k. unfold TrackerSample.chain. simpl.
    rewrite !lookup_insert_is_Some, lookup_empty, is_Some_alt. lia.
  - intros k Hk. exists 0%N. simpl in Hk. split; [|vm_compute; eauto].
    assert (H0 : leads (active_object_parts_id_mapping TrackerSample.chain) 0 0 0)
      by (apply leads_here; reflexivity).
    assert (H1 : leads (active_object_parts_id_mapping TrackerSample.chain) 1 0 1)
      by (eapply leads_step; [reflexivity | lia | exact H0]).
    assert (H2 : leads (active_object_parts_id_mapping TrackerSample.chain) 2 0 2)
      by (eapply leads_step; [reflexivity | lia | exact H1]).
    assert (Hc : k = 0%N \/ k = 1%N \/ k = 2%N) by lia.
    destruct Hc as [->|[->| ->]]; eexists; eassumption.
  - intros r. unfold TrackerSample.chain. simpl.
    rewrite lookup_insert_is_Some, lookup_empty, is_Some_alt.
    intros [<-|[_ []]]. reflexivity.
Qed.

(** X12: For an id handed out by a well formed tracker, [get_flat_id] (with
    fuel for as many steps as there are ids) returns the representative of
    the id, which holds a part; the tracker it leaves is well formed, has
    the same parts, links the id to the representative directly, and gives
    every id the representative it had; a second call returns the same
    and changes nothing. *)
Theorem get_flat_id_finds_the_representative (fuel : nat) (this : ActiveObjectParts)
    (id : N) :
  tracker_wf this -> (id < next_part_idx this)%N ->
  (N.to_nat (next_part_idx this) <= fuel)%nat ->
  exists r this',
    get_flat_id fuel this id = Ok (r, this') /\
    represents this id r /\
    is_Some (active_object_parts this !! r) /\
    tracker_wf this' /\
    active_object_parts this' = active_object_parts this /\
    next_part_idx this' = next_part_idx this /\
    active_object_parts_id_mapping this' !! id = Some r /\
    (forall k r', represents this k r' -> represents this' k r') /\
    get_flat_id fuel this' id = Ok (r, this').
Proof.
  intros Hwf Hid Hfuel.
  destruct (wf_leads this Hwf id Hid) as (r & Hr & Hp).
  destruct (get_flat_id_spec fuel this id r Hwf Hr Hfuel)
    as (this' & Hg & Hwf' & Hparts & Hnext & Hlink & Hrep).
  exists r, this'.
  split; [exact Hg|]. split; [exact Hr|]. split; [exact Hp|]. split; [exact Hwf'|].
  split; [exact Hparts|]. split; [exact Hnext|]. split; [exact Hlink|].
  split; [exact Hrep|].
  destruct (get_flat_id_spec fuel this' id r Hwf' (Hrep _ _ Hr) ltac:(rewrite Hnext; lia))
    as (this'' & Hg' & _).
  rewrite Hg'. f_equal. f_equal.
  unfold get_flat_id in Hg'.
  apply bind_Ok in Hg' as [p [Hp' Hg']]. unfold map_at in Hp'. rewrite Hlink in Hp'.
  inversion Hp'; subst p.
  apply bind_Ok in Hg' as [q [Hq Hg']].
  apply bind_Ok in Hg' as [m [Hm Hg']].
  assert (Hm' : m = active_object_parts_id_mapping this').
  { destruct fuel; simpl in Hm; unfold map_at in Hm; rewrite Hlink in Hm; simpl in Hm;
      assert (q = r) by (inversion Hg'; auto); subst q;
      rewrite N.eqb_refl in Hm; inversion Hm; reflexivity. }
  inversion Hg'; subst. destruct this'; reflexivity.
Qed.

Lemma get_flat_id_finds_the_representative_witness :
  exists this',
    get_flat_id 3 TrackerSample.chain 2 = Ok (0%N, this') /\
    active_object_parts_id_mapping this' !! 2%N = Some 0%N.
Proof.
  destruct (get_flat_id_finds_the_representative 3 TrackerSample.chain 2 chain_wf
              ltac:(simpl; lia) ltac:(simpl; lia))
    as (r & this' & Hg & Hr & _ & _ & _ & _ & Hlink & _).
  assert (r = 0%N) as ->.
  { vm_compute in Hg. inversion Hg. reflexivity. }
  exists this'. split; assumption.
Defined.

Lemma tracker_wf_default : tracker_wf ActiveObjectParts_default.
Proof.
  constructor; simpl.
  - intros k. rewrite lookup_empty, is_Some_alt. lia.
  - intros k Hk. lia.
  - intros r. rewrite lookup_empty, is_Some_alt. intros [].
Qed.

Lemma leads_insert_fresh (m : gmap N N) (i : N) (k r : N) (n : nat) :
  m !! i = None -> leads m k r n -> leads (<[i := i]> m) k r n.
Proof.
  intros Hi. induction 1 as [r Hr | k p r n Hk Hne _ IH].
  - apply leads_here. rewrite lookup_insert_ne; [auto | congruence].
  - eapply leads_step; [|exact Hne | exact IH].
    rewrite lookup_insert_ne; [auto | congruence].
Qed.

Lemma insert_part_spec (this : ActiveObjectParts) (island : Island) :
  tracker_wf this ->
  tracker_wf (snd (insert_part this island)) /\
  represents (snd (insert_part this island)) (next_part_idx this) (next_part_idx this) /\
  active_object_parts (snd (insert_part this island)) !! next_part_idx this
    = Some (ObjectPart_of_island island) /\
  (forall k r, represents this k r -> represents (snd (insert_part this island)) k r).
Proof.
  intros Hwf.
  assert (Hm : active_object_parts_id_mapping this !! next_part_idx this = None).
  { destruct (active_object_parts_id_mapping this !! next_part_idx this) eqn:E; [|reflexivity].
    assert (Hs : is_Some (active_object_parts_id_mapping this !! next_part_idx this))
      by (rewrite E; eauto).
    apply (wf_ids this Hwf) in Hs. lia. }
  assert (Hp : active_object_parts this !! next_part_idx this = None).
  { destruct (active_object_parts this !! next_part_idx this) eqn:E; [|reflexivity].
    assert (Hs : is_Some (active_object_parts this !! next_part_idx this))
      by (rewrite E; eauto).
    apply (wf_parts this Hwf) in Hs. congruence. }
  unfold insert_part, emplace. simpl. rewrite Hm, Hp.
  assert (Hrep : forall k r,
            represents this k r ->
            exists n, leads (<[next_part_idx this := next_part_idx this]>
                               (active_object_parts_id_mapping this)) k r n).
  { intros k r [n Hl]. exists n. apply leads_insert_fresh; assumption. }
  split; [|split; [|split]].
  - constructor; simpl.
    + intros k. rewrite lookup_insert_is_Some, (wf_ids this Hwf k).
      split; [intros [<-|[_ H]]; lia | intros H].
      destruct (decide (next_part_idx this = k)); [auto | right; split; [auto | lia]].
    + intros k Hk. destruct (decide (k = next_part_idx this)) as [->|Hne].
      * exists (next_part_idx this). split.
        -- exists 0%nat. apply leads_here, lookup_insert_eq.
        -- rewrite lookup_insert_eq. eauto.
      * destruct (wf_leads this Hwf k ltac:(lia)) as (r & Hr & Hpr).
        exists r. split; [apply Hrep; exact Hr|].
        rewrite lookup_insert_is_Some. destruct (decide (next_part_idx this = r)); auto.
    + intros r. rewrite lookup_insert_is_Some. intros [<-|[Hne H]].
      * apply lookup_insert_eq.
      * rewrite lookup_insert_ne by auto. apply (wf_parts this Hwf r H).
  - exists 0%nat. apply leads_here, lookup_insert_eq.
  - apply lookup_insert_eq.
  - exact Hrep.
Qed.

(** X13: [insert] into a well formed tracker leaves a well formed tracker; the
    id it returns is the old [next_part_idx], which is its own
    representative and holds the part made of the island; every older id
    keeps its representative. *)
Theorem insert_gives_a_fresh_representative (this : ActiveObjectParts) (island : Island) :
  tracker_wf this ->
  fst (insert_part this island) = next_part_idx this /\
  next_part_idx (snd (insert_part this island)) = (next_part_idx this + 1)%N /\
  tracker_wf (snd (insert_part this island)) /\
  represents (snd (insert_part this island)) (fst (insert_part this island))
             (fst (insert_part this island)) /\
  active_object_parts (snd (insert_part this island)) !! fst (insert_part this island)
    = Some (ObjectPart_of_island island) /\
  (forall k r, represents this k r -> represents (snd (insert_part this island)) k r).
Proof.
  intros Hwf. split; [reflexivity|]. split; [reflexivity|].
  apply insert_part_spec. exact Hwf.
Qed.

Lemma insert_gives_a_fresh_representative_witness :
  fst (insert_part TrackerSample.chain Island_default) = 3%N /\
  represents (snd (insert_part TrackerSample.chain Island_default)) 3 3 /\
  represents (snd (insert_part TrackerSample.chain Island_default)) 2 0.
Proof.
  destruct (insert_gives_a_fresh_representative TrackerSample.chain Island_default chain_wf)
    as (Hid & _ & _ & Hrep & _ & Hold).
  split; [exact Hid|]. split; [exact Hrep|].
  apply Hold. exists 2%nat.
  eapply leads_step; [reflexivity | lia |].
  eapply leads_step; [reflexivity | lia |].
  apply leads_here. reflexivity.
Defined.

Lemma leads_link (m : gmap N N) (from to_flat : N) :
  m !! from = Some from -> m !! to_flat = Some to_flat -> to_flat <> from ->
  forall k r n,
    leads m k r n ->
    exists n', leads (<[from := to_flat]> m) k (if N.eqb r from then to_flat else r) n'.
Proof.
  intros Hf Ht Hne. induction 1 as [r Hr | k p r n Hk Hpk Hp (n' & IH)].
  - destruct (N.eqb_spec r from) as [->|Hn].
    + exists 1%nat. eapply leads_step; [apply lookup_insert_eq | exact Hne |].
      apply leads_here. rewrite lookup_insert_ne; auto.
    + exists 0%nat. apply leads_here. rewrite lookup_insert_ne; auto.
  - assert (k <> from) by (intros ->; congruence).
    exists (S n'). eapply leads_step; [|exact Hpk | exact IH].
    rewrite lookup_insert_ne; auto.
Qed.

Lemma merge_spec (fuel : nat) (this : ActiveObjectParts)
    (from to to_flat : N) :
  tracker_wf this ->
  represents this from from ->
  represents this to to_flat ->
  to_flat <> from ->
  (N.to_nat (next_part_idx this) <= fuel)%nat ->
  exists this' part_to part_from,
    merge fuel this from to = Ok this' /\
    tracker_wf this' /\
    next_part_idx this' = next_part_idx this /\
    active_object_parts this !! to_flat = Some part_to /\
    active_object_parts this !! from = Some part_from /\
    active_object_parts this' =
      delete from (<[to_flat := ObjectPart_add part_to part_from]>
                     (active_object_parts this)) /\
    (forall k r, represents this k r ->
                 represents this' k (if N.eqb r from then to_flat else r)).
Proof.
  intros Hwf Hfrom Hto Hne Hfuel.
  assert (Hlt : forall k r, represents this k r -> (k < next_part_idx this)%N).
  { intros k r [n Hl]. apply (wf_ids this Hwf), (leads_is_Some _ _ _ _ Hl). }
  assert (Hpart : forall k r, represents this k r ->
                              is_Some (active_object_parts this !! r)).
  { intros k r Hr. destruct (wf_leads this Hwf k (Hlt _ _ Hr)) as (r' & Hr' & Hp).
    rewrite (represents_det _ _ _ _ Hr Hr'). exact Hp. }
  destruct (Hpart _ _ Hto) as [part_to Hpt].
  destruct (Hpart _ _ Hfrom) as [part_from Hpf].
  destruct (get_flat_id_spec fuel this to to_flat Hwf Hto Hfuel)
    as (this1 & Hg1 & Hwf1 & Hparts1 & Hnext1 & _ & Hrep1).
  destruct (get_flat_id_spec fuel this1 from from Hwf1 (Hrep1 _ _ Hfrom)
              ltac:(rewrite Hnext1; exact Hfuel))
    as (this2 & Hg2 & Hwf2 & Hparts2 & Hnext2 & _ & Hrep2).
  set (this' := mkActiveObjectParts (next_part_idx this2)
                  (delete from (<[to_flat := ObjectPart_add part_to part_from]>
                                  (active_object_parts this2)))
                  (<[from := to_flat]> (active_object_parts_id_mapping this2))).
  assert (Hroot_from : active_object_parts_id_mapping this2 !! from = Some from).
  { apply (wf_parts this2 Hwf2). rewrite Hparts2, Hparts1, Hpf. eauto. }
  assert (Hroot_to : active_object_parts_id_mapping this2 !! to_flat = Some to_flat).
  { apply (wf_parts this2 Hwf2). rewrite Hparts2, Hparts1, Hpt. eauto. }
  assert (Hrep' : forall k r, represents this2 k r ->
                              represents this' k (if N.eqb r from then to_flat else r)).
  { intros k r [n Hl]. exact (leads_link _ _ _ Hroot_from Hroot_to Hne _ _ _ Hl). }
  exists this', part_to, part_from.
  split; [|split; [|split; [|split; [|split; [|split]]]]].
  - unfold merge. rewrite Hg1. simpl. rewrite Hg2. simpl.
    unfold map_at. rewrite Hparts2, Hparts1, Hpt, Hpf. simpl.
    unfold this'. rewrite Hparts2, Hparts1. reflexivity.
  - constructor; simpl.
    + intros k. rewrite lookup_insert_is_Some, (wf_ids this2 Hwf2 k).
      split; [intros [<-|[_ H]]; [|exact H] | intros H].
      * apply (wf_ids this2 Hwf2). rewrite Hroot_from. eauto.
      * destruct (decide (from = k)); auto.
    + intros k Hk. destruct (wf_leads this2 Hwf2 k Hk) as (r & Hr & Hp).
      exists (if N.eqb r from then to_flat else r).
      split; [exact (Hrep' _ _ Hr)|].
      destruct (N.eqb_spec r from) as [->|Hn].
      * rewrite lookup_delete_ne by auto. rewrite lookup_insert_eq. eauto.
      * rewrite lookup_delete_ne by auto. rewrite lookup_insert_is_Some.
        destruct (decide (to_flat = r)); auto.
    + intros r Hp.
      destruct (decide (r = from)) as [->|Hn];
        [rewrite lookup_delete_eq in Hp; destruct Hp; discriminate|].
      rewrite lookup_delete_ne in Hp by auto.
      rewrite lookup_insert_ne by auto.
      rewrite lookup_insert_is_Some in Hp. destruct Hp as [<-|[_ Hp]]; [exact Hroot_to|].
      apply (wf_parts this2 Hwf2 r Hp).
  - simpl. rewrite Hnext2, Hnext1. reflexivity.
  - exact Hpt.
  - exact Hpf.
  - simpl. rewrite Hparts2, Hparts1. reflexivity.
  - intros k r Hr. apply Hrep', Hrep2, Hrep1, Hr.
Qed.

(** X14: [merge(from, to)] in a well formed tracker, where [from] is a
    representative and [to] belongs to another one, [to_flat]: with fuel
    for as many steps as there are ids the call succeeds; the tracker it
    leaves is well formed; the part of [to_flat] has become the sum of the
    two parts and the part of [from] is erased; the ids which [from]
    represented are represented by [to_flat], and every other id keeps its
    representative. *)
Theorem merge_of_representatives (fuel : nat) (this : ActiveObjectParts)
    (from to to_flat : N) :
  tracker_wf this ->
  represents this from from ->
  represents this to to_flat ->
  to_flat <> from ->
  (N.to_nat (next_part_idx this) <= fuel)%nat ->
  exists this' part_to part_from,
    merge fuel this from to = Ok this' /\
    tracker_wf this' /\
    next_part_idx this' = next_part_idx this /\
    active_object_parts this !! to_flat = Some part_to /\
    active_object_parts this !! from = Some part_from /\
    active_object_parts this' =
      delete from (<[to_flat := ObjectPart_add part_to part_from]>
                     (active_object_parts this)) /\
    (forall k r, represents this k r ->
                 represents this' k (if N.eqb r from then to_flat else r)).
Proof. apply merge_spec. Qed.

Lemma merge_of_representatives_witness :
  exists this',
    merge 3 TrackerSample.parts3 2 1 = Ok this' /\
    tracker_wf this' /\
    represents this' 2 1 /\ represents this' 0 0.
Proof.
  assert (Hwf : tracker_wf TrackerSample.parts3).
  { unfold TrackerSample.parts3.
    repeat apply insert_part_spec. apply tracker_wf_default. }
  assert (H0 : represents TrackerSample.parts3 0 0)
    by (exists 0%nat; apply leads_here; reflexivity).
  assert (H1 : represents TrackerSample.parts3 1 1)
    by (exists 0%nat; apply leads_here; reflexivity).
  assert (H2 : represents TrackerSample.parts3 2 2)
    by (exists 0%nat; apply leads_here; reflexivity).
  destruct (merge_of_representatives 3 TrackerSample.parts3 2 1 1 Hwf H2 H1
              ltac:(lia) ltac:(simpl; lia))
    as (this' & part_to & part_from & Hm & Hwf' & _ & _ & _ & _ & Hrep).
  exists this'. split; [exact Hm|]. split; [exact Hwf'|].
  split; [exact (Hrep _ _ H2) | exact (Hrep _ _ H0)].
Defined.

(** ** The parts of a layer *)

Lemma tracker_wf_update_part (this : ActiveObjectParts) (r : N) (part : ObjectPart) :
  tracker_wf this -> is_Some (active_object_parts this !! r) ->
  tracker_wf (mkActiveObjectParts (next_part_idx this)
                (<[r := part]> (active_object_parts this))
                (active_object_parts_id_mapping this)).
Proof.
  intros Hwf Hr. constructor; simpl.
  - apply (wf_ids this Hwf).
  - intros k Hk. destruct (wf_leads this Hwf k Hk) as (r' & Hr' & Hp).
    exists r'. split; [exact Hr'|]. rewrite lookup_insert_is_Some.
    destruct (decide (r = r')); auto.
  - intros r' Hp. rewrite lookup_insert_is_Some in Hp.
    destruct Hp as [<-|[_ Hp]]; apply (wf_parts this Hwf); assumption.
Qed.

Lemma representative_holds_a_part (this : ActiveObjectParts) (k r : N) :
  tracker_wf this -> represents this k r -> is_Some (active_object_parts this !! r).
Proof.
  intros Hwf Hr.
  assert (Hk : (k < next_part_idx this)%N).
  { destruct Hr as [n Hl]. apply (wf_ids this Hwf), (leads_is_Some _ _ _ _ Hl). }
  destruct (wf_leads this Hwf k Hk) as (r' & Hr' & Hp).
  rewrite (represents_det _ _ _ _ Hr Hr'). exact Hp.
Qed.

Lemma collect_fold (fuel : nat) (prev_map : gmap N N)
    (prev_weakest : gmap N IslandConnection) :
  forall (conns : list (N * IslandConnection)) (parts : ActiveObjectParts)
         (ids : gset N) (t n : IslandConnection),
    tracker_wf parts -> ids_known parts prev_map ->
    (N.to_nat (next_part_idx parts) <= fuel)%nat ->
    (forall c, c ∈ conns -> is_Some (prev_map !! fst c) /\ is_Some (prev_weakest !! fst c)) ->
    (forall r, r ∈ ids -> represents parts r r) ->
    exists parts' ids' t' n',
      foldM (collect_step fuel prev_map prev_weakest) conns (parts, ids, t, n)
        = Ok (parts', ids', t', n') /\
      tracker_wf parts' /\
      next_part_idx parts' = next_part_idx parts /\
      (forall r, r ∈ ids' -> represents parts' r r) /\
      (conns <> [] -> exists r, r ∈ ids') /\
      (forall r, r ∈ ids -> r ∈ ids').
Proof.
  induction conns as [|[c conn] conns IH]; intros parts ids t n Hwf Hknown Hfuel Hlinked Hids.
  - exists parts, ids, t, n. simpl. split; [reflexivity|]. split; [exact Hwf|].
    split; [reflexivity|]. split; [exact Hids|].
    split; [intros []; reflexivity | auto].
  - destruct (Hlinked (c, conn) ltac:(left)) as [[pid Hpid] [w Hw]]. simpl in Hpid, Hw.
    pose proof (Hknown _ _ Hpid) as Hlt.
    destruct (wf_leads parts Hwf pid Hlt) as (r & Hr & _).
    destruct (get_flat_id_spec fuel parts pid r Hwf Hr Hfuel)
      as (parts1 & Hg & Hwf1 & _ & Hnext1 & _ & Hrep1).
    assert (Hrr : represents parts1 r r).
    { apply Hrep1. destruct Hr as [j Hj]. exists 0%nat.
      apply leads_here, (leads_root _ _ _ _ Hj). }
    destruct (IH parts1 ({[ r ]} ∪ ids)
                (IslandConnection_add t w) (IslandConnection_add n conn) Hwf1)
      as (parts' & ids' & t' & n' & Hf & Hwf' & Hnext' & Hids' & _ & Hsub).
    + intros i p Hp. rewrite Hnext1. eapply Hknown; eauto.
    + rewrite Hnext1. exact Hfuel.
    + intros c' Hc'. apply Hlinked. right. exact Hc'.
    + intros x Hx. apply elem_of_union in Hx as [Hx|Hx].
      * apply elem_of_singleton in Hx. subst x. exact Hrr.
      * apply Hrep1, Hids, Hx.
    + exists parts', ids', t', n'. split.
      * simpl. unfold map_at. rewrite Hpid. simpl. rewrite Hg. simpl. rewrite Hw. simpl.
        exact Hf.
      * split; [exact Hwf'|]. split; [congruence|]. split; [exact Hids'|].
        split; [intros _; exists r; apply Hsub; set_solver|].
        intros x Hx. apply Hsub. set_solver.
Qed.

Lemma merge_fold (fuel : nat) (final : N) :
  forall (l : list N) (parts : ActiveObjectParts),
    tracker_wf parts -> (N.to_nat (next_part_idx parts) <= fuel)%nat ->
    NoDup l -> represents parts final final ->
    (forall p, p ∈ l -> represents parts p p) ->
    exists parts',
      foldM (fun parts part_id =>
               if N.eqb final part_id then Ok parts
               else merge fuel parts part_id final) l parts = Ok parts' /\
      tracker_wf parts' /\
      next_part_idx parts' = next_part_idx parts /\
      represents parts' final final.
Proof.
  induction l as [|p l IH]; intros parts Hwf Hfuel Hnd Hfinal Hl.
  - exists parts. simpl. auto.
  - inversion Hnd as [|? ? Hp Hnd']; subst. simpl.
    destruct (N.eqb_spec final p) as [->|Hne].
    + apply IH; auto. intros q Hq. apply Hl. right. exact Hq.
    + destruct (merge_spec fuel parts p final final Hwf (Hl p ltac:(left)) Hfinal Hne Hfuel)
        as (parts1 & pt & pf & Hm & Hwf1 & Hnext1 & _ & _ & _ & Hrep).
      rewrite Hm.
      destruct (IH parts1 Hwf1) as (parts' & Hf & Hwf' & Hnext' & Hfinal').
      * rewrite Hnext1. exact Hfuel.
      * exact Hnd'.
      * pose proof (Hrep _ _ Hfinal) as H. destruct (N.eqb_spec final p); [contradiction|].
        exact H.
      * intros q Hq. pose proof (Hrep _ _ (Hl q ltac:(right; exact Hq))) as H.
        destruct (N.eqb_spec q p) as [->|]; [contradiction|]. exact H.
      * exists parts'. split; [exact Hf|]. split; [exact Hwf'|]. split; [congruence|].
        exact Hfinal'.
Qed.

Lemma ids_known_mono (this this' : ActiveObjectParts) (mapping : gmap N N) :
  (next_part_idx this <= next_part_idx this')%N ->
  ids_known this mapping -> ids_known this' mapping.
Proof. intros Hle H i pid Hi. specialize (H i pid Hi). lia. Qed.

Lemma ids_known_emplace (this : ActiveObjectParts) (mapping : gmap N N) (i pid : N) :
  (pid < next_part_idx this)%N -> ids_known this mapping ->
  ids_known this (emplace mapping i pid).
Proof.
  intros Hpid H j q. unfold emplace. destruct (mapping !! i) eqn:E; [apply H|].
  destruct (decide (i = j)) as [->|Hne].
  - rewrite lookup_insert_eq. intros Hq. inversion Hq; subst. exact Hpid.
  - rewrite lookup_insert_ne by auto. apply H.
Qed.

Lemma emplace_is_Some {A} (m : gmap N A) (i j : N) (a : A) :
  is_Some (emplace m i a !! j) <-> i = j \/ is_Some (m !! j).
Proof.
  unfold emplace. destruct (m !! i) eqn:E.
  - split; [auto|]. intros [<-|H]; [rewrite E; eauto | exact H].
  - rewrite lookup_insert_is_Some. split.
    + intros [H|[_ H]]; auto.
    + intros [H|H]; [auto|]. destruct (decide (i = j)); auto.
Qed.

Lemma assign_part_spec (fuel : nat) (layer_z : float) (prev_map : gmap N N)
    (prev_weakest : gmap N IslandConnection) (st : PartsState) (i : nat)
    (island : Island) :
  tracker_wf (ps_parts st) -> ids_known (ps_parts st) prev_map ->
  ids_known (ps_parts st) (next_island_to_object_part_mapping st) ->
  linked prev_map prev_weakest island ->
  (N.to_nat (next_part_idx (ps_parts st)) <= fuel)%nat ->
  exists st',
    assign_part fuel layer_z prev_map prev_weakest st (i, island) = Ok st' /\
    tracker_wf (ps_parts st') /\
    (next_part_idx (ps_parts st) <= next_part_idx (ps_parts st')
       <= next_part_idx (ps_parts st) + 1)%N /\
    ids_known (ps_parts st') (next_island_to_object_part_mapping st') /\
    (forall j, is_Some (next_island_to_object_part_mapping st' !! j) <->
               N.of_nat i = j \/ is_Some (next_island_to_object_part_mapping st !! j)).
Proof.
  intros Hwf Hprev Hnext Hlinked Hfuel. unfold assign_part. cbn [fst snd].
  case_bool_decide as Hempty.
  - destruct (insert_part_spec (ps_parts st) island Hwf) as (Hwf' & _ & _ & _).
    unfold insert_part in *. simpl in *.
    eexists. split; [reflexivity|]. simpl. split; [exact Hwf'|]. split; [lia|]. split.
    + apply ids_known_emplace; [simpl; lia|].
      intros j q Hq. specialize (Hnext j q Hq). simpl. lia.
    + intros j. apply emplace_is_Some.
  - destruct (collect_fold fuel prev_map prev_weakest
                (map_to_list (connected_islands island)) (ps_parts st) ∅
                IslandConnection_default IslandConnection_default Hwf Hprev Hfuel)
      as (parts1 & ids & t & n & Hc & Hwf1 & Hnext1 & Hids & Hne & _).
    + intros [c conn] Hin. apply elem_of_map_to_list in Hin. simpl.
      apply Hlinked. rewrite Hin. eauto.
    + intros r Hr. set_solver.
    + rewrite Hc. cbn [bind].
      destruct Hne as [r0 Hr0].
      { intros Hnil. apply map_to_list_empty_iff in Hnil. contradiction. }
      assert (Hhead : exists final rest, elements ids = final :: rest).
      { destruct (elements ids) as [|final rest] eqn:El; [|eauto].
        apply elem_of_elements in Hr0. rewrite El in Hr0. inversion Hr0. }
      destruct Hhead as (final & rest & El).
      assert (Hv : vec_at (elements ids) 0 = Ok final) by (rewrite El; reflexivity).
      rewrite Hv. cbn [bind].
      assert (Hfinal : represents parts1 final final).
      { apply Hids, elem_of_elements. rewrite El. left. }
      destruct (merge_fold fuel final (elements ids) parts1 Hwf1
                  ltac:(rewrite Hnext1; exact Hfuel) (NoDup_elements ids) Hfinal)
        as (parts2 & Hm & Hwf2 & Hnext2 & Hfinal2).
      { intros p Hp. apply Hids, elem_of_elements. exact Hp. }
      rewrite Hm. cbn [bind].
      destruct (get_flat_id_spec fuel parts2 final final Hwf2 Hfinal2
                  ltac:(rewrite Hnext2, Hnext1; exact Hfuel))
        as (parts3 & Hg & Hwf3 & Hparts3 & Hnext3 & _ & Hrep3).
      rewrite Hg. cbn [bind fst snd].
      destruct (representative_holds_a_part parts3 final final Hwf3 (Hrep3 _ _ Hfinal2))
        as [part Hpart].
      unfold map_at. rewrite Hpart. cbn [bind].
      eexists. split; [reflexivity|]. simpl.
      assert (Hlt : (final < next_part_idx parts3)%N).
      { destruct (Hrep3 _ _ Hfinal2) as [j Hj].
        apply (wf_ids parts3 Hwf3), (leads_is_Some _ _ _ _ Hj). }
      split; [apply tracker_wf_update_part; [exact Hwf3 | rewrite Hpart; eauto]|].
      split; [lia|]. split.
      * apply ids_known_emplace; [simpl; lia|].
        intros j q Hq. specialize (Hnext j q Hq). simpl. lia.
      * intros j. apply emplace_is_Some.
Qed.

Lemma assign_fold (fuel : nat) (layer_z : float) (prev_map : gmap N N)
    (prev_weakest : gmap N IslandConnection) :
  forall (l : list (nat * Island)) (st : PartsState),
    tracker_wf (ps_parts st) -> ids_known (ps_parts st) prev_map ->
    ids_known (ps_parts st) (next_island_to_object_part_mapping st) ->
    Forall (fun ii => linked prev_map prev_weakest (snd ii)) l ->
    (N.to_nat (next_part_idx (ps_parts st)) + length l <= fuel)%nat ->
    exists st',
      foldM (assign_part fuel layer_z prev_map prev_weakest) l st = Ok st' /\
      tracker_wf (ps_parts st') /\
      (next_part_idx (ps_parts st) <= next_part_idx (ps_parts st')
         <= next_part_idx (ps_parts st) + N.of_nat (length l))%N /\
      ids_known (ps_parts st') (next_island_to_object_part_mapping st') /\
      (forall j, is_Some (next_island_to_object_part_mapping st' !! j) <->
                 (exists ii, ii ∈ l /\ N.of_nat (fst ii) = j) \/
                 is_Some (next_island_to_object_part_mapping st !! j)).
Proof.
  induction l as [|[i island] l IH]; intros st Hwf Hprev Hnext Hl Hfuel.
  - exists st. simpl. split; [reflexivity|]. split; [exact Hwf|]. split; [lia|].
    split; [exact Hnext|]. intros j. split; [auto|].
    intros [(ii & Hin & _)|H]; [inversion Hin | exact H].
  - inversion Hl as [|? ? Hi Hl']; subst. simpl in Hi, Hfuel.
    destruct (assign_part_spec fuel layer_z prev_map prev_weakest st i island
                Hwf Hprev Hnext Hi ltac:(lia))
      as (st1 & Ha & Hwf1 & Hn1 & Hk1 & Hdom1).
    destruct (IH st1 Hwf1) as (st' & Hf & Hwf' & Hn' & Hk' & Hdom').
    + eapply ids_known_mono; [|exact Hprev]. lia.
    + exact Hk1.
    + exact Hl'.
    + lia.
    + exists st'. simpl. rewrite Ha. split; [exact Hf|]. split; [exact Hwf'|].
      split; [lia|]. split; [exact Hk'|].
      intros j. rewrite Hdom', Hdom1. split.
      * intros [(ii & Hin & Hj)|[Hj|Hj]]; auto.
        -- left. exists ii. split; [right; exact Hin | exact Hj].
        -- left. exists (i, island). split; [left | exact Hj].
      * intros [(ii & Hin & Hj)|Hj]; auto.
        apply elem_of_cons in Hin as [->|Hin]; [auto|].
        left. exists ii. auto.
Qed.

(** X15: The first loop of a layer in [check_global_stability], over a well
    formed tracker and maps of the previous layer which know every island
    the layer is connected to: with fuel for the ids there can be after the
    layer the loop succeeds; the tracker it leaves is well formed, so that
    no representative has lost its part in a [merge]; and every island of
    the layer, and nothing else, gets a part id handed out by the
    tracker. *)
Theorem layer_islands_get_parts (fuel : nat) (layer_z : float)
    (prev_island_to_object_part_mapping : gmap N N)
    (prev_island_weakest_connection : gmap N IslandConnection)
    (parts : ActiveObjectParts) (islands : list Island) :
  tracker_wf parts ->
  ids_known parts prev_island_to_object_part_mapping ->
  Forall (linked prev_island_to_object_part_mapping prev_island_weakest_connection)
         islands ->
  (N.to_nat (next_part_idx parts) + length islands <= fuel)%nat ->
  exists ps,
    foldM (assign_part fuel layer_z prev_island_to_object_part_mapping
             prev_island_weakest_connection)
          (imap (fun i isl => (i, isl)) islands) (mkPartsState parts ∅ ∅) = Ok ps /\
    tracker_wf (ps_parts ps) /\
    ids_known (ps_parts ps) (next_island_to_object_part_mapping ps) /\
    (forall j, is_Some (next_island_to_object_part_mapping ps !! j) <->
               (j < N.of_nat (length islands))%N).
Proof.
  intros Hwf Hprev Hl Hfuel.
  destruct (assign_fold fuel layer_z prev_island_to_object_part_mapping
              prev_island_weakest_connection
              (imap (fun i isl => (i, isl)) islands) (mkPartsState parts ∅ ∅) Hwf Hprev)
    as (ps & Hf & Hwf' & _ & Hk & Hdom).
  - intros i pid H. simpl in H. rewrite lookup_empty in H. discriminate.
  - apply Forall_forall. intros [i isl] Hin. simpl.
    apply list_elem_of_lookup in Hin as [k Hk].
    rewrite list_lookup_imap in Hk.
    destruct (islands !! k) as [isl'|] eqn:E; [|discriminate]. simpl in Hk.
    inversion Hk; subst. rewrite Forall_forall in Hl. apply Hl.
    eapply list_elem_of_lookup_2; eauto.
  - rewrite length_imap. simpl. exact Hfuel.
  - exists ps. split; [exact Hf|]. split; [exact Hwf'|]. split; [exact Hk|].
    intros j. rewrite Hdom. simpl. rewrite lookup_empty, is_Some_alt. split.
    + intros [((i & isl) & Hin & Hj)|[]].
      apply list_elem_of_lookup in Hin as [k Hlk].
      rewrite list_lookup_imap in Hlk.
      destruct (islands !! k) as [isl'|] eqn:E; [|discriminate]. simpl in Hlk.
      inversion Hlk; subst. apply lookup_lt_Some in E. simpl. lia.
    + intros Hj. left.
      destruct (lookup_lt_is_Some_2 islands (N.to_nat j) ltac:(lia)) as [isl E].
      exists (N.to_nat j, isl). split; [|simpl; lia].
      apply list_elem_of_lookup. exists (N.to_nat j).
      rewrite list_lookup_imap, E. reflexivity.
Qed.

Lemma layer_islands_get_parts_witness :
  exists ps,
    foldM (assign_part 4 F32.one MergeSample.prev_mapping MergeSample.prev_weakest)
          (imap (fun i isl => (i, isl)) MergeSample.islands)
          (mkPartsState MergeSample.parts ∅ ∅) = Ok ps /\
    tracker_wf (ps_parts ps) /\
    is_Some (next_island_to_object_part_mapping ps !! 1%N).
Proof.
  assert (Hwf : tracker_wf MergeSample.parts).
  { unfold MergeSample.parts. repeat apply insert_part_spec. apply tracker_wf_default. }
  assert (Hprev : ids_known MergeSample.parts MergeSample.prev_mapping).
  { intros i pid. unfold MergeSample.prev_mapping. simpl.
    destruct (decide (i = 0%N)) as [->|H0];
      [rewrite lookup_insert_eq; intros H; inversion H; lia|].
    rewrite lookup_insert_ne by auto.
    destruct (decide (i = 1%N)) as [->|H1];
      [rewrite lookup_insert_eq; intros H; inversion H; lia|].
    rewrite lookup_insert_ne by auto. rewrite lookup_empty. discriminate. }
  assert (Hl : Forall (linked MergeSample.prev_mapping MergeSample.prev_weakest)
                      MergeSample.islands).
  { repeat constructor.
    - unfold MergeSample.prev_mapping.
      rewrite !lookup_insert_is_Some, lookup_empty, is_Some_alt.
      simpl in H. rewrite !lookup_insert_is_Some, lookup_empty, is_Some_alt in H. tauto.
    - unfold MergeSample.prev_weakest.
      rewrite !lookup_insert_is_Some, lookup_empty, is_Some_alt.
      simpl in H. rewrite !lookup_insert_is_Some, lookup_empty, is_Some_alt in H. tauto.
    - simpl in H. rewrite lookup_empty in H. destruct H; discriminate.
    - simpl in H. rewrite lookup_empty in H. destruct H; discriminate. }
  destruct (layer_islands_get_parts 4 F32.one MergeSample.prev_mapping
              MergeSample.prev_weakest MergeSample.parts MergeSample.islands
              Hwf Hprev Hl ltac:(simpl; lia))
    as (ps & Hf & Hwf' & _ & Hdom).
  exists ps. split; [exact Hf|]. split; [exact Hwf'|]. apply Hdom. simpl. lia.
Defined.

(** ** The extrusions of a layer *)

Lemma same_entity_refl (o : option ExtrusionEntity) : same_entity o o = true.
Proof. destruct o; simpl; [apply N.eqb_refl | reflexivity]. Qed.

Lemma same_entity_sym (p q : option ExtrusionEntity) : same_entity p q = same_entity q p.
Proof. destruct p, q; simpl; auto. apply N.eqb_sym. Qed.

Lemma same_entity_trans (p q r : option ExtrusionEntity) :
  same_entity p q = true -> same_entity q r = true -> same_entity p r = true.
Proof.
  destruct p, q, r; simpl; auto; try discriminate.
  rewrite !N.eqb_eq. congruence.
Qed.

Lemma contiguous_snoc (s : nat) (exs : list (nat * nat)) (a b e : nat) :
  contiguous s (exs ++ [(a, b)]) e <-> contiguous s exs a /\ (a < b)%nat /\ b = e.
Proof.
  revert s. induction exs as [|ex exs IH]; intros s; simpl.
  - intuition.
  - rewrite IH. tauto.
Qed.

Lemma contiguous_le (s : nat) (exs : list (nat * nat)) (e : nat) :
  contiguous s exs e -> (s <= e)%nat.
Proof.
  revert s. induction exs as [|ex exs IH]; intros s; simpl.
  - lia.
  - intros (H1 & H2 & H3). apply IH in H3. lia.
Qed.

Lemma contiguous_concat {A} (v : list A) (s : nat) (exs : list (nat * nat)) (e : nat) :
  contiguous s exs e ->
  concat (map (lines_range v) exs) = take (e - s) (drop s v).
Proof.
  revert s. induction exs as [|[a b] exs IH]; intros s; simpl.
  - intros ->. rewrite Nat.sub_diag. reflexivity.
  - intros (<- & Hab & H). pose proof (contiguous_le _ _ _ H) as Hbe.
    rewrite (IH _ H). unfold lines_range. simpl.
    replace (drop b v) with (drop (b - a) (drop a v))
      by (rewrite drop_drop; f_equal; lia).
    rewrite take_take_drop. f_equal. lia.
Qed.

Lemma one_entity_app (lines : list ExtrusionLine) (l : ExtrusionLine) (ex : nat * nat) :
  one_entity lines ex -> one_entity (lines ++ [l]) ex.
Proof.
  intros [Hb H]. split; [rewrite length_app; lia|].
  intros i j x y Hi Hj Hx Hy.
  rewrite lookup_app_l in Hx by lia. rewrite lookup_app_l in Hy by lia. eauto.
Qed.

Lemma separated_app (lines : list ExtrusionLine) (l : ExtrusionLine) (ex : nat * nat) :
  separated lines ex -> separated (lines ++ [l]) ex.
Proof.
  intros [H|(x & y & Hx & Hy & Hxy)]; [left; exact H|].
  right. exists x, y. split; [|split; [|exact Hxy]]; apply lookup_app_l_Some; assumption.
Qed.

Lemma extrusions_fold (layer_lines : list ExtrusionLine) :
  (forall l, layer_lines !! 0%nat = Some l -> origin_entity l <> None) ->
  exists st,
    foldM extrusions_step (imap (fun i l => (i, l)) layer_lines) ([], None) = Ok st /\
    extrusions_invariant layer_lines st.
Proof.
  induction layer_lines as [|l lines IH] using rev_ind; intros Hfirst.
  - exists ([], None). split; [reflexivity|]. left. auto.
  - destruct IH as ([exs cur] & Hf & Hinv).
    { intros l0 H0. apply Hfirst. apply lookup_app_l_Some. exact H0. }
    rewrite imap_app, foldM_app, Hf. simpl.
    rewrite Nat.add_0_r.
    destruct Hinv as [(-> & Hexs & Hcur) | (init & a & Hexs & Hc & Ha & Hone & Hsep & Hsame)];
      simpl in Hexs; subst exs.
    + simpl in Hcur. subst cur.
      assert (Hl : same_entity (origin_entity l) None = false).
      { specialize (Hfirst l eq_refl). destruct (origin_entity l); [reflexivity|].
        contradiction. }
      rewrite Hl. eexists. split; [reflexivity|]. right. exists [], 0%nat. simpl.
      split; [reflexivity|]. split; [reflexivity|]. split; [lia|]. split; [constructor|].
      split; [constructor; [left; reflexivity | constructor]|].
      intros i x _ Hx. destruct i as [|i]; simpl in Hx; [|discriminate].
      inversion Hx; subst. apply same_entity_refl.
    + simpl in Hsame.
      destruct (same_entity (origin_entity l) cur) eqn:Hl.
      * rewrite last_snoc. eexists. split; [reflexivity|]. right. exists init, a.
        cbn [fst snd].
        assert (Hins : <[(length (init ++ [(a, length lines)]) - 1)%nat := (a, S (length lines))]>
                         (init ++ [(a, length lines)]) = init ++ [(a, S (length lines))]).
        { rewrite length_app. simpl.
          replace (length init + 1 - 1)%nat with (length init + 0)%nat by lia.
          rewrite insert_app_r. reflexivity. }
        rewrite Hins. rewrite length_app. simpl.
        split; [f_equal; f_equal; f_equal; lia|]. split; [exact Hc|]. split; [lia|].
        split; [eapply Forall_impl; [exact Hone | intros ex; apply one_entity_app]|].
        split.
        -- apply Forall_app in Hsep as [Hs1 Hs2]. apply Forall_app. split.
           ++ eapply Forall_impl; [exact Hs1 | intros ex; apply separated_app].
           ++ inversion Hs2 as [|? ? Hlast _]; subst. constructor; [|constructor].
              apply (separated_app _ l) in Hlast. exact Hlast.
        -- intros i x Hi Hx. destruct (decide (i < length lines)%nat) as [Hlt|Hge].
           ++ rewrite lookup_app_l in Hx by lia. eauto.
           ++ rewrite lookup_app_r in Hx by lia.
              destruct (i - length lines)%nat; simpl in Hx; [|discriminate].
              inversion Hx; subst. exact Hl.
      * eexists. split; [reflexivity|].
        right. exists (init ++ [(a, length lines)]), (length lines). cbn [fst snd].
        rewrite length_app. simpl.
        split; [f_equal; f_equal; f_equal; lia|].
        split; [apply contiguous_snoc; auto|]. split; [lia|].
        assert (Hlast : one_entity (lines ++ [l]) (a, length lines)).
        { split; [rewrite length_app; simpl; lia|]. simpl.
          intros i j x y Hi Hj Hx Hy.
          rewrite lookup_app_l in Hx by lia. rewrite lookup_app_l in Hy by lia.
          eapply same_entity_trans; [eapply Hsame; [|exact Hx]; lia|].
          rewrite same_entity_sym. eapply Hsame; [|exact Hy]. lia. }
        split.
        -- apply Forall_app. split; [|constructor; [exact Hlast | constructor]].
           eapply Forall_impl; [exact Hone | intros ex; apply one_entity_app].
        -- split.
           ++ apply Forall_app. split.
              ** eapply Forall_impl; [exact Hsep | intros ex; apply separated_app].
              ** constructor; [|constructor]. right. simpl.
                 destruct (lookup_lt_is_Some_2 lines (length lines - 1)%nat ltac:(lia))
                   as [x Hx].
                 exists x, l. split; [apply lookup_app_l_Some; exact Hx|].
                 split; [rewrite lookup_app_r by lia; rewrite Nat.sub_diag; reflexivity|].
                 destruct (same_entity (origin_entity x) (origin_entity l)) eqn:Hxl;
                   [|reflexivity].
                 assert (Hxc : same_entity (origin_entity x) cur = true)
                   by (eapply Hsame; [|exact Hx]; lia).
                 rewrite same_entity_sym in Hxl.
                 rewrite (same_entity_trans _ _ _ Hxl Hxc) in Hl. discriminate.
           ++ intros i x Hi Hx.
              rewrite lookup_app_r in Hx by lia.
              destruct (i - length lines)%nat; simpl in Hx; [|discriminate].
              inversion Hx; subst. apply same_entity_refl.
Qed.

(** X16: When the first line of a layer has an origin entity,
    [extract_extrusions] succeeds, and its index ranges cut the lines into
    the maximal runs of lines of one entity: the ranges follow each other
    from 0 to the number of lines and none is empty, so that their lines,
    put together, are the lines of the layer; the lines of a range have
    one origin entity; and a range starts where the origin entity
    changes. *)
Theorem extract_extrusions_cuts_at_entity_changes (layer_lines : list ExtrusionLine) :
  (forall l, layer_lines !! 0%nat = Some l -> origin_entity l <> None) ->
  exists extrusions,
    extract_extrusions layer_lines = Ok extrusions /\
    contiguous 0 extrusions (length layer_lines) /\
    concat (map (lines_range layer_lines) extrusions) = layer_lines /\
    Forall (one_entity layer_lines) extrusions /\
    Forall (separated layer_lines) extrusions.
Proof.
  intros Hfirst. destruct (extrusions_fold layer_lines Hfirst) as ([exs cur] & Hf & Hinv).
  exists exs. unfold extract_extrusions. rewrite Hf. simpl.
  split; [reflexivity|].
  assert (G : contiguous 0 exs (length layer_lines) /\
              Forall (one_entity layer_lines) exs /\
              Forall (separated layer_lines) exs).
  { destruct Hinv as [(-> & Hexs & _) | (init & a & Hexs & Hc & Ha & Hone & Hsep & Hsame)];
      simpl in Hexs; subst exs.
    - simpl. auto.
    - split; [apply contiguous_snoc; auto|]. split; [|exact Hsep].
      apply Forall_app. split; [exact Hone|]. constructor; [|constructor].
      split; [simpl; lia|]. simpl. intros i j x y Hi Hj Hx Hy.
      eapply same_entity_trans; [eapply Hsame; [|exact Hx]; lia|].
      rewrite same_entity_sym. eapply Hsame; [|exact Hy]. lia. }
  destruct G as (Hc & Hone & Hsep). split; [exact Hc|]. split; [|auto].
  rewrite (contiguous_concat _ _ _ _ Hc). rewrite drop_0, Nat.sub_0_r.
  apply firstn_all.
Qed.

Lemma extract_extrusions_cuts_at_entity_changes_witness :
  exists extrusions,
    extract_extrusions RasterSample.layer_lines = Ok extrusions /\
    length extrusions = 2%nat /\
    Forall (one_entity RasterSample.layer_lines) extrusions.
Proof.
  destruct (extract_extrusions_cuts_at_entity_changes RasterSample.layer_lines)
    as (exs & He & _ & _ & Hone & _).
  - intros l Hl. vm_compute in Hl. inversion Hl. discriminate.
  - exists exs. split; [exact He|]. split; [|exact Hone].
    vm_compute in He. inversion He. reflexivity.
Defined.

(** ** The extrusions of the islands *)

Lemma build_islands_phases (layer : Layer) (first_layer : bool)
    (layer_lines : list ExtrusionLine) :
  build_islands layer first_layer layer_lines =
    (extrusions <- extract_extrusions layer_lines ;;
     island_extrusions <- assign_extrusions layer_lines extrusions ;;
     region0 <- vec_at (regions layer) 0 ;;
     foldM (build_island_step layer first_layer
              (get_flow_width region0 erExternalPerimeter) layer_lines extrusions)
           island_extrusions ([], replicate (length layer_lines) NULL_ISLAND)).
Proof.
  unfold build_islands, assign_extrusions.
  destruct (extract_extrusions layer_lines) as [extrusions| |]; [|reflexivity..].
  cbn [bind].
  destruct (foldM (seed_step layer_lines) _ _) as [seeds| |]; [|reflexivity..].
  cbn [bind]. cbv zeta.
  destruct (foldM (assign_step layer_lines _) _ _) as [ie| |]; [|reflexivity..].
  cbn [bind].
  destruct (foldM (merge_row _) _ _) as [ie'| |]; reflexivity.
Qed.

Lemma is_seed_Ok (layer_lines : list ExtrusionLine) (ex : nat * nat) (b : bool) :
  extrusion_is_external layer_lines ex = Ok b -> is_seed layer_lines ex = b.
Proof. unfold is_seed. intros ->. reflexivity. Qed.

Lemma seed_fold (layer_lines : list ExtrusionLine) :
  forall (l : list (nat * (nat * nat))) (st st' : list LinesDistancer * list (list nat)),
    foldM (seed_step layer_lines) l st = Ok st' ->
    length (fst st') =
      (length (fst st)
       + length (List.filter (fun p => is_seed layer_lines (snd p)) l))%nat /\
    snd st' = snd st ++ map (fun p => [fst p])
                            (List.filter (fun p => is_seed layer_lines (snd p)) l).
Proof.
  induction l as [|[e ex] l IH]; intros st st' H; simpl in H.
  - inversion H; subst. simpl. rewrite app_nil_r. auto.
  - apply bind_Ok in H as [st1 [H1 H]]. unfold seed_step in H1.
    apply bind_Ok in H1 as [b [Hb H1]]. apply is_seed_Ok in Hb.
    destruct (IH _ _ H) as [Hlen Hsnd]. simpl. rewrite Hb.
    destruct b; inversion H1; subst; simpl in *.
    + rewrite Hlen, Hsnd, length_app, <- app_assoc. simpl. split; [lia | reflexivity].
    + auto.
Qed.

Lemma concat_insert_perm {A} (v : list (list A)) (i : nat) (x y : list A) :
  v !! i = Some x -> Permutation (concat (<[i := y]> v) ++ x) (concat v ++ y).
Proof.
  revert i. induction v as [|a v IH]; intros i H; [destruct i; discriminate|].
  destruct i as [|i]; simpl in *.
  - inversion H; subst.
    rewrite <- !app_assoc. rewrite (Permutation_app_comm y (concat v ++ x)).
    rewrite (Permutation_app_comm (concat v) x), <- app_assoc. reflexivity.
  - rewrite <- !app_assoc. apply Permutation_app_head. apply IH. exact H.
Qed.

Lemma vec_update_Ok {A} (v v' : list A) (i : nat) (f : A -> A) :
  vec_update v i f = Ok v' -> exists a, v !! i = Some a /\ v' = <[i := f a]> v.
Proof.
  unfold vec_update. destruct (v !! i) as [a|]; [|discriminate].
  intros H. inversion H. eauto.
Qed.

Lemma vec_update_append (v v' : list (list nat)) (i e : nat) :
  vec_update v i (fun exs => exs ++ [e]) = Ok v' ->
  Permutation (concat v') (concat v ++ [e]).
Proof.
  intros H. apply vec_update_Ok in H as (x & Hx & ->).
  pose proof (concat_insert_perm v i x (x ++ [e]) Hx) as Hp.
  apply (Permutation_app_inv_r x). rewrite Hp, <- app_assoc.
  apply Permutation_app_head, Permutation_app_comm.
Qed.

Lemma assign_step_perm (layer_lines : list ExtrusionLine) (isl : list LinesDistancer)
    (ie ie' : list (list nat)) (e : nat) (ex : nat * nat) :
  assign_step layer_lines isl ie (e, ex) = Ok ie' ->
  Permutation (concat ie')
              (concat ie ++ (if is_seed layer_lines ex then [] else [e])).
Proof.
  unfold assign_step. intros H.
  apply bind_Ok in H as [b [Hb H]]. rewrite (is_seed_Ok _ _ _ Hb).
  destruct b; [inversion H; subst; rewrite app_nil_r; reflexivity|].
  apply bind_Ok in H as [l [_ H]].
  apply bind_Ok in H as [found [_ H]].
  destruct found; apply vec_update_append in H; exact H.
Qed.

Lemma assign_fold_perm (layer_lines : list ExtrusionLine) (isl : list LinesDistancer) :
  forall (l : list (nat * (nat * nat))) (ie ie' : list (list nat)),
    foldM (assign_step layer_lines isl) l ie = Ok ie' ->
    Permutation (concat ie')
      (concat ie
       ++ map fst (List.filter (fun p => negb (is_seed layer_lines (snd p))) l)).
Proof.
  induction l as [|[e ex] l IH]; intros ie ie' H; simpl in H.
  - inversion H; subst. simpl. rewrite app_nil_r. reflexivity.
  - apply bind_Ok in H as [ie1 [H1 H]].
    apply assign_step_perm in H1. apply IH in H. rewrite H, H1. simpl.
    destruct (is_seed layer_lines ex); simpl.
    + rewrite app_nil_r. reflexivity.
    + rewrite <- app_assoc. reflexivity.
Qed.

Lemma merge_pair_perm (isl : list LinesDistancer) (i j : nat) (ie ie' : list (list nat)) :
  merge_pair isl i ie j = Ok ie' -> Permutation (concat ie') (concat ie).
Proof.
  unfold merge_pair. intros H.
  apply bind_Ok in H as [dj [_ H]].
  destruct (bool_decide (get_lines dj = []) || Nat.eqb i j) eqn:Hskip;
    [inversion H; subst; reflexivity|].
  apply orb_false_iff in Hskip as [_ Hij]. apply Nat.eqb_neq in Hij.
  apply bind_Ok in H as [di [_ H]].
  apply bind_Ok in H as [lj [_ H]].
  apply bind_Ok in H as [[[dist idx] pt] [_ H]].
  destruct (flt dist F32.zero); [|inversion H; subst; reflexivity].
  apply bind_Ok in H as [exs_j [Hj H]].
  apply bind_Ok in H as [ie1 [H1 H]].
  apply vec_update_Ok in H1 as (xi & Hi & ->).
  apply vec_update_Ok in H as (xj & Hj' & ->).
  rewrite list_lookup_insert_ne in Hj' by auto.
  unfold vec_at in Hj. rewrite Hj' in Hj. inversion Hj; subst xj.
  pose proof (concat_insert_perm ie i xi (xi ++ exs_j) Hi) as P1.
  assert (Hj1 : <[i := xi ++ exs_j]> ie !! j = Some exs_j)
    by (rewrite list_lookup_insert_ne by auto; exact Hj').
  pose proof (concat_insert_perm _ j exs_j [] Hj1) as P2.
  rewrite app_nil_r in P2.
  apply (Permutation_app_inv_r (exs_j ++ xi)).
  rewrite app_assoc, P2, P1.
  rewrite (Permutation_app_comm exs_j xi). reflexivity.
Qed.

Lemma merge_rows_perm (isl : list LinesDistancer) (rows : list nat)
    (ie ie' : list (list nat)) :
  foldM (merge_row isl) rows ie = Ok ie' -> Permutation (concat ie') (concat ie).
Proof.
  apply (foldM_invariant (fun s => Permutation (concat s) (concat ie))); [|reflexivity].
  intros s i s' Hs H. unfold merge_row in H.
  apply bind_Ok in H as [di [_ H]].
  destruct (bool_decide (get_lines di = [])); [inversion H; subst; exact Hs|].
  revert H.
  apply (foldM_invariant (fun s => Permutation (concat s) (concat ie))); [|exact Hs].
  intros t j t' Ht H. rewrite (merge_pair_perm _ _ _ _ _ H). exact Ht.
Qed.

Lemma filter_split_perm {A} (f : A -> bool) (l : list A) :
  Permutation (List.filter f l ++ List.filter (fun a => negb (f a)) l) l.
Proof.
  induction l as [|a l IH]; simpl; [reflexivity|].
  destruct (f a); simpl.
  - constructor. exact IH.
  - rewrite <- Permutation_middle. constructor. exact IH.
Qed.

Lemma imap_fst_seq {A} (l : list A) :
  forall k, map fst (imap (fun e (ex : A) => ((k + e)%nat, ex)) l) = seq k (length l).
Proof.
  induction l as [|a l IH]; intros k; simpl; [reflexivity|].
  rewrite Nat.add_0_r. f_equal. rewrite <- (IH (S k)). f_equal.
  apply imap_ext. intros i x _. simpl. f_equal. lia.
Qed.

Lemma assign_extrusions_seeded (layer_lines : list ExtrusionLine)
    (extrusions : list (nat * nat)) (island_extrusions : list (list nat)) :
  Exists (fun ex => is_seed layer_lines ex = true) extrusions ->
  assign_extrusions layer_lines extrusions = Ok island_extrusions ->
  Permutation (concat island_extrusions) (seq 0 (length extrusions)).
Proof.
  intros Hseed H. unfold assign_extrusions in H.
  apply bind_Ok in H as [seeds [Hs H]]. cbv zeta in H.
  apply bind_Ok in H as [ie [Ha H]].
  apply merge_rows_perm in H. rewrite H. clear H.
  destruct (seed_fold _ _ _ _ Hs) as [Hlen Hsnd]. simpl in Hlen, Hsnd.
  set (indexed := imap (fun e ex => (e, ex)) extrusions) in *.
  assert (Hne : fst seeds <> []).
  { intros Hnil. rewrite Hnil in Hlen. simpl in Hlen.
    apply Exists_exists in Hseed as (ex & Hin & Hex).
    apply list_elem_of_lookup in Hin as [k Hk].
    assert (Hin' : In (k, ex) (List.filter (fun p => is_seed layer_lines (snd p)) indexed)).
    { apply filter_In. split; [|exact Hex].
      apply (proj1 (list_elem_of_In _ _)). apply list_elem_of_lookup. exists k.
      unfold indexed.
      rewrite list_lookup_imap, Hk. reflexivity. }
    destruct (List.filter _ indexed); [destruct Hin' | discriminate]. }
  assert (Hsame : match fst seeds, extrusions with
                  | [], ex0 :: _ =>
                      ([mkLinesDistancer (lines_range layer_lines ex0)], [[0%nat]])
                  | _, _ => seeds
                  end = seeds).
  { destruct (fst seeds); [contradiction | reflexivity]. }
  rewrite Hsame in Ha. apply assign_fold_perm in Ha. rewrite Ha, Hsnd.
  assert (Hc : forall l : list (nat * (nat * nat)),
             concat (map (fun p => [fst p]) l) = map fst l).
  { induction l as [|p l IHl]; simpl; [reflexivity | rewrite IHl; reflexivity]. }
  rewrite Hc, <- map_app, filter_split_perm.
  unfold indexed. exact (eq_ind _ (fun l => Permutation l _) (Permutation_refl _) _
                           (eq_sym (imap_fst_seq extrusions 0))).
Qed.

(** X17: When a layer has an extrusion which starts with an external perimeter
    line, [reckon_islands] sorts every extrusion into exactly one island:
    after the seeding, the assignment and the merging, the lists of the
    islands hold each index of an extrusion once. *)
Theorem every_extrusion_is_in_one_island (layer_lines : list ExtrusionLine)
    (extrusions : list (nat * nat)) (island_extrusions : list (list nat)) :
  Exists (fun ex => is_seed layer_lines ex = true) extrusions ->
  assign_extrusions layer_lines extrusions = Ok island_extrusions ->
  Permutation (concat island_extrusions) (seq 0 (length extrusions)).
Proof. apply assign_extrusions_seeded. Qed.

Lemma every_extrusion_is_in_one_island_witness :
  exists island_extrusions,
    assign_extrusions RasterSample.layer_lines [(0, 1); (1, 2)]%nat = Ok island_extrusions /\
    Permutation (concat island_extrusions) [0; 1]%nat.
Proof.
  destruct (assign_extrusions RasterSample.layer_lines [(0, 1); (1, 2)]%nat)
    as [ie| |] eqn:E.
  - exists ie. split; [reflexivity|].
    apply (every_extrusion_is_in_one_island RasterSample.layer_lines
             [(0, 1); (1, 2)]%nat ie); [|exact E].
    apply Exists_cons_hd. vm_compute. reflexivity.
  - vm_compute in E. discriminate E.
  - vm_compute in E. discriminate E.
Defined.

Lemma find_island_single (d : LinesDistancer) (p : Vec2f) (found : option nat) :
  find_island [d] p 0 = Ok found -> found = Some 0%nat \/ found = None.
Proof.
  simpl. intros H. apply bind_Ok in H as [[[dist idx] pt] [_ H]].
  destruct (flt dist F32.zero); inversion H; auto.
Qed.

Lemma assign_fold_single (layer_lines : list ExtrusionLine) (d : LinesDistancer) :
  forall (l : list (nat * (nat * nat))) (acc : list nat) (ie' : list (list nat)),
    Forall (fun p => is_seed layer_lines (snd p) = false) l ->
    foldM (assign_step layer_lines [d]) l [acc] = Ok ie' ->
    ie' = [acc ++ map fst l].
Proof.
  induction l as [|[e ex] l IH]; intros acc ie' Hall H; simpl in H.
  - inversion H; subst. simpl. rewrite app_nil_r. reflexivity.
  - inversion Hall as [|? ? He Hall']; subst. simpl in He.
    apply bind_Ok in H as [ie1 [H1 H]]. unfold assign_step in H1.
    apply bind_Ok in H1 as [b [Hb H1]]. apply is_seed_Ok in Hb.
    rewrite He in Hb. subst b.
    apply bind_Ok in H1 as [l0 [_ H1]].
    apply bind_Ok in H1 as [found [Hfound H1]].
    assert (Hie1 : ie1 = [acc ++ [e]]).
    { destruct (find_island_single _ _ _ Hfound) as [-> | ->];
        unfold vec_update in H1; simpl in H1; inversion H1; reflexivity. }
    subst ie1. rewrite (IH _ _ Hall' H). simpl. rewrite <- app_assoc. reflexivity.
Qed.

Lemma merge_pair_diag (isl : list LinesDistancer) (i : nat) (ie ie' : list (list nat)) :
  merge_pair isl i ie i = Ok ie' -> ie' = ie.
Proof.
  unfold merge_pair. intros H. apply bind_Ok in H as [dj [_ H]].
  rewrite Nat.eqb_refl, orb_true_r in H. inversion H; reflexivity.
Qed.

Lemma merge_row_single (d : LinesDistancer) (ie ie' : list (list nat)) :
  merge_row [d] ie 0 = Ok ie' -> ie' = ie.
Proof.
  unfold merge_row. intros H. apply bind_Ok in H as [di [_ H]].
  destruct (bool_decide _); [inversion H; reflexivity|].
  cbn [length seq foldM] in H. apply bind_Ok in H as [s [H1 H]].
  apply merge_pair_diag in H1. inversion H; subst. reflexivity.
Qed.

Lemma assign_extrusions_backup (layer_lines : list ExtrusionLine)
    (extrusions : list (nat * nat)) (island_extrusions : list (list nat)) :
  extrusions <> [] ->
  Forall (fun ex => is_seed layer_lines ex = false) extrusions ->
  assign_extrusions layer_lines extrusions = Ok island_extrusions ->
  island_extrusions = [0%nat :: seq 0 (length extrusions)].
Proof.
  intros Hne Hall H. unfold assign_extrusions in H.
  apply bind_Ok in H as [seeds [Hs H]]. cbv zeta in H.
  set (indexed := imap (fun e ex => (e, ex)) extrusions) in *.
  assert (Hindexed : Forall (fun p => is_seed layer_lines (snd p) = false) indexed).
  { apply Forall_forall. intros [e ex] Hin.
    apply list_elem_of_lookup in Hin as [k Hk]. unfold indexed in Hk.
    rewrite list_lookup_imap in Hk.
    destruct (extrusions !! k) as [ex'|] eqn:E; [|discriminate]. simpl in Hk.
    inversion Hk; subst. simpl. rewrite Forall_forall in Hall. apply Hall.
    eapply list_elem_of_lookup_2; eauto. }
  assert (Hnone : List.filter (fun p => is_seed layer_lines (snd p)) indexed = []).
  { clear -Hindexed. induction Hindexed as [|p l Hp _ IH]; simpl; [reflexivity|].
    rewrite Hp. exact IH. }
  destruct (seed_fold _ _ _ _ Hs) as [Hlen _]. rewrite Hnone in Hlen. simpl in Hlen.
  destruct (fst seeds) as [|d0 ds]; [|discriminate].
  destruct extrusions as [|ex0 rest] eqn:Eex; [contradiction|].
  cbn [fst snd length seq] in H.
  apply bind_Ok in H as [ie [Ha H]].
  apply (assign_fold_single _ _ _ _ _ Hindexed) in Ha. subst ie.
  cbn [length seq foldM] in H. apply bind_Ok in H as [ie [Hm H]].
  apply merge_row_single in Hm. injection H as <-. subst ie.
  unfold indexed. simpl. f_equal. f_equal.
  exact (imap_fst_seq (ex0 :: rest) 0).
Qed.

(** X18: When no extrusion of a layer starts with an external perimeter line,
    the backup code of [reckon_islands] makes one island of the first
    extrusion, and the assignment loop, which skips only the extrusions
    that start with an external perimeter line, then adds every extrusion
    to that island, the first one again: the list of the island is
    0, 0, 1, ..., with the first extrusion in it twice. *)
Theorem backup_island_lists_the_first_extrusion_twice (layer_lines : list ExtrusionLine)
    (extrusions : list (nat * nat)) (island_extrusions : list (list nat)) :
  extrusions <> [] ->
  Forall (fun ex => is_seed layer_lines ex = false) extrusions ->
  assign_extrusions layer_lines extrusions = Ok island_extrusions ->
  island_extrusions = [0%nat :: seq 0 (length extrusions)].
Proof. apply assign_extrusions_backup. Qed.

Lemma backup_island_lists_the_first_extrusion_twice_witness :
  assign_extrusions IslandSample.layer_lines IslandSample.extrusions = Ok [[0; 0; 1]%nat].
Proof.
  destruct (assign_extrusions IslandSample.layer_lines IslandSample.extrusions)
    as [ie| |] eqn:E.
  - f_equal.
    apply (backup_island_lists_the_first_extrusion_twice IslandSample.layer_lines
             IslandSample.extrusions ie); [discriminate | | exact E].
    repeat constructor.
  - vm_compute in E. discriminate E.
  - vm_compute in E. discriminate E.
Defined.

(** ** The island of a line *)

Lemma extract_extrusions_first_origin (layer_lines : list ExtrusionLine)
    (extrusions : list (nat * nat)) :
  extract_extrusions layer_lines = Ok extrusions ->
  forall l, layer_lines !! 0%nat = Some l -> origin_entity l <> None.
Proof.
  intros H l Hl Ho. destruct layer_lines as [|l0 rest]; [discriminate|].
  simpl in Hl. inversion Hl; subst l0. unfold extract_extrusions in H.
  simpl in H. rewrite Ho in H. simpl in H. discriminate.
Qed.

Lemma extract_extrusions_contiguous (layer_lines : list ExtrusionLine)
    (extrusions : list (nat * nat)) :
  extract_extrusions layer_lines = Ok extrusions ->
  contiguous 0 extrusions (length layer_lines).
Proof.
  intros H.
  destruct (extrusions_fold layer_lines (extract_extrusions_first_origin _ _ H))
    as ([exs cur] & Hf & Hinv).
  unfold extract_extrusions in H. rewrite Hf in H. simpl in H. inversion H; subst exs.
  destruct Hinv as [(-> & Hexs & _) | (init & a & Hexs & Hc & Ha & _)];
    simpl in Hexs; subst extrusions.
  - reflexivity.
  - apply contiguous_snoc. auto.
Qed.

Lemma contiguous_length (s : nat) (exs : list (nat * nat)) (e : nat) :
  contiguous s exs e -> (s + length exs <= e)%nat.
Proof.
  revert s. induction exs as [|ex exs IH]; intros s; simpl.
  - lia.
  - intros (H1 & H2 & H3). apply IH in H3. lia.
Qed.

Lemma contiguous_covers (s : nat) (exs : list (nat * nat)) (e k : nat) :
  contiguous s exs e -> (s <= k < e)%nat ->
  exists i r, exs !! i = Some r /\ (fst r <= k < snd r)%nat.
Proof.
  revert s. induction exs as [|ex exs IH]; intros s; simpl.
  - lia.
  - intros (H1 & H2 & H3) Hk.
    destruct (decide (k < snd ex)%nat) as [Hlt|Hge].
    + exists 0%nat, ex. split; [reflexivity | lia].
    + destruct (IH _ H3 ltac:(lia)) as (i & r & Hi & Hr).
      exists (S i), r. auto.
Qed.

Lemma vec_update_length {A} (v v' : list A) (i : nat) (f : A -> A) :
  vec_update v i f = Ok v' -> length v' = length v.
Proof. intros H. apply vec_update_Ok in H as (a & _ & ->). apply length_insert. Qed.

Lemma assign_step_length (layer_lines : list ExtrusionLine) (isl : list LinesDistancer)
    (ie ie' : list (list nat)) (p : nat * (nat * nat)) :
  assign_step layer_lines isl ie p = Ok ie' -> length ie' = length ie.
Proof.
  destruct p as [e ex]. unfold assign_step. intros H.
  apply bind_Ok in H as [b [_ H]].
  destruct b; [inversion H; reflexivity|].
  apply bind_Ok in H as [l [_ H]].
  apply bind_Ok in H as [found [_ H]].
  destruct found; eapply vec_update_length; eauto.
Qed.

Lemma merge_pair_length (isl : list LinesDistancer) (i j : nat) (ie ie' : list (list nat)) :
  merge_pair isl i ie j = Ok ie' -> length ie' = length ie.
Proof.
  unfold merge_pair. intros H.
  apply bind_Ok in H as [dj [_ H]].
  destruct (_ || _); [inversion H; reflexivity|].
  apply bind_Ok in H as [di [_ H]].
  apply bind_Ok in H as [lj [_ H]].
  apply bind_Ok in H as [[[dist idx] pt] [_ H]].
  destruct (flt dist F32.zero); [|inversion H; reflexivity].
  apply bind_Ok in H as [exs_j [_ H]].
  apply bind_Ok in H as [ie1 [H1 H]].
  apply vec_update_length in H1. apply vec_update_length in H. congruence.
Qed.

Lemma assign_extrusions_length (layer_lines : list ExtrusionLine)
    (extrusions : list (nat * nat)) (island_extrusions : list (list nat)) :
  assign_extrusions layer_lines extrusions = Ok island_extrusions ->
  (length island_extrusions <= length extrusions)%nat.
Proof.
  unfold assign_extrusions. intros H.
  apply bind_Ok in H as [seeds [Hs H]]. cbv zeta in H.
  apply bind_Ok in H as [ie [Ha H]].
  assert (Hm : length island_extrusions = length ie).
  { revert H. apply (foldM_invariant (fun s => length s = length ie)); [|reflexivity].
    intros s i s' Hs' H. unfold merge_row in H.
    apply bind_Ok in H as [di [_ H]].
    destruct (bool_decide _); [inversion H; subst; exact Hs'|].
    revert H. apply (foldM_invariant (fun s => length s = length ie)); [|exact Hs'].
    intros t j t' Ht H. rewrite (merge_pair_length _ _ _ _ _ H). exact Ht. }
  rewrite Hm. clear Hm H.
  assert (Hl : forall init, foldM (assign_step layer_lines
                 (fst match fst seeds, extrusions with
                      | [], ex0 :: _ =>
                          ([mkLinesDistancer (lines_range layer_lines ex0)], [[0%nat]])
                      | _, _ => seeds
                      end))
                 (imap (fun e ex => (e, ex)) extrusions) init = Ok ie ->
               length ie = length init).
  { intros init. apply (foldM_invariant (fun s => length s = length init)); [|reflexivity].
    intros s p s' Hs' H. rewrite (assign_step_length _ _ _ _ _ H). exact Hs'. }
  rewrite (Hl _ Ha).
  destruct (seed_fold _ _ _ _ Hs) as [_ Hsnd]. simpl in Hsnd.
  destruct (fst seeds) as [|d ds]; [destruct extrusions as [|ex0 rest]|].
  - rewrite Hsnd. simpl. lia.
  - simpl. lia.
  - rewrite Hsnd, length_map.
    pose proof (List.filter_length (fun p => is_seed layer_lines (snd p))
                  (imap (fun e ex => (e, ex)) extrusions)) as Hf.
    rewrite length_imap in Hf. lia.
Qed.

Lemma assign_extrusions_cover (layer_lines : list ExtrusionLine)
    (extrusions : list (nat * nat)) (island_extrusions : list (list nat)) :
  assign_extrusions layer_lines extrusions = Ok island_extrusions ->
  forall e, (e < length extrusions)%nat -> e ∈ concat island_extrusions.
Proof.
  intros H e He.
  destruct (Exists_dec (fun ex => is_seed layer_lines ex = true) extrusions)
    as [Hseed|Hnone].
  - rewrite (assign_extrusions_seeded _ _ _ Hseed H). apply elem_of_seq. lia.
  - assert (Hall : Forall (fun ex => is_seed layer_lines ex = false) extrusions).
    { apply Forall_forall. intros ex Hin.
      destruct (is_seed layer_lines ex) eqn:E; [|reflexivity].
      exfalso. apply Hnone. apply Exists_exists. exists ex. split; [|exact E].
      exact Hin. }
    assert (Hne : extrusions <> []) by (intros ->; simpl in He; lia).
    rewrite (assign_extrusions_backup _ _ _ Hne Hall H). simpl. rewrite app_nil_r.
    right. apply elem_of_seq. lia.
Qed.

Lemma island_line_step_writes (layer : Layer) (first_layer : bool) (fw : float)
    (layer_lines : list ExtrusionLine) (island_idx : N) (st st' : Island * list N)
    (lidx : nat) :
  island_line_step layer first_layer fw layer_lines island_idx st lidx = Ok st' ->
  island_idx <> NULL_ISLAND ->
  length (snd st') = length (snd st) /\
  has_island (snd st') lidx /\
  forall k, has_island (snd st) k -> has_island (snd st') k.
Proof.
  unfold island_line_step. destruct st as [island mapping]. simpl.
  intros H Hidx. apply bind_Ok in H as [m [Hm H]].
  apply bind_Ok in H as [line [_ H]].
  destruct (origin_entity line); [|discriminate].
  inversion H; subst; clear H. simpl.
  apply vec_update_Ok in Hm as (a & Ha & ->).
  pose proof (lookup_lt_Some _ _ _ Ha) as Hlt.
  split; [apply length_insert|]. split.
  - exists island_idx. split; [apply list_lookup_insert_eq; exact Hlt | exact Hidx].
  - intros k (p & Hp & Hn). destruct (decide (k = lidx)) as [->|Hne].
    + exists island_idx. split; [apply list_lookup_insert_eq; exact Hlt | exact Hidx].
    + exists p. split; [rewrite list_lookup_insert_ne by auto; exact Hp | exact Hn].
Qed.

Lemma line_fold_writes (layer : Layer) (first_layer : bool) (fw : float)
    (layer_lines : list ExtrusionLine) (island_idx : N) :
  island_idx <> NULL_ISLAND ->
  forall (idxs : list nat) (st st' : Island * list N),
    foldM (island_line_step layer first_layer fw layer_lines island_idx) idxs st = Ok st' ->
    length (snd st') = length (snd st) /\
    (forall k, k ∈ idxs -> has_island (snd st') k) /\
    (forall k, has_island (snd st) k -> has_island (snd st') k).
Proof.
  intros Hidx. induction idxs as [|i idxs IH]; intros st st' H; simpl in H.
  - inversion H; subst. split; [reflexivity|]. split; [|auto].
    intros k Hk. inversion Hk.
  - apply bind_Ok in H as [st1 [H1 H]].
    destruct (island_line_step_writes _ _ _ _ _ _ _ _ H1 Hidx) as (Hl1 & Hw1 & Hk1).
    destruct (IH _ _ H) as (Hl & Hw & Hk).
    split; [congruence|]. split; [|auto].
    intros k Hin. apply elem_of_cons in Hin as [->|Hin]; auto.
Qed.

Lemma extrusion_fold_writes (layer : Layer) (first_layer : bool) (fw : float)
    (layer_lines : list ExtrusionLine) (extrusions : list (nat * nat)) (island_idx : N) :
  island_idx <> NULL_ISLAND ->
  forall (l : list nat) (st st' : Island * list N),
    foldM (fun im extrusion_idx =>
             range <- vec_at extrusions extrusion_idx ;;
             foldM (island_line_step layer first_layer fw layer_lines island_idx)
                   (seq (fst range) (snd range - fst range)) im) l st = Ok st' ->
    length (snd st') = length (snd st) /\
    (forall e r k, e ∈ l -> extrusions !! e = Some r -> (fst r <= k < snd r)%nat ->
                   has_island (snd st') k) /\
    (forall k, has_island (snd st) k -> has_island (snd st') k).
Proof.
  intros Hidx. induction l as [|e l IH]; intros st st' H; simpl in H.
  - inversion H; subst. split; [reflexivity|]. split; [|auto].
    intros e r k He. inversion He.
  - apply bind_Ok in H as [st1 [H1 H]].
    apply bind_Ok in H1 as [range [Hr H1]]. apply vec_at_Ok in Hr.
    destruct (line_fold_writes _ _ _ _ _ Hidx _ _ _ H1) as (Hl1 & Hw1 & Hk1).
    destruct (IH _ _ H) as (Hl & Hw & Hk).
    split; [congruence|]. split; [|auto].
    intros e' r k Hin He' Hk'. apply elem_of_cons in Hin as [->|Hin].
    + rewrite Hr in He'. inversion He'; subst r.
      apply Hk, Hw1. apply elem_of_seq. lia.
    + eapply Hw; eauto.
Qed.

Lemma build_island_step_writes (layer : Layer) (first_layer : bool) (fw : float)
    (layer_lines : list ExtrusionLine) (extrusions : list (nat * nat))
    (st st' : list Island * list N) (island_ex : list nat) :
  build_island_step layer first_layer fw layer_lines extrusions st island_ex = Ok st' ->
  (N.of_nat (length (fst st)) < NULL_ISLAND)%N ->
  length (snd st') = length (snd st) /\
  (length (fst st') <= length (fst st) + 1)%nat /\
  (forall e r k, e ∈ island_ex -> extrusions !! e = Some r -> (fst r <= k < snd r)%nat ->
                 has_island (snd st') k) /\
  (forall k, has_island (snd st) k -> has_island (snd st') k).
Proof.
  unfold build_island_step. intros H Hidx.
  destruct island_ex as [|ex0 rest].
  - inversion H; subst. split; [reflexivity|]. split; [lia|]. split; [|auto].
    intros e r k He. inversion He.
  - apply bind_Ok in H as [range0 [_ H]].
    apply bind_Ok in H as [im [Him H]].
    inversion H; subst; clear H. simpl. rewrite length_app. simpl.
    destruct (extrusion_fold_writes layer first_layer fw layer_lines extrusions
                (N.of_nat (length (fst st))) ltac:(lia) _ _ _ Him) as (Hl & Hw & Hk).
    simpl in Hl, Hk. split; [exact Hl|]. split; [lia|]. split; [exact Hw | exact Hk].
Qed.

Lemma build_fold_writes (layer : Layer) (first_layer : bool) (fw : float)
    (layer_lines : list ExtrusionLine) (extrusions : list (nat * nat)) :
  forall (ie : list (list nat)) (st st' : list Island * list N),
    foldM (build_island_step layer first_layer fw layer_lines extrusions) ie st = Ok st' ->
    (N.of_nat (length (fst st) + length ie) <= NULL_ISLAND)%N ->
    length (snd st') = length (snd st) /\
    (forall e r k, e ∈ concat ie -> extrusions !! e = Some r -> (fst r <= k < snd r)%nat ->
                   has_island (snd st') k) /\
    (forall k, has_island (snd st) k -> has_island (snd st') k).
Proof.
  induction ie as [|l ie IH]; intros st st' H Hb; simpl in H.
  - inversion H; subst. split; [reflexivity|]. split; [|auto].
    intros e r k He. inversion He.
  - apply bind_Ok in H as [st1 [H1 H]]. simpl in Hb.
    destruct (build_island_step_writes _ _ _ _ _ _ _ _ H1 ltac:(lia))
      as (Hl1 & Hn1 & Hw1 & Hk1).
    destruct (IH _ _ H ltac:(lia)) as (Hl & Hw & Hk).
    split; [congruence|]. split; [|auto].
    intros e r k Hin He Hk'. simpl in Hin. apply elem_of_app in Hin as [Hin|Hin].
    + apply Hk. eapply Hw1; eauto.
    + eapply Hw; eauto.
Qed.

(** X19: When the first part of [reckon_islands] succeeds for a layer of
    at most 2^64 - 1 lines, the [line_to_island_mapping] has an entry
    for every line of the layer, and every entry is the index of an island
    which has been built: no line is left with [NULL_ISLAND]. *)
Theorem every_line_is_in_an_island (layer : Layer) (first_layer : bool)
    (layer_lines : list ExtrusionLine) (built : list Island)
    (line_to_island_mapping : list N) :
  (N.of_nat (length layer_lines) <= NULL_ISLAND)%N ->
  build_islands layer first_layer layer_lines = Ok (built, line_to_island_mapping) ->
  length line_to_island_mapping = length layer_lines /\
  Forall (fun p => (p < N.of_nat (length built))%N) line_to_island_mapping.
Proof.
  intros Hbound H.
  destruct (build_islands_mapping _ _ _ _ _ H) as [Hvalid _].
  rewrite build_islands_phases in H.
  apply bind_Ok in H as [extrusions [He H]].
  apply bind_Ok in H as [ie [Ha H]].
  apply bind_Ok in H as [region0 [_ H]].
  pose proof (extract_extrusions_contiguous _ _ He) as Hc.
  pose proof (contiguous_length _ _ _ Hc) as Hlen.
  pose proof (assign_extrusions_length _ _ _ Ha) as Hie.
  destruct (build_fold_writes _ _ _ _ _ _ _ _ H) as (Hl & Hw & _).
  { simpl. lia. }
  simpl in Hl. rewrite length_replicate in Hl. split; [exact Hl|].
  apply Forall_lookup. intros k p Hp.
  pose proof (lookup_lt_Some _ _ _ Hp) as Hk. rewrite Hl in Hk.
  destruct (contiguous_covers _ _ _ k Hc ltac:(lia)) as (e & r & Hr & Hkr).
  pose proof (lookup_lt_Some _ _ _ Hr) as Helt.
  destruct (Hw e r k (assign_extrusions_cover _ _ _ Ha e Helt) Hr Hkr)
    as (p' & Hp' & Hnull).
  simpl in Hp'. rewrite Hp in Hp'. inversion Hp'; subst p'.
  rewrite Forall_lookup in Hvalid. destruct (Hvalid k p Hp) as [Hn|Hlt];
    [contradiction | exact Hlt].
Qed.

Lemma every_line_is_in_an_island_witness :
  exists built mapping,
    build_islands RasterSample.layer true RasterSample.layer_lines = Ok (built, mapping) /\
    length mapping = 2%nat /\
    Forall (fun p => (p < N.of_nat (length built))%N) mapping.
Proof.
  destruct (build_islands RasterSample.layer true RasterSample.layer_lines)
    as [[built mapping]| |] eqn:E.
  - exists built, mapping. split; [reflexivity|].
    apply (every_line_is_in_an_island RasterSample.layer true RasterSample.layer_lines
             built mapping); [|exact E].
    vm_compute. discriminate.
  - vm_compute in E. discriminate E.
  - vm_compute in E. discriminate E.
Defined.

(** ** The links of the graph *)

Lemma overlap_cell_below (g p : PixelGrid) (z : float) (n : nat)
    (isls isls' : list Island) (c : Vec2i) :
  Forall (valid_pixel n) (pixels p) ->
  Forall (connections_below n) isls ->
  overlap_cell g p z isls c = Ok isls' ->
  Forall (connections_below n) isls'.
Proof.
  unfold overlap_cell. intros Hp Hs H.
  apply bind_Ok in H as [a [_ H]].
  destruct (N.eqb a NULL_ISLAND); [inversion H; subst; exact Hs|].
  apply bind_Ok in H as [b [Hb H]].
  destruct (N.eqb_spec b NULL_ISLAND) as [|Hnull]; [inversion H; subst; exact Hs|].
  apply vec_updateN_Ok in H as (isl & Hisl & ->).
  apply Forall_insert; [exact Hs|].
  intros k Hk. simpl in Hk. rewrite lookup_insert_is_Some in Hk.
  destruct Hk as [<-|[_ Hk]].
  - apply get_pixel_elem in Hb. rewrite Forall_forall in Hp.
    destruct (Hp b Hb) as [Hn|Hlt]; [contradiction | exact Hlt].
  - rewrite Forall_forall in Hs. apply (Hs isl); [|exact Hk].
    eapply list_elem_of_lookup_2; eauto.
Qed.

Lemma reckon_islands_below (fuel : nat) (layer : Layer) (first_layer : bool)
    (prev_layer_islands_count : N) (prev_layer_grid : PixelGrid)
    (layer_lines : list ExtrusionLine) (params : Params)
    (result_islands : LayerIslands) (current_layer_grid : PixelGrid) (n : nat) :
  Forall (valid_pixel n) (pixels prev_layer_grid) ->
  reckon_islands fuel layer first_layer prev_layer_islands_count prev_layer_grid
                 layer_lines params = Ok (result_islands, current_layer_grid) ->
  Forall (connections_below n) (islands result_islands).
Proof.
  unfold reckon_islands. intros Hvalid H.
  apply bind_Ok in H as [[built mapping] [Hbuilt H]]. cbv zeta in H. simpl in H.
  apply bind_Ok in H as [grid [Hr H]].
  apply bind_Ok in H as [isls [Hfold H]]. inversion H; subst; clear H. simpl.
  destruct (build_islands_mapping _ _ _ _ _ Hbuilt) as [_ Hnone].
  revert Hfold.
  apply (foldM_invariant (fun s => Forall (connections_below n) s)).
  - intros s c s' Hs H. eapply overlap_cell_below; eauto.
  - eapply Forall_impl; [exact Hnone|]. intros isl He k Hk. simpl in He.
    rewrite He, lookup_empty in Hk. destruct Hk; discriminate.
Qed.

Lemma build_layers_linked (unscale : Z -> double) (angle : Vec2f -> Vec2f -> float)
    (PI : double) (fuel : nat) (params : Params) (ls : list Layer) :
  forall (st st' : BuildState) (n : nat),
    Forall (valid_pixel n) (pixels (bs_prev_layer_grid st)) ->
    foldM (build_layer unscale angle PI fuel params) ls st = Ok st' ->
    exists gs, islands_graph st' = islands_graph st ++ gs /\ linked_layers n gs.
Proof.
  induction ls as [|layer ls IH]; intros st st' n Hvalid H; simpl in H.
  - inversion H; subst. exists []. rewrite app_nil_r. split; [reflexivity | exact I].
  - apply bind_Ok in H as [st1 [H1 H]].
    unfold build_layer in H1. apply bind_Ok in H1 as [li [_ H1]].
    apply bind_Ok in H1 as [[res g] [Hr H1]]. inversion H1; subst; clear H1.
    destruct (reckon_islands_raster _ _ _ _ _ _ _ _ _ Hr) as [_ Hg].
    pose proof (reckon_islands_below _ _ _ _ _ _ _ _ _ _ Hvalid Hr) as Hb.
    eapply IH in H; [|exact Hg]. destruct H as (gs & Hgs & Hl). simpl in Hgs.
    exists (res :: gs). split; [rewrite Hgs, <- app_assoc; reflexivity|].
    simpl. split; assumption.
Qed.

Lemma graph_linked (unscale : Z -> double)
    (angle : Vec2f -> Vec2f -> float) (PI : double) (fuel : nat)
    (po : PrintObject) (params : Params) (issues : Issues) (graph : list LayerIslands) :
  check_extrusions_and_build_graph unscale angle PI fuel po params = Ok (issues, graph) ->
  linked_layers 0 graph.
Proof.
  unfold check_extrusions_and_build_graph. intros H.
  apply bind_Ok in H as [last_layer [_ H]].
  apply bind_Ok in H as [region0 [_ H]].
  apply bind_Ok in H as [g0 [Hg0 H]].
  apply bind_Ok in H as [layer [_ H]].
  apply bind_Ok in H as [layer_lines [_ H]].
  apply bind_Ok in H as [[res g] [Hr H]].
  apply bind_Ok in H as [st [Hst H]]. inversion H; subst; clear H.
  assert (Hnull : Forall (valid_pixel 0) (pixels g0)).
  { unfold PixelGrid_new in Hg0. cbv zeta in Hg0.
    destruct (_ <? 0); [discriminate|]. inversion Hg0; subst. simpl.
    apply Forall_replicate. left. reflexivity. }
  destruct (reckon_islands_raster _ _ _ _ _ _ _ _ _ Hr) as [_ Hg].
  pose proof (reckon_islands_below _ _ _ _ _ _ _ _ _ _ Hnull Hr) as Hb.
  eapply build_layers_linked in Hst; [|exact Hg]. destruct Hst as (gs & Hgs & Hl).
  simpl in Hgs. rewrite Hgs. simpl. split; assumption.
Qed.

(** X20: In the graph which [check_extrusions_and_build_graph] returns, the
    islands of the base layer have no connections, and every connection
    of an island of another layer leads to an island of the layer right
    below it: its key is smaller than the number of islands of that
    layer.  These are the keys which the global pass looks up, with
    [at], in the maps it has filled for the layer below. *)
Theorem graph_links_lead_one_layer_down (unscale : Z -> double)
    (angle : Vec2f -> Vec2f -> float) (PI : double) (fuel : nat)
    (po : PrintObject) (params : Params) (issues : Issues) (graph : list LayerIslands) :
  check_extrusions_and_build_graph unscale angle PI fuel po params = Ok (issues, graph) ->
  linked_layers 0 graph.
Proof. apply graph_linked. Qed.

Lemma graph_links_lead_one_layer_down_witness :
  linked_layers 0 GlobalSample.graph /\ length GlobalSample.graph = 2%nat.
Proof.
  split; [|vm_compute; reflexivity].
  apply (graph_links_lead_one_layer_down Sample.unscale Sample.angle Sample.PI 100
           GlobalSample.po Sample.params (mkIssues []) GlobalSample.graph).
  vm_compute. reflexivity.
Defined.

(** ** The global pass between two layers *)

Lemma assign_part_weakest (fuel : nat) (layer_z : float) (prev_map : gmap N N)
    (prev_weakest : gmap N IslandConnection) (st st' : PartsState) (i : nat)
    (island : Island) :
  assign_part fuel layer_z prev_map prev_weakest st (i, island) = Ok st' ->
  forall j, N.of_nat i = j \/ is_Some (next_island_weakest_connection st !! j) ->
            is_Some (next_island_weakest_connection st' !! j).
Proof.
  unfold assign_part. cbn [fst snd]. intros H j Hj.
  case_bool_decide.
  - inversion H; subst; clear H. simpl. apply emplace_is_Some. exact Hj.
  - apply bind_Ok in H as [[[[parts ids] t] n] [_ H]].
    apply bind_Ok in H as [final [_ H]].
    apply bind_Ok in H as [parts2 [_ H]].
    apply bind_Ok in H as [r [_ H]].
    apply bind_Ok in H as [part [_ H]].
    inversion H; subst; clear H. simpl. apply emplace_is_Some. exact Hj.
Qed.

Lemma assign_fold_weakest (fuel : nat) (layer_z : float) (prev_map : gmap N N)
    (prev_weakest : gmap N IslandConnection) :
  forall (l : list (nat * Island)) (st st' : PartsState),
    foldM (assign_part fuel layer_z prev_map prev_weakest) l st = Ok st' ->
    forall j, (exists ii, ii ∈ l /\ N.of_nat (fst ii) = j) \/
              is_Some (next_island_weakest_connection st !! j) ->
              is_Some (next_island_weakest_connection st' !! j).
Proof.
  induction l as [|[i island] l IH]; intros st st' H j Hj; simpl in H.
  - inversion H; subst. destruct Hj as [(ii & Hin & _)|Hj]; [inversion Hin | exact Hj].
  - apply bind_Ok in H as [st1 [H1 H]].
    apply (IH _ _ H). destruct Hj as [(ii & Hin & Hj)|Hj].
    + apply elem_of_cons in Hin as [->|Hin].
      * right. apply (assign_part_weakest _ _ _ _ _ _ _ _ H1). left. exact Hj.
      * left. exists ii. auto.
    + right. apply (assign_part_weakest _ _ _ _ _ _ _ _ H1). right. exact Hj.
Qed.

Lemma assign_layer (fuel : nat) (layer_z : float) (prev_map : gmap N N)
    (prev_weakest : gmap N IslandConnection) (parts : ActiveObjectParts)
    (islands : list Island) (n : nat) :
  tracker_wf parts -> ids_known parts prev_map ->
  (forall j, (j < N.of_nat n)%N ->
             is_Some (prev_map !! j) /\ is_Some (prev_weakest !! j)) ->
  Forall (connections_below n) islands ->
  (N.to_nat (next_part_idx parts) + length islands <= fuel)%nat ->
  exists ps,
    foldM (assign_part fuel layer_z prev_map prev_weakest)
          (imap (fun i isl => (i, isl)) islands) (mkPartsState parts ∅ ∅) = Ok ps /\
    tracker_wf (ps_parts ps) /\
    ids_known (ps_parts ps) (next_island_to_object_part_mapping ps) /\
    (N.to_nat (next_part_idx (ps_parts ps))
     <= N.to_nat (next_part_idx parts) + length islands)%nat /\
    forall j, (j < N.of_nat (length islands))%N ->
              is_Some (next_island_to_object_part_mapping ps !! j) /\
              is_Some (next_island_weakest_connection ps !! j).
Proof.
  intros Hwf Hprev Hdom Hbelow Hfuel.
  destruct (assign_fold fuel layer_z prev_map prev_weakest
              (imap (fun i isl => (i, isl)) islands) (mkPartsState parts ∅ ∅) Hwf Hprev)
    as (ps & Hf & Hwf' & Hn & Hk & Hd).
  - intros i pid H. simpl in H. rewrite lookup_empty in H. discriminate.
  - apply Forall_forall. intros [i isl] Hin. simpl.
    apply list_elem_of_lookup in Hin as [k Hlk].
    rewrite list_lookup_imap in Hlk.
    destruct (islands !! k) as [isl'|] eqn:E; [|discriminate]. simpl in Hlk.
    inversion Hlk; subst. rewrite Forall_forall in Hbelow.
    intros c Hc. apply Hdom. apply (Hbelow isl); [|exact Hc].
    eapply list_elem_of_lookup_2; eauto.
  - rewrite length_imap. simpl. exact Hfuel.
  - exists ps. split; [exact Hf|]. split; [exact Hwf'|]. split; [exact Hk|].
    rewrite length_imap in Hn. simpl in Hn. split; [lia|].
    intros j Hj.
    assert (Hin : exists ii, ii ∈ imap (fun i isl => (i, isl)) islands /\
                             N.of_nat (fst ii) = j).
    { destruct (lookup_lt_is_Some_2 islands (N.to_nat j) ltac:(lia)) as [isl E].
      exists (N.to_nat j, isl). split; [|simpl; lia].
      apply list_elem_of_lookup. exists (N.to_nat j).
      rewrite list_lookup_imap, E. reflexivity. }
    split.
    + apply Hd. left. exact Hin.
    + apply (assign_fold_weakest _ _ _ _ _ _ _ Hf). left. exact Hin.
Qed.

Lemma get_flat_id_Ok (fuel : nat) (this : ActiveObjectParts) (id : N)
    (r : N * ActiveObjectParts) :
  tracker_wf this -> (N.to_nat (next_part_idx this) <= fuel)%nat ->
  get_flat_id fuel this id = Ok r ->
  tracker_wf (snd r) /\ next_part_idx (snd r) = next_part_idx this /\
  (id < next_part_idx this)%N.
Proof.
  intros Hwf Hfuel H.
  assert (Hid : (id < next_part_idx this)%N).
  { unfold get_flat_id in H. apply bind_Ok in H as [p [Hp _]].
    apply (wf_ids this Hwf). unfold map_at in Hp.
    destruct (active_object_parts_id_mapping this !! id); [eauto | discriminate]. }
  destruct (wf_leads this Hwf id Hid) as (r0 & Hr0 & _).
  destruct (get_flat_id_spec fuel this id r0 Hwf Hr0 Hfuel)
    as (this' & Hg & Hwf' & _ & Hnext & _).
  rewrite Hg in H. inversion H; subst. simpl. auto.
Qed.

Lemma check_island_keeps (PI EPSILON : double) (fuel : nat) (layer_z : float)
    (params : Params) (st st' : CheckState) (ii : nat * Island) (used : nat) :
  check_island PI EPSILON fuel layer_z params st ii = Ok st' ->
  (used <= fuel)%nat ->
  tracker_wf (cs_parts st) /\
  ids_known (cs_parts st) (prev_island_to_object_part_mapping st) /\
  (N.to_nat (next_part_idx (cs_parts st)) <= used)%nat ->
  (tracker_wf (cs_parts st') /\
   ids_known (cs_parts st') (prev_island_to_object_part_mapping st') /\
   (N.to_nat (next_part_idx (cs_parts st')) <= used)%nat) /\
  (forall j, is_Some (prev_island_to_object_part_mapping st !! j) ->
             is_Some (prev_island_to_object_part_mapping st' !! j)) /\
  (forall j, is_Some (prev_island_weakest_connection st !! j) ->
             is_Some (prev_island_weakest_connection st' !! j)).
Proof.
  unfold check_island. cbn [fst snd]. intros H Hused (Hwf & Hknown & Hnext).
  apply bind_Ok in H as [pid [Hpid H]].
  apply bind_Ok in H as [r [Hr H]].
  apply bind_Ok in H as [part [Hpart H]].
  apply bind_Ok in H as [ls [_ H]].
  inversion H; subst; clear H. simpl.
  destruct (get_flat_id_Ok fuel (cs_parts st) pid r Hwf ltac:(lia) Hr)
    as (Hwf' & Hnext' & Hlt).
  assert (Hp : is_Some (active_object_parts (snd r) !! fst r)).
  { unfold map_at in Hpart. destruct (active_object_parts (snd r) !! fst r);
      [eauto | discriminate]. }
  split; [split; [|split]|split].
  - apply tracker_wf_update_part; assumption.
  - intros j q Hq. simpl. rewrite Hnext'.
    unfold emplace in Hq, Hpid.
    destruct (prev_island_to_object_part_mapping st !! N.of_nat (fst ii)) eqn:E.
    + eapply Hknown; eauto.
    + destruct (decide (N.of_nat (fst ii) = j)) as [<-|Hne].
      * rewrite lookup_insert_eq in Hq. inversion Hq; subst q.
        unfold map_at in Hpid. rewrite lookup_insert_eq in Hpid.
        inversion Hpid; subst pid. exact Hlt.
      * rewrite lookup_insert_ne in Hq by auto. eapply Hknown; eauto.
  - rewrite Hnext'. exact Hnext.
  - intros j Hj. apply emplace_is_Some. right. exact Hj.
  - intros j Hj. rewrite lookup_insert_is_Some.
    destruct (decide (N.of_nat (fst ii) = j)); auto.
Qed.

Lemma check_layer_keeps (PI EPSILON : double) (fuel : nat) (params : Params)
    (st st' : CheckState) (layer : LayerIslands) (n used : nat) :
  check_layer PI EPSILON fuel params st layer = Ok st' ->
  pass_invariant n used st ->
  Forall (connections_below n) (islands layer) ->
  (used + length (islands layer) <= fuel)%nat ->
  pass_invariant (length (islands layer)) (used + length (islands layer)) st'.
Proof.
  unfold check_layer. intros H (Hwf & Hknown & Hnext & Hdom) Hbelow Hfuel.
  apply bind_Ok in H as [ps [Hps H]].
  destruct (assign_layer fuel (layer_z layer) _ _ _ _ n Hwf Hknown Hdom Hbelow
              ltac:(lia)) as (ps' & Hps' & Hwf1 & Hk1 & Hn1 & Hd1).
  rewrite Hps in Hps'. inversion Hps'; subst ps'. clear Hps'.
  assert (G : (tracker_wf (cs_parts st') /\
               ids_known (cs_parts st') (prev_island_to_object_part_mapping st') /\
               (N.to_nat (next_part_idx (cs_parts st'))
                <= used + length (islands layer))%nat) /\
              (forall j, is_Some (next_island_to_object_part_mapping ps !! j) ->
                         is_Some (prev_island_to_object_part_mapping st' !! j)) /\
              (forall j, is_Some (next_island_weakest_connection ps !! j) ->
                         is_Some (prev_island_weakest_connection st' !! j))).
  { revert H.
    apply (foldM_invariant
             (fun s : CheckState =>
                (tracker_wf (cs_parts s) /\
                 ids_known (cs_parts s) (prev_island_to_object_part_mapping s) /\
                 (N.to_nat (next_part_idx (cs_parts s))
                  <= used + length (islands layer))%nat) /\
                (forall j, is_Some (next_island_to_object_part_mapping ps !! j) ->
                           is_Some (prev_island_to_object_part_mapping s !! j)) /\
                (forall j, is_Some (next_island_weakest_connection ps !! j) ->
                           is_Some (prev_island_weakest_connection s !! j)))).
    - intros s ii s' (Hs & Hm & Hw) Hstep.
      destruct (check_island_keeps _ _ _ _ _ _ _ _ _ Hstep Hfuel Hs) as (Hs' & Hm' & Hw').
      split; [exact Hs'|]. split; intros j Hj; auto.
    - simpl. split; [|split; auto]. split; [exact Hwf1|]. split; [exact Hk1 | lia]. }
  destruct G as ((Hwf' & Hk' & Hn') & Hm & Hw).
  split; [exact Hwf'|]. split; [exact Hk'|]. split; [exact Hn'|].
  intros j Hj. destruct (Hd1 j Hj) as [Hj1 Hj2]. split; auto.
Qed.

Lemma islands_below_cons (n : nat) (l : LayerIslands) (done : list LayerIslands) :
  islands_below n (l :: done) = islands_below (length (islands l)) done.
Proof.
  unfold islands_below. destruct done as [|l2 done']; [reflexivity|].
  change (last (l :: l2 :: done')) with (last (l2 :: done')).
  destruct (last (l2 :: done')) eqn:E; [reflexivity|].
  apply last_None in E. discriminate.
Qed.

Lemma total_islands_app (a b : list LayerIslands) :
  total_islands (a ++ b) = (total_islands a + total_islands b)%nat.
Proof.
  unfold total_islands. induction a as [|l a IH]; simpl; [reflexivity|].
  rewrite IH. lia.
Qed.

Lemma run_keeps (PI EPSILON : double) (fuel : nat) (params : Params) :
  forall (done : list LayerIslands) (st st' : CheckState) (n used : nat),
    foldM (check_layer PI EPSILON fuel params) done st = Ok st' ->
    pass_invariant n used st ->
    linked_layers n done ->
    (used + total_islands done <= fuel)%nat ->
    pass_invariant (islands_below n done) (used + total_islands done) st'.
Proof.
  induction done as [|layer done IH]; intros st st' n used H Hinv Hl Hfuel; simpl in H.
  - inversion H; subst. unfold islands_below, total_islands. simpl.
    rewrite Nat.add_0_r. exact Hinv.
  - apply bind_Ok in H as [st1 [H1 H]]. destruct Hl as [Hb Hl].
    unfold total_islands in *. simpl in Hfuel.
    pose proof (check_layer_keeps _ _ _ _ _ _ _ _ _ H1 Hinv Hb ltac:(lia)) as Hinv1.
    pose proof (IH _ _ _ _ H Hinv1 Hl ltac:(lia)) as Hinv'.
    simpl. rewrite Nat.add_assoc, islands_below_cons. exact Hinv'.
Qed.

Lemma linked_layers_app (n : nat) (done : list LayerIslands) (layer : LayerIslands)
    (rest : list LayerIslands) :
  linked_layers n (done ++ layer :: rest) ->
  linked_layers n done /\
  Forall (connections_below (islands_below n done)) (islands layer).
Proof.
  revert n. induction done as [|l done IH]; intros n; simpl.
  - intros [Hb _]. split; [exact I | exact Hb].
  - intros [Hb Hl]. destruct (IH _ Hl) as [Hd Hlayer].
    split; [split; assumption|].
    rewrite islands_below_cons. exact Hlayer.
Qed.

(** X21: Over a graph in which every connection leads one layer down, as
    the graph of [check_extrusions_and_build_graph] does, and with fuel
    for as many steps as the graph has islands: whenever the global pass
    has come through the layers before a layer, the first loop of that
    layer succeeds and leaves a well formed tracker.  No [at] in it
    misses its key, no [get_flat_id] runs on, and no [merge] takes the
    part of a representative away from it. *)
Theorem merging_loop_succeeds_at_every_layer (PI EPSILON : double) (fuel : nat)
    (params : Params) (supports_presence_grid : SupportGridFilter)
    (done : list LayerIslands) (layer : LayerIslands) (rest : list LayerIslands)
    (st : CheckState) :
  linked_layers 0 (done ++ layer :: rest) ->
  (total_islands (done ++ layer :: rest) <= fuel)%nat ->
  check_global_stability_run PI EPSILON fuel supports_presence_grid done params = Ok st ->
  exists ps,
    foldM (assign_part fuel (layer_z layer)
             (prev_island_to_object_part_mapping st)
             (prev_island_weakest_connection st))
          (imap (fun i isl => (i, isl)) (islands layer))
          (mkPartsState (cs_parts st) ∅ ∅) = Ok ps /\
    tracker_wf (ps_parts ps).
Proof.
  unfold check_global_stability_run. intros Hl Hfuel H.
  destruct (linked_layers_app _ _ _ _ Hl) as [Hdone Hlayer].
  assert (Htotal : (total_islands done + length (islands layer) <= fuel)%nat).
  { rewrite total_islands_app in Hfuel. unfold total_islands in Hfuel at 2.
    simpl in Hfuel. lia. }
  assert (Hinit : pass_invariant 0 0
                    (mkCheckState [] ActiveObjectParts_default ∅ ∅
                                  supports_presence_grid [])).
  { split; [apply tracker_wf_default|]. split; [|split; [simpl; lia|]].
    - intros i pid Hi. simpl in Hi. rewrite lookup_empty in Hi. discriminate.
    - intros j Hj. lia. }
  pose proof (run_keeps _ _ _ _ _ _ _ _ _ H Hinit Hdone ltac:(simpl; lia))
    as (Hwf & Hknown & Hnext & Hdom).
  simpl in Hnext.
  destruct (assign_layer fuel (layer_z layer) _ _ _ _ _ Hwf Hknown Hdom Hlayer
              ltac:(lia)) as (ps & Hps & Hwf' & _).
  exists ps. split; assumption.
Qed.

Lemma merging_loop_succeeds_at_every_layer_witness :
  exists st ps,
    check_global_stability_run Sample.PI Sample.EPSILON 100 GlobalSample.filter
      (take 1 GlobalSample.graph) Sample.params = Ok st /\
    foldM (assign_part 100 (F32.lit 4 10)
             (prev_island_to_object_part_mapping st)
             (prev_island_weakest_connection st))
          (imap (fun i isl => (i, isl))
                (islands (default (mkLayerIslands [] F32.zero)
                                  (GlobalSample.graph !! 1%nat))))
          (mkPartsState (cs_parts st) ∅ ∅) = Ok ps.
Proof.
  assert (Hgraph : take 1 GlobalSample.graph
                   ++ default (mkLayerIslands [] F32.zero) (GlobalSample.graph !! 1%nat)
                      :: [] = GlobalSample.graph)
    by (vm_compute; reflexivity).
  assert (Hl : linked_layers 0 GlobalSample.graph).
  { apply (graph_linked Sample.unscale Sample.angle Sample.PI 100
             GlobalSample.po Sample.params (mkIssues []) GlobalSample.graph).
    vm_compute. reflexivity. }
  destruct (check_global_stability_run Sample.PI Sample.EPSILON 100 GlobalSample.filter
              (take 1 GlobalSample.graph) Sample.params) as [st| |] eqn:E.
  - exists st.
    destruct (merging_loop_succeeds_at_every_layer Sample.PI Sample.EPSILON 100
                Sample.params GlobalSample.filter (take 1 GlobalSample.graph)
                (default (mkLayerIslands [] F32.zero) (GlobalSample.graph !! 1%nat))
                [] st) as (ps & Hps & _).
    + rewrite Hgraph. exact Hl.
    + rewrite Hgraph. vm_compute. lia.
    + exact E.
    + exists ps. split; [reflexivity|].
      replace (F32.lit 4 10)
        with (layer_z (default (mkLayerIslands [] F32.zero) (GlobalSample.graph !! 1%nat)))
        by (vm_compute; reflexivity).
      exact Hps.
  - vm_compute in E. discriminate E.
  - vm_compute in E. discriminate E.
Defined.

(** ** The direction of the lines handed to the stability test *)

Lemma binary_round_aux_zero (prec emax : Z) (s s' : bool) (m e : Z) (l : location) :
  is_zero (binary_round_aux prec emax s m e l) ->
  is_zero (binary_round_aux prec emax s' m e l).
Proof.
  unfold binary_round_aux.
  destruct (shr_fexp prec emax m e l) as [mrs' e'].
  destruct (shr_fexp prec emax _ e' loc_Exact) as [mrs'' e''].
  destruct (shr_m mrs''); simpl; auto.
  destruct (Z.leb e'' (emax - prec)); simpl; auto.
Qed.

Lemma binary_normalize_opp_zero (prec emax : Z) (m e : Z) (s : bool) :
  is_zero (binary_normalize prec emax m e s) ->
  is_zero (binary_normalize prec emax (- m) e s).
Proof.
  destruct m as [|p|p]; simpl; auto; unfold binary_round;
    destruct (shl_align _ _ _) as [mz ez]; apply binary_round_aux_zero.
Qed.

Lemma F32_sub_zero_sym (x y : float) : is_zero (F32.sub x y) -> is_zero (F32.sub y x).
Proof.
  destruct x as [sx|sx| |sx mx ex], y as [sy|sy| |sy my ey]; simpl; auto;
    try (destruct sx, sy; simpl; auto; fail).
  unfold F32.sub, SFsub. rewrite (Z.min_comm ey ex). intros H.
  apply binary_normalize_opp_zero in H.
  rewrite Z.opp_sub_distr, Z.add_comm, Z.add_opp_r in H. exact H.
Qed.

Lemma norm_of_zero_vector (v : Vec2f) :
  zero_vector v -> feq (V2f.norm v) F32.zero = true.
Proof.
  destruct v as [x y]. intros [Hx Hy]. simpl in Hx, Hy.
  destruct x as [sx| | |]; try contradiction.
  destruct y as [sy| | |]; try contradiction.
  destruct sx, sy; reflexivity.
Qed.

(** a line which keeps the length of its constructor, and whose length is
    not equal to zero, does not run from a point to the same point *)
Lemma measured_line_has_a_direction (line : ExtrusionLine) :
  measured line -> feq (len line) F32.zero = false ->
  ~ zero_vector (V2f.sub (line_b line) (line_a line)).
Proof.
  unfold measured. intros Hm Hlen [Hx Hy]. rewrite Hm in Hlen.
  rewrite norm_of_zero_vector in Hlen; [discriminate|].
  destruct (line_a line) as [ax ay], (line_b line) as [bx byy]. simpl in *.
  split; simpl; apply F32_sub_zero_sym; assumption.
Qed.

Lemma check_external_line_calls_of (P : ExtrusionLine -> Prop) (PI EPSILON : double)
    (island : Island) (layer_z : float) (params : Params) (st st' : LineState)
    (line : ExtrusionLine) :
  P line -> Forall P (stability_calls st) ->
  check_external_line PI EPSILON island layer_z params st line = Ok st' ->
  Forall P (stability_calls st').
Proof.
  unfold check_external_line. intros Hp Hall H.
  destruct (_ || feq (len line) F32.zero).
  - inversion H; subst; exact Hall.
  - assert (Hall' : Forall P (stability_calls st ++ [line])).
    { apply Forall_app. split; [exact Hall|]. constructor; [exact Hp | constructor]. }
    destruct (fgt _ F32.zero).
    + apply place_support_calls in H. rewrite H. exact Hall'.
    + inversion H; subst; exact Hall'.
Qed.

Lemma external_lines_fold_calls_of (P : ExtrusionLine -> Prop) (PI EPSILON : double)
    (island : Island) (layer_z : float) (params : Params) :
  forall (lines : list ExtrusionLine) (st st' : LineState),
    Forall P lines -> Forall P (stability_calls st) ->
    foldM (check_external_line PI EPSILON island layer_z params) lines st = Ok st' ->
    Forall P (stability_calls st').
Proof.
  induction lines as [|line lines IH]; intros st st' Hl Hall H; simpl in H.
  - inversion H; subst; exact Hall.
  - inversion Hl as [|? ? Hp Hl']; subst.
    apply bind_Ok in H as [st1 [H1 H]].
    apply (IH _ _ Hl' (check_external_line_calls_of P _ _ _ _ _ _ _ _ Hp Hall H1) H).
Qed.

Lemma check_island_calls_of (P : ExtrusionLine -> Prop) (PI EPSILON : double)
    (fuel : nat) (layer_z : float) (params : Params) (st st' : CheckState)
    (ii : nat * Island) :
  Forall P (external_lines (snd ii)) -> Forall P (cs_calls st) ->
  check_island PI EPSILON fuel layer_z params st ii = Ok st' ->
  Forall P (cs_calls st').
Proof.
  unfold check_island. intros Hl Hall H.
  apply bind_Ok in H as [pid [_ H]].
  apply bind_Ok in H as [r [_ H]].
  apply bind_Ok in H as [part [_ H]].
  apply bind_Ok in H as [ls [Hls H]].
  inversion H; subst; simpl.
  eapply external_lines_fold_calls_of; [exact Hl | | exact Hls]. exact Hall.
Qed.

Lemma check_layer_calls_of (P : ExtrusionLine -> Prop) (PI EPSILON : double)
    (fuel : nat) (params : Params) (st st' : CheckState) (layer : LayerIslands) :
  Forall (fun isl => Forall P (external_lines isl)) (islands layer) ->
  Forall P (cs_calls st) ->
  check_layer PI EPSILON fuel params st layer = Ok st' ->
  Forall P (cs_calls st').
Proof.
  unfold check_layer. intros Hl Hall H.
  apply bind_Ok in H as [ps [_ H]].
  assert (G : forall (l : list (nat * Island)) (s s' : CheckState),
            Forall (fun ii => Forall P (external_lines (snd ii))) l ->
            Forall P (cs_calls s) ->
            foldM (check_island PI EPSILON fuel (layer_z layer) params) l s = Ok s' ->
            Forall P (cs_calls s')).
  { induction l as [|ii l IH]; intros s s' Hi Hs Hf; simpl in Hf.
    - inversion Hf; subst; exact Hs.
    - inversion Hi as [|? ? Hii Hi']; subst.
      apply bind_Ok in Hf as [s1 [H1 Hf]].
      apply (IH _ _ Hi' (check_island_calls_of P _ _ _ _ _ _ _ _ Hii Hs H1) Hf). }
  eapply G; [| |exact H]; [|exact Hall].
  apply Forall_forall. intros [i isl] Hin. simpl.
  apply list_elem_of_lookup in Hin as [k Hk]. rewrite list_lookup_imap in Hk.
  destruct (islands layer !! k) as [isl'|] eqn:E; [|discriminate]. simpl in Hk.
  inversion Hk; subst. rewrite Forall_forall in Hl. apply Hl.
  eapply list_elem_of_lookup_2; eauto.
Qed.

Lemma run_calls_of (P : ExtrusionLine -> Prop) (PI EPSILON : double) (fuel : nat)
    (params : Params) :
  forall (graph : list LayerIslands) (st st' : CheckState),
    Forall (fun li => Forall (fun isl => Forall P (external_lines isl)) (islands li)) graph ->
    Forall P (cs_calls st) ->
    foldM (check_layer PI EPSILON fuel params) graph st = Ok st' ->
    Forall P (cs_calls st').
Proof.
  induction graph as [|li graph IH]; intros st st' Hg Hall H; simpl in H.
  - inversion H; subst; exact Hall.
  - inversion Hg as [|? ? Hli Hg']; subst.
    apply bind_Ok in H as [st1 [H1 H]].
    apply (IH _ _ Hg' (check_layer_calls_of P _ _ _ _ _ _ _ Hli Hall H1) H).
Qed.

Lemma raw_lines_measured (unscale : Z -> double) (entity : ExtrusionEntity)
    (points : list Point) :
  Forall measured (raw_lines unscale entity points).
Proof.
  induction points as [|p points IH]; simpl; [constructor|].
  destruct points as [|q rest]; [constructor|].
  constructor; [reflexivity | exact IH].
Qed.

Lemma base_perimeter_lines_measured (unscale : Z -> double) (perimeter : ExtrusionEntity)
    (ls : list ExtrusionLine) :
  base_perimeter_lines unscale perimeter = Ok ls -> Forall measured ls.
Proof.
  unfold base_perimeter_lines. destruct (is_loop perimeter).
  - intros H. apply bind_Ok in H as [start [_ H]]. apply bind_Ok in H as [next [_ H]].
    inversion H; subst. apply Forall_app. split; [apply raw_lines_measured|].
    constructor; [reflexivity | constructor].
  - intros H. inversion H; subst. apply raw_lines_measured.
Qed.

Lemma base_region_lines_measured (unscale : Z -> double) (layer_region : LayerRegion)
    (ll ll' : list ExtrusionLine) :
  Forall measured ll ->
  base_region_lines unscale ll layer_region = Ok ll' -> Forall measured ll'.
Proof.
  unfold base_region_lines. intros Hll H.
  apply bind_Ok in H as [l1 [H1 H]].
  assert (Hl1 : Forall measured l1).
  { revert H1. apply (foldM_invariant (Forall measured)); [|exact Hll].
    intros s e s' Hs Hf. revert Hf.
    apply (foldM_invariant (Forall measured)); [|exact Hs].
    intros t p t' Ht Hp. apply bind_Ok in Hp as [ls [Hls Hp]]. inversion Hp; subst.
    apply Forall_app. split; [exact Ht|].
    eapply base_perimeter_lines_measured; eauto. }
  revert H. apply (foldM_invariant (Forall measured)); [|exact Hl1].
  intros s e s' Hs Hf. revert Hf.
  apply (foldM_invariant (Forall measured)); [|exact Hs].
  intros t p t' Ht Hp. inversion Hp; subst.
  apply Forall_app. split; [exact Ht | apply raw_lines_measured].
Qed.

Lemma resample_measured (unscale : Z -> double) (params : Params)
    (entity : ExtrusionEntity) (lines : list ExtrusionLine) :
  resample unscale params entity = Ok lines -> Forall measured lines.
Proof.
  unfold resample. intros H. apply bind_Ok in H as [p0 [_ H]]. inversion H; subst.
  constructor; [reflexivity|].
  rewrite split_pairs_concat. apply Forall_concat, Forall_map, Forall_forall.
  intros pq _. unfold split_pair. apply Forall_map, Forall_forall. reflexivity.
Qed.

Lemma same_geometry_measured (l r : ExtrusionLine) :
  same_geometry l r -> measured r -> measured l.
Proof. unfold measured. intros (Ha & Hb & Hl & _) H. rewrite Ha, Hb, Hl. exact H. Qed.

Lemma entity_lines_measured (unscale : Z -> double) (angle : Vec2f -> Vec2f -> float)
    (PI : double) (layer_z : float) (layer_region : LayerRegion)
    (prev_layer_lines : LinesDistancer) (params : Params) (entity : ExtrusionEntity) :
  forall (out : list ExtrusionLine) (issues : Issues)
         (out' : list ExtrusionLine) (issues' : Issues),
    check_extrusion_entity_stability unscale angle PI entity out layer_z layer_region
      prev_layer_lines issues params = Ok (out', issues') ->
    Forall measured out -> Forall measured out'.
Proof.
  induction entity as [a r coll lp pts mm3 members IH] using ExtrusionEntity_nested_ind.
  intros out issues out' issues'. simpl. destruct coll.
  - intros H.
    match type of H with
    | ?each members (out, issues) = _ =>
        assert (G : forall acc res, each members acc = Ok res ->
                  Forall measured (fst acc) -> Forall measured (fst res))
    end.
    { clear H. induction IH as [|e es He _ IHes]; intros acc res H Hacc.
      - inversion H; subst. exact Hacc.
      - destruct acc as [o0 i0].
        apply bind_Ok in H as [[o1 i1] [H1 H]].
        apply (IHes _ _ H). simpl. eapply He; eauto. }
    apply (G _ _ H).
  - intros H Hout.
    destruct (check_path_shape _ _ _ _ _ _ _ _ _ _ _ _ H)
      as (resampled & checked & Hr & -> & Hg & _).
    apply Forall_app. split; [exact Hout|].
    apply resample_measured in Hr.
    apply Forall_forall. intros l Hl.
    apply list_elem_of_lookup in Hl as [k Hk].
    destruct (Forall2_lookup_l _ _ _ _ _ Hg Hk) as (rl & Hrl & Hsame).
    eapply same_geometry_measured; [exact Hsame|].
    rewrite Forall_forall in Hr. apply Hr. eapply list_elem_of_lookup_2; eauto.
Qed.

Lemma region_lines_measured (unscale : Z -> double) (angle : Vec2f -> Vec2f -> float)
    (PI : double) (layer : Layer) (prev_layer_lines : LinesDistancer) (params : Params)
    (st st' : list ExtrusionLine * Issues) (layer_region : LayerRegion) :
  Forall measured (fst st) ->
  region_lines unscale angle PI layer prev_layer_lines params st layer_region = Ok st' ->
  Forall measured (fst st').
Proof.
  unfold region_lines. intros Hst H.
  apply bind_Ok in H as [s1 [H1 H]].
  assert (Hs1 : Forall measured (fst s1)).
  { revert H1.
    apply (foldM_invariant
             (fun s : list ExtrusionLine * Issues => Forall measured (fst s))); [|exact Hst].
    intros s e s' Hs Hf. revert Hf.
    apply (foldM_invariant
             (fun s : list ExtrusionLine * Issues => Forall measured (fst s))); [|exact Hs].
    intros t p [t1 t2] Ht Hp. simpl. eapply entity_lines_measured; eauto. }
  revert H.
  apply (foldM_invariant
           (fun s : list ExtrusionLine * Issues => Forall measured (fst s))); [|exact Hs1].
  intros s e s' Hs Hf. revert Hf.
  apply (foldM_invariant
           (fun s : list ExtrusionLine * Issues => Forall measured (fst s))); [|exact Hs].
  intros t p [t1 t2] Ht Hp. simpl.
  destruct (_ || _).
  - eapply entity_lines_measured; eauto.
  - inversion Hp; subst. apply Forall_app. split; [exact Ht | apply raw_lines_measured].
Qed.

Lemma island_line_step_lines (layer : Layer) (first_layer : bool) (fw : float)
    (layer_lines : list ExtrusionLine) (island_idx : N) (st st' : Island * list N)
    (lidx : nat) :
  island_line_step layer first_layer fw layer_lines island_idx st lidx = Ok st' ->
  external_lines (fst st') = external_lines (fst st).
Proof.
  unfold island_line_step. destruct st as [island mapping].
  intros H. apply bind_Ok in H as [m [_ H]]. apply bind_Ok in H as [line [_ H]].
  destruct (origin_entity line); [|discriminate].
  inversion H; subst; clear H. simpl.
  destruct first_layer; [reflexivity|].
  destruct (support_point_generated line); reflexivity.
Qed.

Lemma build_island_step_measured (layer : Layer) (first_layer : bool) (fw : float)
    (layer_lines : list ExtrusionLine) (extrusions : list (nat * nat))
    (st st' : list Island * list N) (island_ex : list nat) :
  Forall measured layer_lines ->
  islands_measured (fst st) ->
  build_island_step layer first_layer fw layer_lines extrusions st island_ex = Ok st' ->
  islands_measured (fst st').
Proof.
  unfold build_island_step, islands_measured. intros Hlines Hall H.
  destruct island_ex as [|ex0 rest]; [inversion H; subst; exact Hall|].
  apply bind_Ok in H as [range0 [_ H]].
  apply bind_Ok in H as [im [Him H]].
  inversion H; subst; clear H. simpl.
  apply Forall_app. split; [exact Hall|]. constructor; [|constructor].
  revert Him.
  apply (foldM_invariant (fun s : Island * list N => Forall measured (external_lines (fst s)))).
  - intros s e s' Hs H. apply bind_Ok in H as [range [_ H]].
    revert H.
    apply (foldM_invariant
             (fun s : Island * list N => Forall measured (external_lines (fst s))));
      [|exact Hs].
    intros s1 l s1' Hs1 H1. apply island_line_step_lines in H1. rewrite H1. exact Hs1.
  - simpl. unfold lines_range. apply Forall_take, Forall_drop. exact Hlines.
Qed.

Lemma reckon_islands_measured (fuel : nat) (layer : Layer) (first_layer : bool)
    (prev_layer_islands_count : N) (prev_layer_grid : PixelGrid)
    (layer_lines : list ExtrusionLine) (params : Params)
    (result_islands : LayerIslands) (current_layer_grid : PixelGrid) :
  Forall measured layer_lines ->
  reckon_islands fuel layer first_layer prev_layer_islands_count prev_layer_grid
                 layer_lines params = Ok (result_islands, current_layer_grid) ->
  islands_measured (islands result_islands).
Proof.
  unfold reckon_islands. intros Hlines H.
  apply bind_Ok in H as [[built mapping] [Hbuilt H]]. cbv zeta in H. simpl in H.
  apply bind_Ok in H as [grid [Hr H]].
  apply bind_Ok in H as [isls [Hfold H]]. inversion H; subst; clear H. simpl.
  assert (Hb : islands_measured built).
  { unfold build_islands in Hbuilt.
    apply bind_Ok in Hbuilt as [extrusions [_ H]].
    apply bind_Ok in H as [seeds [_ H]]. cbv zeta in H.
    apply bind_Ok in H as [ie1 [_ H]].
    apply bind_Ok in H as [ie2 [_ H]].
    apply bind_Ok in H as [region0 [_ H]].
    change built with (fst (built, mapping)).
    revert H.
    apply (foldM_invariant (fun s : list Island * list N => islands_measured (fst s))).
    - intros s e s'. apply build_island_step_measured. exact Hlines.
    - constructor. }
  revert Hfold. apply (foldM_invariant islands_measured); [|exact Hb].
  intros s c s' Hs H. unfold overlap_cell in H.
  apply bind_Ok in H as [a [_ H]].
  destruct (N.eqb a NULL_ISLAND); [inversion H; subst; exact Hs|].
  apply bind_Ok in H as [b [_ H]].
  destruct (N.eqb b NULL_ISLAND); [inversion H; subst; exact Hs|].
  apply vec_updateN_Ok in H as (isl & Hisl & ->).
  apply Forall_insert; [exact Hs|]. simpl.
  unfold islands_measured in Hs. rewrite Forall_forall in Hs. apply Hs.
  eapply list_elem_of_lookup_2; eauto.
Qed.

Lemma build_layers_measured (unscale : Z -> double) (angle : Vec2f -> Vec2f -> float)
    (PI : double) (fuel : nat) (params : Params) (ls : list Layer) :
  forall st st',
    Forall (fun li => islands_measured (islands li)) (islands_graph st) ->
    foldM (build_layer unscale angle PI fuel params) ls st = Ok st' ->
    Forall (fun li => islands_measured (islands li)) (islands_graph st').
Proof.
  intros st st' Hst.
  apply (foldM_invariant
           (fun s => Forall (fun li => islands_measured (islands li)) (islands_graph s)));
    [|exact Hst].
  intros s layer s' Hs H. unfold build_layer in H.
  apply bind_Ok in H as [li [Hli H]].
  apply bind_Ok in H as [[res g] [Hr H]]. inversion H; subst; clear H. simpl.
  apply Forall_app. split; [exact Hs|]. constructor; [|constructor].
  eapply reckon_islands_measured; [|exact Hr].
  revert Hli.
  apply (foldM_invariant
           (fun s : list ExtrusionLine * Issues => Forall measured (fst s)));
    [|constructor].
  intros t region t' Ht Hf. eapply region_lines_measured; eauto.
Qed.

Lemma graph_measured (unscale : Z -> double) (angle : Vec2f -> Vec2f -> float)
    (PI : double) (fuel : nat) (po : PrintObject) (params : Params)
    (issues : Issues) (graph : list LayerIslands) :
  check_extrusions_and_build_graph unscale angle PI fuel po params = Ok (issues, graph) ->
  Forall (fun li => islands_measured (islands li)) graph.
Proof.
  unfold check_extrusions_and_build_graph. intros H.
  apply bind_Ok in H as [last_layer [_ H]].
  apply bind_Ok in H as [region0 [_ H]].
  apply bind_Ok in H as [g0 [_ H]].
  apply bind_Ok in H as [layer [_ H]].
  apply bind_Ok in H as [layer_lines [Hll H]].
  apply bind_Ok in H as [[res g] [Hr H]].
  apply bind_Ok in H as [st [Hst H]]. inversion H; subst; clear H.
  eapply build_layers_measured; [|exact Hst]. simpl.
  constructor; [|constructor].
  eapply reckon_islands_measured; [|exact Hr].
  revert Hll. apply (foldM_invariant (Forall measured)); [|constructor].
  intros s region s' Hs Hf. eapply base_region_lines_measured; eauto.
Qed.

(** C10: in a run of the global pass over the graph which
    [check_extrusions_and_build_graph] has built, every line handed to
    [is_stable_while_extruding] has a length different from zero, and its
    [b - a] is not the zero vector, so that the stability test never
    normalizes a zero vector.  A line with [len == 0] takes the branch
    which only adds its length to the unchecked distance; the line which
    the local analyzer puts first in a path, from the first point to the
    first point, is such a line. *)
Theorem stability_test_never_gets_zero_length (unscale : Z -> double)
    (angle : Vec2f -> Vec2f -> float) (PI EPSILON : double) (fuel fuel' : nat)
    (po : PrintObject) (params : Params) (issues : Issues) (graph : list LayerIslands)
    (grid : SupportGridFilter) (st : CheckState) :
  check_extrusions_and_build_graph unscale angle PI fuel po params = Ok (issues, graph) ->
  check_global_stability_run PI EPSILON fuel' grid graph params = Ok st ->
  Forall (fun line => feq (len line) F32.zero = false /\
                      ~ zero_vector (V2f.sub (line_b line) (line_a line)))
         (cs_calls st) /\
  (forall (island : Island) (layer_z : float) (ls : LineState) (line : ExtrusionLine),
     feq (len line) F32.zero = true ->
     check_external_line PI EPSILON island layer_z params ls line
     = Ok (mkLineState (F32.add (unchecked_dist ls) (len line)) (ls_part ls)
             (weakest_conn ls) (island_lines_dist ls) (ls_issues ls)
             (supports_presence_grid ls) (stability_calls ls))) /\
  (forall (entity : ExtrusionEntity) (lines : list ExtrusionLine),
     resample unscale params entity = Ok lines ->
     exists first rest,
       lines = first :: rest /\ line_a first = line_b first /\
       (is_finite (v2x (line_a first)) -> is_finite (v2y (line_a first)) ->
        feq (len first) F32.zero = true)).
Proof.
  intros Hg H. split; [|split].
  - pose proof (graph_measured _ _ _ _ _ _ _ _ Hg) as Hm.
    unfold check_global_stability_run in H.
    assert (H1 : Forall nonzero_length (cs_calls st)).
    { revert H. apply (foldM_invariant (fun s => Forall nonzero_length (cs_calls s))).
      - intros s a s'. apply check_layer_calls.
      - constructor. }
    assert (H2 : Forall measured (cs_calls st)).
    { eapply run_calls_of; [exact Hm | | exact H]. constructor. }
    rewrite Forall_forall in H1, H2. apply Forall_forall. intros line Hin.
    split; [apply H1; exact Hin|].
    apply measured_line_has_a_direction; [apply H2 | apply H1]; exact Hin.
  - intros. apply zero_length_line_is_skipped. assumption.
  - intros entity lines Hr.
    destruct (resample_first_line _ _ _ _ Hr) as (l0 & rest & -> & Hab & Hz).
    exists l0, rest. split; [reflexivity|]. split; [exact Hab|].
    intros Hx Hy. apply (Hz Hx Hy).
Qed.

Lemma stability_test_never_gets_zero_length_witness :
  exists st,
    check_global_stability_run Sample.PI Sample.EPSILON 100 GlobalSample.filter
      GlobalSample.graph Sample.params = Ok st /\
    cs_calls st <> [] /\
    Forall (fun line => ~ zero_vector (V2f.sub (line_b line) (line_a line))) (cs_calls st).
Proof.
  assert (Hg : check_extrusions_and_build_graph Sample.unscale Sample.angle Sample.PI 100
                 GlobalSample.po Sample.params = Ok (mkIssues [], GlobalSample.graph))
    by (vm_compute; reflexivity).
  destruct (check_global_stability_run Sample.PI Sample.EPSILON 100 GlobalSample.filter
              GlobalSample.graph Sample.params) as [st| |] eqn:E.
  - exists st. split; [reflexivity|]. split.
    + revert E. vm_compute. intros E. injection E as <-. discriminate.
    + destruct (stability_test_never_gets_zero_length _ _ _ _ _ _ _ _ _ _ _ _ Hg E)
        as [Hall _].
      eapply Forall_impl; [exact Hall|]. intros line [_ Hd]. exact Hd.
  - vm_compute in E. discriminate E.
  - vm_compute in E. discriminate E.
Defined.

(** ** The part tracker under the merges of the global pass *)

Lemma find_represents (fuel : nat) (this : ActiveObjectParts) (id r : N) :
  tracker_wf this -> (N.to_nat (next_part_idx this) <= fuel)%nat ->
  find fuel this id = Ok r -> represents this id r.
Proof.
  intros Hwf Hfuel H. unfold find in H. apply bind_Ok in H as [[r' this'] [Hg H]].
  simpl in H. inversion H; subst r'.
  destruct (get_flat_id_Ok _ _ _ _ Hwf Hfuel Hg) as (_ & _ & Hid).
  destruct (wf_leads this Hwf id Hid) as (r0 & Hr0 & _).
  destruct (get_flat_id_spec fuel this id r0 Hwf Hr0 Hfuel) as (this0 & Hg0 & _).
  rewrite Hg0 in Hg. inversion Hg; subst. exact Hr0.
Qed.

Lemma represents_find (fuel : nat) (this : ActiveObjectParts) (id r : N) :
  tracker_wf this -> (N.to_nat (next_part_idx this) <= fuel)%nat ->
  represents this id r -> find fuel this id = Ok r.
Proof.
  intros Hwf Hfuel Hr. unfold find.
  destruct (get_flat_id_spec fuel this id r Hwf Hr Hfuel) as (this' & Hg & _).
  rewrite Hg. reflexivity.
Qed.

Lemma guarded_run (fuel : nat) :
  forall (ops : list tracker_op) (this : ActiveObjectParts),
    tracker_wf this ->
    (N.to_nat (next_part_idx this) + inserts ops <= fuel)%nat ->
    merges_representatives fuel this ops ->
    exists st,
      foldM (run_op fuel) ops this = Ok st /\
      tracker_wf st /\
      N.to_nat (next_part_idx st) = (N.to_nat (next_part_idx this) + inserts ops)%nat.
Proof.
  induction ops as [|[island|from to] ops IH]; intros this Hwf Hfuel Hg.
  - exists this. unfold inserts. simpl. split; [reflexivity|]. split; [exact Hwf | lia].
  - unfold inserts in Hfuel |- *. simpl in Hfuel, Hg |- *.
    destruct (insert_part_spec this island Hwf) as (Hwf' & _).
    destruct (IH (snd (insert_part this island)) Hwf') as (st & Hf & Hwf'' & Hn).
    + unfold inserts. simpl. lia.
    + exact Hg.
    + exists st. split; [exact Hf|]. split; [exact Hwf''|].
      unfold inserts in Hn. simpl in Hn. lia.
  - unfold inserts in Hfuel |- *. simpl in Hfuel, Hg |- *.
    destruct Hg as (Hfrom & (r & Hto & Hne) & Hrest).
    assert (Hf : (N.to_nat (next_part_idx this) <= fuel)%nat) by lia.
    destruct (merge_spec fuel this from to r Hwf
                (find_represents _ _ _ _ Hwf Hf Hfrom)
                (find_represents _ _ _ _ Hwf Hf Hto) Hne Hf)
      as (this' & pt & pf & Hm & Hwf' & Hnext & _).
    rewrite Hm. simpl.
    destruct (IH this' Hwf') as (st & Hfold & Hwf'' & Hn).
    + unfold inserts. rewrite Hnext. lia.
    + apply Hrest. exact Hm.
    + exists st. split; [exact Hfold|]. split; [exact Hwf''|].
      unfold inserts in Hn. rewrite Hnext in Hn. lia.
Qed.

(** C9, as the code has it: after any sequence of [insert] operations and
    of [merge(from, to)] operations called as the global pass calls them,
    for a representative [from] and an id [to] of another part, and with
    fuel for as many steps as there are ids: the ids returned by [insert]
    are those below [next_part_idx]; for each of them [find] returns a
    representative [r] with [find(r) = r], and [r] is a key of the live
    parts, so that [access] returns the part kept under [r]. *)
Theorem find_is_idempotent_and_live (fuel : nat) (ops : list tracker_op) :
  (inserts ops <= fuel)%nat ->
  merges_representatives fuel ActiveObjectParts_default ops ->
  exists st,
    run_ops fuel ops = Ok st /\
    N.to_nat (next_part_idx st) = inserts ops /\
    forall id, (id < next_part_idx st)%N ->
      exists r part st',
        find fuel st id = Ok r /\
        find fuel st r = Ok r /\
        active_object_parts st !! r = Some part /\
        access fuel st id = Ok (part, st').
Proof.
  intros Hfuel Hg. unfold run_ops.
  destruct (guarded_run fuel ops ActiveObjectParts_default tracker_wf_default
              ltac:(simpl; lia) Hg) as (st & Hf & Hwf & Hn).
  simpl in Hn. exists st. split; [exact Hf|]. split; [exact Hn|].
  intros id Hid.
  assert (Hfu : (N.to_nat (next_part_idx st) <= fuel)%nat) by lia.
  destruct (wf_leads st Hwf id Hid) as (r & Hr & [part Hpart]).
  destruct (get_flat_id_spec fuel st id r Hwf Hr Hfu)
    as (st' & Hget & _ & Hparts & _).
  exists r, part, st'.
  split; [apply represents_find; assumption|].
  split.
  - apply represents_find; [assumption..|].
    destruct Hr as [n Hl]. exists 0%nat. apply leads_here, (leads_root _ _ _ _ Hl).
  - split; [exact Hpart|].
    unfold access. rewrite Hget. simpl. unfold map_at. rewrite Hparts, Hpart. reflexivity.
Qed.

Lemma find_is_idempotent_and_live_witness :
  exists st,
    run_ops 8 [OpInsert Island_default; OpInsert Island_default; OpInsert Island_default;
               OpMerge 0 1; OpMerge 1 2] = Ok st /\
    find 8 st 0 = Ok 2%N /\ find 8 st 2 = Ok 2%N.
Proof.
  destruct (find_is_idempotent_and_live 8
              [OpInsert Island_default; OpInsert Island_default; OpInsert Island_default;
               OpMerge 0 1; OpMerge 1 2])
    as (st & Hrun & _ & Hall).
  - vm_compute. lia.
  - cbn [merges_representatives].
    split; [vm_compute; reflexivity|].
    split; [exists 1%N; split; [vm_compute; reflexivity | discriminate]|].
    intros this1 H1. vm_compute in H1. injection H1 as <-.
    split; [vm_compute; reflexivity|].
    split; [exists 2%N; split; [vm_compute; reflexivity | discriminate]|].
    intros _ _. exact I.
  - exists st. split; [exact Hrun|].
    vm_compute in Hrun. injection Hrun as <-.
    split; vm_compute; reflexivity.
Defined.

(** ** The index image under any order of the parallel loop *)

Lemma reckon_islands_index_order (fuel : nat) (layer : Layer) (first_layer : bool)
    (prev_layer_islands_count : N) (prev_layer_grid : PixelGrid)
    (layer_lines : list ExtrusionLine) (params : Params) :
  reckon_islands fuel layer first_layer prev_layer_islands_count prev_layer_grid
                 layer_lines params
  = reckon_islands_in (seq 0 (length layer_lines)) fuel layer first_layer
      prev_layer_islands_count prev_layer_grid layer_lines params.
Proof. reflexivity. Qed.







